(** * gcla/sklearn: update rules, training loop and sample generator

    Shallow embedding of
    - [base.SGDOptimizer] (package base: the update rules, and the optimizer
      as an [optimize.Method]),
    - [linearModel.LinFit] and [linearModel.LinFitGOM] (the training loop and
      the per-output fit),
    - [LinearModel] (the intercept and the prediction) and the objective and
      gradient of [SGDRegressor],
    - [datasets.MakeRegression].

    Numbers.  A [float64] of the update rules and of the matrices is read as
    a real number: rounding, overflow and NaN are outside this development.
    The scalars of the training loop that the code initialises with
    [math.Inf(1)] range over the reals extended with the IEEE special
    values ([linearModel.float64]).

    Failure.  A Go panic (nil receiver, shape mismatch, index out of range,
    failed type assertion, integer division by zero) is [None]. *)

From Stdlib Require Import Reals Lra Lia List ZArith Bool String.
Import ListNotations.
Open Scope R_scope.

(** ** The error monad of panicking code *)

Definition M (A : Type) : Type := option A.

Definition ret {A} (a : A) : M A := Some a.

Definition panic {A} : M A := None.

Definition bind {A B} (m : M A) (k : A -> M B) : M B :=
match m with
| Some a => k a
| None => None
end.

Notation "x <- m ;; k" := (bind m (fun x => k))
  (at level 61, m at next level, right associativity).
Notation "' p <- m ;; k" := (bind m (fun x => let p := x in k))
  (at level 61, p pattern, m at next level, right associativity).

(** [assert b] is a guard: the run goes on when [b] holds and panics
    otherwise. *)
Definition assert (b : bool) : M unit := if b then Some tt else None.

(** Go's comparisons on [float64], as booleans. *)
Definition Rltb (a b : R) : bool := if Rlt_dec a b then true else false.

Definition Reqb (a b : R) : bool := if Req_dec_T a b then true else false.

(** ** gonum/mat: dense matrices, row-major *)

Module mat.

Record Dense : Type := mkDense { rows : nat; cols : nat; data : list R }.

Definition Dims (m : Dense) : nat * nat := (rows m, cols m).

(** [mat.NewDense(r, c, nil)]: a zero matrix. *)
Definition NewDense (r c : nat) : Dense := mkDense r c (repeat 0 (r * c)).

(** [mat.NewDense(r, c, data)]: a view on [data], which must hold r*c
    values. *)
Definition NewDenseOf (r c : nat) (d : list R) : M Dense :=
if Nat.eqb (List.length d) (r * c) then ret (mkDense r c d) else panic.

Definition At (m : Dense) (i j : nat) : R := nth (i * cols m + j) (data m) 0.

(** The matrix of shape r x c whose (i, j) entry is [f i j]. *)
Definition tabulate (r c : nat) (f : nat -> nat -> R) : Dense :=
mkDense r c (map (fun k => f (k / c)%nat (k mod c)%nat) (seq 0 (r * c))).

Definition sameDims (a b : Dense) : bool :=
Nat.eqb (rows a) (rows b) && Nat.eqb (cols a) (cols b).

Definition IsEmpty (m : Dense) : bool :=
Nat.eqb (rows m) 0 || Nat.eqb (cols m) 0.

(** [m.Apply(fn, a)]: the entries of the receiver become
    [fn(i, j, a.At(i, j))]. *)
Definition Apply (fn : nat -> nat -> R -> R) (a : Dense) : Dense :=
tabulate (rows a) (cols a) (fun i j => fn i j (At a i j)).

(** [m.Set(i, j, v)], inside the bounds. *)
Definition Set_ (m : Dense) (i j : nat) (v : R) : Dense :=
tabulate (rows m) (cols m)
  (fun i' j' => if Nat.eqb i i' && Nat.eqb j j' then v else At m i' j').

(** [m.Scale(f, a)]. *)
Definition Scale (f : R) (a : Dense) : Dense :=
Apply (fun _ _ v => f * v) a.

(** [m.Add(a, b)], for operands of one shape. *)
Definition Add (a b : Dense) : Dense :=
tabulate (rows a) (cols a) (fun i j => At a i j + At b i j).

(** [m.Clone(a)]: the receiver becomes a copy of [a]. *)
Definition Clone (a : Dense) : Dense := mkDense (rows a) (cols a) (data a).

(** [m.Slice(i, k, j, l)]: rows i..k-1 and columns j..l-1. *)
Definition Slice (m : Dense) (i k j l : nat) : Dense :=
tabulate (k - i) (l - j) (fun i' j' => At m (i + i') (j + j')).

(** [m.Mul(a, b)]: the matrix product, for [cols a = rows b]. *)
Definition Mul (a b : Dense) : Dense :=
tabulate (rows a) (cols b)
  (fun i j => fold_right Rplus 0
                (map (fun l => At a i l * At b l j) (seq 0 (cols a)))).

(** [m.SetCol(j, src)]. *)
Definition SetCol (m : Dense) (j : nat) (src : list R) : Dense :=
tabulate (rows m) (cols m)
  (fun i' j' => if Nat.eqb j j' then nth i' src 0 else At m i' j').

(** [mat.Col(dst, j, m)]: column [j] as a slice. *)
Definition Col (j : nat) (m : Dense) : list R :=
map (fun i => At m i j) (seq 0 (rows m)).

End mat.

(** ** Package math *)

(** [math.Pow]: on an integral exponent the repeated product, and the
    exponential of the logarithm elsewhere. *)
Definition math_Pow (x y : R) : R :=
if Req_dec_T y (IZR (Int_part y)) then powerRZ x (Int_part y) else Rpower x y.

(** [uint64(x)] on a non-negative [float64]: the integral part. *)
Definition uint64_of_float64 (x : R) : Z := Int_part x.

(** ** Package base: the update rules *)

Module base.
Import mat.

Record SGDOptimizer : Type := mkSGDOptimizer {
  StepSize : R;
  Momentum : R;
  GradientClipping : R;
  RMSPropGamma : R;
  Epsilon : R;
  Adagrad : bool;
  Adadelta : bool;
  RMSProp : bool;
  Adam : bool;
  NFeatures : nat;
  NOutputs : nat;
  GtNorm : option Dense;
  Theta : option Dense;
  PrevUpdate : option Dense;
  Update : option Dense;
  AdagradG : option Dense;
  AdadeltaU : option Dense;
  TimeStep : R;
  Beta1 : R;
  Beta2 : R;
  Mt : option Dense;
  Vt : option Dense;
  Mtcap : option Dense;
  Vtcap : option Dense;
  lastOp : Z
}.

(** The zero value of the struct. *)
Definition zeroSGDOptimizer : SGDOptimizer :=
mkSGDOptimizer 0 0 0 0 0 false false false false 0 0
  None None None None None None 0 0 0 None None None None 0.

(** Field assignments. *)
Definition set_StepSize (s : SGDOptimizer) (v : R) : SGDOptimizer :=
mkSGDOptimizer v (Momentum s) (GradientClipping s) (RMSPropGamma s)
  (Epsilon s) (Adagrad s) (Adadelta s) (RMSProp s) (Adam s) (NFeatures s)
  (NOutputs s) (GtNorm s) (Theta s) (PrevUpdate s) (Update s) (AdagradG s)
  (AdadeltaU s) (TimeStep s) (Beta1 s) (Beta2 s) (Mt s) (Vt s) (Mtcap s)
  (Vtcap s) (lastOp s).

Definition set_Momentum (s : SGDOptimizer) (v : R) : SGDOptimizer :=
mkSGDOptimizer (StepSize s) v (GradientClipping s) (RMSPropGamma s)
  (Epsilon s) (Adagrad s) (Adadelta s) (RMSProp s) (Adam s) (NFeatures s)
  (NOutputs s) (GtNorm s) (Theta s) (PrevUpdate s) (Update s) (AdagradG s)
  (AdadeltaU s) (TimeStep s) (Beta1 s) (Beta2 s) (Mt s) (Vt s) (Mtcap s)
  (Vtcap s) (lastOp s).

Definition set_GradientClipping (s : SGDOptimizer) (v : R) : SGDOptimizer :=
mkSGDOptimizer (StepSize s) (Momentum s) v (RMSPropGamma s)
  (Epsilon s) (Adagrad s) (Adadelta s) (RMSProp s) (Adam s) (NFeatures s)
  (NOutputs s) (GtNorm s) (Theta s) (PrevUpdate s) (Update s) (AdagradG s)
  (AdadeltaU s) (TimeStep s) (Beta1 s) (Beta2 s) (Mt s) (Vt s) (Mtcap s)
  (Vtcap s) (lastOp s).

Definition set_RMSPropGamma (s : SGDOptimizer) (v : R) : SGDOptimizer :=
mkSGDOptimizer (StepSize s) (Momentum s) (GradientClipping s) v
  (Epsilon s) (Adagrad s) (Adadelta s) (RMSProp s) (Adam s) (NFeatures s)
  (NOutputs s) (GtNorm s) (Theta s) (PrevUpdate s) (Update s) (AdagradG s)
  (AdadeltaU s) (TimeStep s) (Beta1 s) (Beta2 s) (Mt s) (Vt s) (Mtcap s)
  (Vtcap s) (lastOp s).

Definition set_variant (s : SGDOptimizer) (adagrad adadelta rmsprop adam : bool)
  : SGDOptimizer :=
mkSGDOptimizer (StepSize s) (Momentum s) (GradientClipping s) (RMSPropGamma s)
  (Epsilon s) adagrad adadelta rmsprop adam (NFeatures s)
  (NOutputs s) (GtNorm s) (Theta s) (PrevUpdate s) (Update s) (AdagradG s)
  (AdadeltaU s) (TimeStep s) (Beta1 s) (Beta2 s) (Mt s) (Vt s) (Mtcap s)
  (Vtcap s) (lastOp s).

Definition set_shape (s : SGDOptimizer) (nf no : nat) : SGDOptimizer :=
mkSGDOptimizer (StepSize s) (Momentum s) (GradientClipping s) (RMSPropGamma s)
  (Epsilon s) (Adagrad s) (Adadelta s) (RMSProp s) (Adam s) nf
  no (GtNorm s) (Theta s) (PrevUpdate s) (Update s) (AdagradG s)
  (AdadeltaU s) (TimeStep s) (Beta1 s) (Beta2 s) (Mt s) (Vt s) (Mtcap s)
  (Vtcap s) (lastOp s).

Definition set_GtNorm (s : SGDOptimizer) (v : option Dense) : SGDOptimizer :=
mkSGDOptimizer (StepSize s) (Momentum s) (GradientClipping s) (RMSPropGamma s)
  (Epsilon s) (Adagrad s) (Adadelta s) (RMSProp s) (Adam s) (NFeatures s)
  (NOutputs s) v (Theta s) (PrevUpdate s) (Update s) (AdagradG s)
  (AdadeltaU s) (TimeStep s) (Beta1 s) (Beta2 s) (Mt s) (Vt s) (Mtcap s)
  (Vtcap s) (lastOp s).

Definition set_Theta (s : SGDOptimizer) (v : option Dense) : SGDOptimizer :=
mkSGDOptimizer (StepSize s) (Momentum s) (GradientClipping s) (RMSPropGamma s)
  (Epsilon s) (Adagrad s) (Adadelta s) (RMSProp s) (Adam s) (NFeatures s)
  (NOutputs s) (GtNorm s) v (PrevUpdate s) (Update s) (AdagradG s)
  (AdadeltaU s) (TimeStep s) (Beta1 s) (Beta2 s) (Mt s) (Vt s) (Mtcap s)
  (Vtcap s) (lastOp s).

Definition set_PrevUpdate (s : SGDOptimizer) (v : option Dense) : SGDOptimizer :=
mkSGDOptimizer (StepSize s) (Momentum s) (GradientClipping s) (RMSPropGamma s)
  (Epsilon s) (Adagrad s) (Adadelta s) (RMSProp s) (Adam s) (NFeatures s)
  (NOutputs s) (GtNorm s) (Theta s) v (Update s) (AdagradG s)
  (AdadeltaU s) (TimeStep s) (Beta1 s) (Beta2 s) (Mt s) (Vt s) (Mtcap s)
  (Vtcap s) (lastOp s).

Definition set_Update (s : SGDOptimizer) (v : option Dense) : SGDOptimizer :=
mkSGDOptimizer (StepSize s) (Momentum s) (GradientClipping s) (RMSPropGamma s)
  (Epsilon s) (Adagrad s) (Adadelta s) (RMSProp s) (Adam s) (NFeatures s)
  (NOutputs s) (GtNorm s) (Theta s) (PrevUpdate s) v (AdagradG s)
  (AdadeltaU s) (TimeStep s) (Beta1 s) (Beta2 s) (Mt s) (Vt s) (Mtcap s)
  (Vtcap s) (lastOp s).

Definition set_AdagradG (s : SGDOptimizer) (v : option Dense) : SGDOptimizer :=
mkSGDOptimizer (StepSize s) (Momentum s) (GradientClipping s) (RMSPropGamma s)
  (Epsilon s) (Adagrad s) (Adadelta s) (RMSProp s) (Adam s) (NFeatures s)
  (NOutputs s) (GtNorm s) (Theta s) (PrevUpdate s) (Update s) v
  (AdadeltaU s) (TimeStep s) (Beta1 s) (Beta2 s) (Mt s) (Vt s) (Mtcap s)
  (Vtcap s) (lastOp s).

Definition set_AdadeltaU (s : SGDOptimizer) (v : option Dense) : SGDOptimizer :=
mkSGDOptimizer (StepSize s) (Momentum s) (GradientClipping s) (RMSPropGamma s)
  (Epsilon s) (Adagrad s) (Adadelta s) (RMSProp s) (Adam s) (NFeatures s)
  (NOutputs s) (GtNorm s) (Theta s) (PrevUpdate s) (Update s) (AdagradG s)
  v (TimeStep s) (Beta1 s) (Beta2 s) (Mt s) (Vt s) (Mtcap s)
  (Vtcap s) (lastOp s).

Definition set_TimeStep (s : SGDOptimizer) (v : R) : SGDOptimizer :=
mkSGDOptimizer (StepSize s) (Momentum s) (GradientClipping s) (RMSPropGamma s)
  (Epsilon s) (Adagrad s) (Adadelta s) (RMSProp s) (Adam s) (NFeatures s)
  (NOutputs s) (GtNorm s) (Theta s) (PrevUpdate s) (Update s) (AdagradG s)
  (AdadeltaU s) v (Beta1 s) (Beta2 s) (Mt s) (Vt s) (Mtcap s)
  (Vtcap s) (lastOp s).

Definition set_Mt (s : SGDOptimizer) (v : option Dense) : SGDOptimizer :=
mkSGDOptimizer (StepSize s) (Momentum s) (GradientClipping s) (RMSPropGamma s)
  (Epsilon s) (Adagrad s) (Adadelta s) (RMSProp s) (Adam s) (NFeatures s)
  (NOutputs s) (GtNorm s) (Theta s) (PrevUpdate s) (Update s) (AdagradG s)
  (AdadeltaU s) (TimeStep s) (Beta1 s) (Beta2 s) v (Vt s) (Mtcap s)
  (Vtcap s) (lastOp s).

Definition set_Vt (s : SGDOptimizer) (v : option Dense) : SGDOptimizer :=
mkSGDOptimizer (StepSize s) (Momentum s) (GradientClipping s) (RMSPropGamma s)
  (Epsilon s) (Adagrad s) (Adadelta s) (RMSProp s) (Adam s) (NFeatures s)
  (NOutputs s) (GtNorm s) (Theta s) (PrevUpdate s) (Update s) (AdagradG s)
  (AdadeltaU s) (TimeStep s) (Beta1 s) (Beta2 s) (Mt s) v (Mtcap s)
  (Vtcap s) (lastOp s).

Definition set_Mtcap (s : SGDOptimizer) (v : option Dense) : SGDOptimizer :=
mkSGDOptimizer (StepSize s) (Momentum s) (GradientClipping s) (RMSPropGamma s)
  (Epsilon s) (Adagrad s) (Adadelta s) (RMSProp s) (Adam s) (NFeatures s)
  (NOutputs s) (GtNorm s) (Theta s) (PrevUpdate s) (Update s) (AdagradG s)
  (AdadeltaU s) (TimeStep s) (Beta1 s) (Beta2 s) (Mt s) (Vt s) v
  (Vtcap s) (lastOp s).

Definition set_Vtcap (s : SGDOptimizer) (v : option Dense) : SGDOptimizer :=
mkSGDOptimizer (StepSize s) (Momentum s) (GradientClipping s) (RMSPropGamma s)
  (Epsilon s) (Adagrad s) (Adadelta s) (RMSProp s) (Adam s) (NFeatures s)
  (NOutputs s) (GtNorm s) (Theta s) (PrevUpdate s) (Update s) (AdagradG s)
  (AdadeltaU s) (TimeStep s) (Beta1 s) (Beta2 s) (Mt s) (Vt s) (Mtcap s)
  v (lastOp s).

(** [NewSGDOptimizer]: step size 1e-4, momentum 0.9. *)
Definition NewSGDOptimizer : SGDOptimizer :=
mkSGDOptimizer (1 / 10000) (9 / 10) 0 (9 / 10) (1 / 100000000)
  false false false false 0 0
  None None None None None None 0 0 0 None None None None 0.

Definition NewAdagradOptimizer : SGDOptimizer :=
let s := NewSGDOptimizer in
let s := set_StepSize s (5 / 10) in
let s := set_Momentum s 0 in
let s := set_variant s true (Adadelta s) (RMSProp s) (Adam s) in
let s := set_GradientClipping s 10 in
s.

Definition NewAdadeltaOptimizer : SGDOptimizer :=
let s := NewSGDOptimizer in
let s := set_Momentum s 0 in
let s := set_variant s (Adagrad s) true (RMSProp s) (Adam s) in
s.

Definition NewRMSPropOptimizer : SGDOptimizer :=
let s := NewSGDOptimizer in
let s := set_StepSize s (5 / 100) in
let s := set_Momentum s 0 in
let s := set_variant s (Adagrad s) (Adadelta s) true (Adam s) in
let s := set_RMSPropGamma s (9 / 10) in
s.

Definition NewAdamOptimizer : SGDOptimizer :=
mkSGDOptimizer (5 / 10) 0 0 0 (1 / 100000000)
  false false false true 0 0
  None None None None None None 0 (9 / 10) (999 / 1000) None None None None 0.

(** [NewOptimizer]: an unknown name panics. *)
Definition NewOptimizer (name : string) : M SGDOptimizer :=
if String.eqb name "sgd" then ret NewSGDOptimizer
else if String.eqb name "adagrad" then ret NewAdagradOptimizer
else if String.eqb name "adadelta" then ret NewAdadeltaOptimizer
else if String.eqb name "rmsprop" then ret NewRMSPropOptimizer
else if String.eqb name "adam" then ret NewAdamOptimizer
else panic.

Definition SetTheta (s : SGDOptimizer) (theta : Dense) : SGDOptimizer :=
let s := set_shape s (rows theta) (cols theta) in
set_Theta s (Some theta).

Definition GetTheta (s : SGDOptimizer) : option Dense := Theta s.

Definition GetTimeStep (s : SGDOptimizer) : Z := uint64_of_float64 (TimeStep s).

(** [colNorm]: the L2 norm of column [o]. *)
Definition colNorm (m : Dense) (o : nat) : R :=
let nFeatures := rows m in
sqrt (fold_left (fun s j => let v := At m j o in s + v * v) (seq 0 nFeatures) 0).

(** The allocation of the first call ([s.TimeStep == 0]). *)
Definition lazyInit (s : SGDOptimizer) (nFeatures nOutputs : nat) : SGDOptimizer :=
let init := fun (m : Dense) (v0 : R) => Apply (fun _ _ _ => v0) m in
let s := if Rltb 0 (GradientClipping s)
         then set_GtNorm s (Some (NewDense nOutputs 1)) else s in
let s := set_PrevUpdate s (Some (NewDense nFeatures nOutputs)) in
let s := if Adagrad s || RMSProp s || Adadelta s
         then set_AdagradG s (Some (init (NewDense nFeatures nOutputs) (Epsilon s)))
         else s in
let s := if Adadelta s
         then set_AdadeltaU s (Some (init (NewDense nFeatures nOutputs) 1))
         else s in
let s := if Adam s
         then set_Vtcap (set_Mtcap (set_Vt (set_Mt s
                (Some (NewDense nFeatures nOutputs)))
                (Some (NewDense nFeatures nOutputs)))
                (Some (NewDense nFeatures nOutputs)))
                (Some (NewDense nFeatures nOutputs))
         else s in
s.

(** One pass of [s.GtNorm.Set(j, 0, colNorm(grad, j))]: a nil [GtNorm] or an
    index outside it panics. *)
Definition setGtNorm1 (grad : Dense) (acc : M SGDOptimizer) (j : nat)
  : M SGDOptimizer :=
s <- acc ;;
match GtNorm s with
| None => panic
| Some g =>
    _ <- assert (Nat.ltb j (rows g) && Nat.ltb 0 (cols g)) ;;
    ret (set_GtNorm s (Some (Set_ g j 0 (colNorm grad j))))
end.

Definition setGtNorm (s : SGDOptimizer) (grad : Dense) : M SGDOptimizer :=
fold_left (setGtNorm1 grad) (seq 0 (cols grad)) (ret s).

Definition GtNormAt (s : SGDOptimizer) (o : nat) : R :=
match GtNorm s with
| Some g => At g o 0
| None => 0
end.

(** The closure [gradientClipped] of [GetUpdate]. *)
Definition gradientClipped (s : SGDOptimizer) (grad : Dense) (j o : nat) : R :=
let gradjo := At grad j o in
if Rltb 0 (GradientClipping s) && Rltb (GradientClipping s) (GtNormAt s o)
then gradjo * (GradientClipping s / GtNormAt s o)
else gradjo.

(** A buffer of the state that the update reads or writes: it must have
    been allocated, with the shape of the gradient. *)
Definition buffer (b : option Dense) (grad : Dense) : M Dense :=
match b with
| Some m => _ <- assert (sameDims m grad) ;; ret m
| None => panic
end.

(** The receiver of [update.Apply(fn, a)]: empty, or of the shape of [a]. *)
Definition receiver (update a : Dense) : M unit :=
assert (IsEmpty update || sameDims update a).

Definition updateRMSProp (s : SGDOptimizer) (update grad : Dense)
  : M (SGDOptimizer * Dense) :=
G <- buffer (AdagradG s) grad ;;
_ <- receiver update G ;;
let update :=
  Apply (fun j o _ =>
           let etajo := StepSize s in
           let etajo := if Rltb 1 (TimeStep s) && Rltb 1 (Rabs (At G j o))
                        then etajo / sqrt (At G j o + Epsilon s) else etajo in
           - etajo * gradientClipped s grad j o) G in
let G :=
  Apply (fun j o v =>
           let gradjo := gradientClipped s grad j o in
           v * RMSPropGamma s + (1 - RMSPropGamma s) * gradjo * gradjo) G in
ret (set_AdagradG s (Some G), update).

Definition updateAdagrad (s : SGDOptimizer) (update grad : Dense)
  : M (SGDOptimizer * Dense) :=
G <- buffer (AdagradG s) grad ;;
_ <- receiver update grad ;;
let update :=
  Apply (fun j o _ =>
           let etajo := StepSize s in
           let Gjo := At G j o in
           let etajo := if Rltb 1 (TimeStep s)
                        then etajo / (sqrt Gjo + Epsilon s) else etajo in
           - etajo * gradientClipped s grad j o) grad in
let G :=
  Apply (fun j o v =>
           let gradjo := gradientClipped s grad j o in
           v + gradjo * gradjo) G in
ret (set_AdagradG s (Some G), update).

Definition updateAdadelta (s : SGDOptimizer) (eta : R) (update grad : Dense)
  : M (SGDOptimizer * Dense) :=
G <- buffer (AdagradG s) grad ;;
U <- buffer (AdadeltaU s) grad ;;
_ <- receiver update grad ;;
let G :=
  Apply (fun j o v =>
           let gradjo := gradientClipped s grad j o in
           RMSPropGamma s * v + (1 - RMSPropGamma s) * gradjo * gradjo) G in
let update :=
  Apply (fun j o _ =>
           let etajo := eta in
           let etajo := if Rltb 1 (TimeStep s)
                        then sqrt (At U j o) / sqrt (At G j o + Epsilon s)
                        else etajo in
           - etajo * gradientClipped s grad j o) grad in
let U :=
  Apply (fun j o v =>
           let upd := At update j o in
           RMSPropGamma s * v + (1 - RMSPropGamma s) * upd * upd) U in
ret (set_AdadeltaU (set_AdagradG s (Some G)) (Some U), update).

Definition updateAdam (s : SGDOptimizer) (update grad : Dense)
  : M (SGDOptimizer * Dense) :=
mt <- buffer (Mt s) grad ;;
vt <- buffer (Vt s) grad ;;
_ <- buffer (Mtcap s) grad ;;
_ <- buffer (Vtcap s) grad ;;
_ <- receiver update grad ;;
let mt :=
  Apply (fun j o _ =>
           Beta1 s * At mt j o + (1 - Beta1 s) * gradientClipped s grad j o)
        grad in
let vt :=
  Apply (fun j o _ =>
           let gradjo := gradientClipped s grad j o in
           Beta2 s * At vt j o + (1 - Beta2 s) * gradjo * gradjo)
        grad in
let mtcap := Scale (1 / (1 - math_Pow (Beta1 s) (TimeStep s))) mt in
let vtcap := Scale (1 / (1 - math_Pow (Beta2 s) (TimeStep s))) vt in
let update :=
  Apply (fun i j Mtcapij =>
           - StepSize s * Mtcapij / (sqrt (At vtcap i j) + Epsilon s)) mtcap in
ret (set_Vtcap (set_Mtcap (set_Vt (set_Mt s (Some mt)) (Some vt))
       (Some mtcap)) (Some vtcap), update).

Definition updateSGD (s : SGDOptimizer) (eta : R) (update grad : Dense)
  : M (SGDOptimizer * Dense) :=
_ <- receiver update grad ;;
let update :=
  Apply (fun j o _ =>
           - eta * gradientClipped s grad j o / sqrt (1 * TimeStep s)) grad in
ret (s, update).

(** The block [if s.TimeStep == 0. { ... }] that opens [GetUpdate]. *)
Definition allocate (s : SGDOptimizer) (grad : Dense) : SGDOptimizer :=
let '(nFeatures, nOutputs) := Dims grad in
if Reqb (TimeStep s) 0 then lazyInit s nFeatures nOutputs else s.

(** The column norms of the gradient, when clipping is on. *)
Definition clipNorms (s : SGDOptimizer) (grad : Dense) : M SGDOptimizer :=
if Rltb 0 (GradientClipping s) then setGtNorm s grad else ret s.

(** The update of the active variant, before the momentum. *)
Definition variantUpdate (s : SGDOptimizer) (eta : R) (update grad : Dense)
  : M (SGDOptimizer * Dense) :=
if RMSProp s then updateRMSProp s update grad
else if Adagrad s then updateAdagrad s update grad
else if Adadelta s then updateAdadelta s eta update grad
else if Adam s then updateAdam s update grad
else updateSGD s eta update grad.

(** [GetUpdate]: the state after the call and the contents of [update]. *)
Definition GetUpdate (s : SGDOptimizer) (update grad : Dense)
  : M (SGDOptimizer * Dense) :=
let s := allocate s grad in
let s := set_TimeStep s (TimeStep s + 1) in
let eta := StepSize s * 100 / (100 + TimeStep s) in
s <- clipNorms s grad ;;
'(s, update) <- variantUpdate s eta update grad ;;
prev <- buffer (PrevUpdate s) grad ;;
let update :=
  if Rltb 0 (Momentum s)
  then Apply (fun j o updjo => Momentum s * At prev j o + updjo) update
  else update in
ret (set_PrevUpdate s (Some (Clone update)), update).

(** [UpdateParams]: [GetUpdate] on the buffer [s.Update], then
    [s.Theta.Add(s.Theta, s.Update)]. *)
Definition UpdateParams (s : SGDOptimizer) (grad : Dense) : M SGDOptimizer :=
let '(r, c) := Dims grad in
let s := match Update s with
         | None => set_Update s (Some (NewDense r c))
         | Some _ => s
         end in
match Update s with
| None => panic
| Some u =>
    '(s, u) <- GetUpdate s u grad ;;
    let s := set_Update s (Some u) in
    match Theta s with
    | None => panic
    | Some theta =>
        _ <- assert (sameDims theta u) ;;
        ret (set_Theta s (Some (Add theta u)))
    end
end.

(** A run of update calls, one per gradient. *)
Fixpoint updates (s : SGDOptimizer) (grads : list Dense) : M SGDOptimizer :=
match grads with
| [] => ret s
| grad :: grads' => s' <- UpdateParams s grad ;; updates s' grads'
end.

End base.

(** ** Package linearModel: the training loop *)

(** [int(x)]: truncation toward zero. *)
Definition int_of_float64 (x : R) : Z :=
if Rltb x 0 then (- Int_part (- x))%Z else Int_part x.

(** Go's [copy(dst, src)]: the first min(len dst, len src) elements of [dst]
    are overwritten. *)
Definition copy (dst src : list R) : list R :=
let n := Nat.min (List.length dst) (List.length src) in
firstn n src ++ skipn n dst.

Module linearModel.
Import mat.

(** The scalars of the training loop: the objective, the RMSE and the
    tolerance.  The loop starts them at [math.Inf(1)]. *)
Inductive float64 : Type :=
| Finite (x : R)
| PosInf
| NegInf
| NaN.

(** [a < b]. *)
Definition flt (a b : float64) : bool :=
match a, b with
| NaN, _ => false
| _, NaN => false
| Finite x, Finite y => Rltb x y
| Finite _, PosInf => true
| Finite _, NegInf => false
| PosInf, _ => false
| NegInf, NegInf => false
| NegInf, _ => true
end.

(** [math.Sqrt]. *)
Definition fsqrt (a : float64) : float64 :=
match a with
| Finite x => if Rltb x 0 then NaN else Finite (sqrt x)
| PosInf => PosInf
| NegInf => NaN
| NaN => NaN
end.

(** [optimize.Status]: only [Failure] is told apart by the fit. *)
Inductive Status : Type :=
| NotTerminated
| Success
| FunctionThreshold
| FunctionConvergence
| GradientThreshold
| StepConvergence
| FunctionNegativeInfinity
| MethodConverge
| Failure
| IterationLimit
| RuntimeLimit
| FunctionEvaluationLimit
| GradientEvaluationLimit
| HessianEvaluationLimit.

Definition isFailure (s : Status) : bool :=
match s with
| Failure => true
| _ => false
end.

(** [optimize.Result]. *)
Record Result : Type := mkResult {
  res_X : list R;
  res_F : R;
  res_FuncEvaluations : Z;
  res_Status : Status
}.

(** [optimize.Problem]. *)
Record Problem : Type := mkProblem {
  Func : list R -> float64;
  Grad : list R -> list R
}.

(** [optimize.Settings], the fields that [LinFitGOM] sets. *)
Record Settings : Type := mkSettings {
  set_GradientThreshold : R;
  set_FuncEvaluations : Z;
  set_FunctionThreshold : float64;
  set_Concurrent : Z
}.

(** What a loss function leaves behind: the value it returns and the
    buffers it fills. *)
Record LossOut : Type := mkLossOut {
  lossJ : float64;
  lossYpred : Dense;
  lossYdiff : Dense;
  lossGrad : Dense
}.

(** [LinFitResult]. *)
Record LinFitResult : Type := mkLinFitResult {
  Converged : bool;
  RMSE : float64;
  J : float64;
  Epoch : Z;
  Theta : Dense
}.

(** [m.Slice(i, k, j, l)] on Go integers: rows i..k-1 and columns j..l-1;
    a window that is empty or leaves the matrix panics. *)
Definition slice (m : Dense) (i k j l : Z) : M Dense :=
_ <- assert ((0 <=? i)%Z && (i <? Z.of_nat (rows m))%Z
             && (i <? k)%Z && (k <=? Z.of_nat (rows m))%Z
             && (0 <=? j)%Z && (j <? Z.of_nat (cols m))%Z
             && (j <? l)%Z && (l <=? Z.of_nat (cols m))%Z) ;;
ret (Slice m (Z.to_nat i) (Z.to_nat k) (Z.to_nat j) (Z.to_nat l)).

(** The default mini-batch size and its clamp to [1, nSamples]. *)
Definition miniBatchSizeOf (optMiniBatchSize : Z) (nSamples : nat) : Z :=
let miniBatchSize :=
  if (0 <? optMiniBatchSize)%Z then optMiniBatchSize
  else int_of_float64 (Rmax 1 (Rmin 100 (sqrt (INR nSamples)))) in
int_of_float64 (Rmax 1 (Rmin (INR nSamples) (IZR miniBatchSize))).

(** The epoch budget: [opts.Epochs = 1e6 / nSamples] when unset, an integer
    division. *)
Definition epochsOf (optEpochs : Z) (nSamples : nat) : M Z :=
if (optEpochs <=? 0)%Z
then (if Nat.eqb nSamples 0 then panic
      else ret (Z.quot 1000000 (Z.of_nat nSamples)))
else ret optEpochs.

(** The type [Loss]: Ytrue, X, Theta, whether a gradient buffer is passed,
    Alpha, L1Ratio, nSamples, activation. *)
Definition Loss (Activation : Type) : Type :=
Dense -> Dense -> Dense -> bool -> R -> R -> nat -> Activation -> LossOut.

(** The collaborators of the fit, which live outside these files. *)
Record Collaborators : Type := mkCollaborators {
  (* the state of the global source of package math/rand *)
  Rand : Type;
  (* rand.Float64 and rand.NormFloat64 *)
  Float64 : Rand -> R * Rand;
  NormFloat64 : Rand -> R * Rand;
  (* base.MatShuffle(X, Y): a joint permutation of the rows, in place *)
  MatShuffle : Rand -> Dense -> Dense -> Rand * Dense * Dense;
  (* base.Activation, with base.Identity{} *)
  Activation : Type;
  Identity : Activation;
  (* metrics.MeanSquaredError(Ytrue, Ypred, nil, "") *)
  MeanSquaredError : Dense -> Dense -> Dense;
  (* base.Optimizer: the solver holds a pointer to Theta, and UpdateParams
     writes through it: solver, Theta, gradient *)
  Optimizer : Type;
  SetTheta : Optimizer -> Dense -> Optimizer;
  UpdateParams : Optimizer -> Dense -> Dense -> Optimizer * Dense;
  (* optimize.Method, with &optimize.LBFGS{}, and optimize.Local: the result
     (nil or not), whether the error is non-nil, and the location of the
     last evaluation of the problem that the run made *)
  Method : Type;
  LBFGS : Method;
  Local : Problem -> list R -> Settings -> Method -> option Result * bool * list R;
  (* runtime.NumCPU() *)
  NumCPU : Z;
  SquareLoss : Loss Activation
}.

Section Fit.

Variable E : Collaborators.

(** [LinFitOptions] (the recorder, which only observes, is left out). *)
Record LinFitOptions : Type := mkLinFitOptions {
  Epochs : Z;
  MiniBatchSize : Z;
  Tol : float64;
  Solver : option (Optimizer E);
  Alpha : R;
  L1Ratio : R;
  opt_Loss : option (Loss (Activation E));
  opt_Activation : option (Activation E);
  GOMethodCreator : option (unit -> Method E);
  ThetaInitializer : option (Dense -> Dense);
  PerOutputFit : bool
}.

Definition lossOf (opts : LinFitOptions) : Loss (Activation E) :=
match opt_Loss opts with
| Some l => l
| None => SquareLoss E
end.

Definition activationOf (opts : LinFitOptions) : Activation E :=
match opt_Activation opts with
| Some a => a
| None => Identity E
end.

(** [n] draws of a generator, in order. *)
Fixpoint draws (gen : Rand E -> R * Rand E) (n : nat) (g : Rand E)
  : list R * Rand E :=
match n with
| O => ([], g)
| S n' =>
    let '(x, g) := gen g in
    let '(l, g) := draws gen n' g in
    (x :: l, g)
end.

(** *** LinFit *)

(** The variables of [LinFit] that the epochs change. *)
Record loopState : Type := mkLoopState {
  st_rand : Rand E;
  st_X : Dense;
  st_Ytrue : Dense;
  st_solver : Optimizer E;
  st_Theta : Dense;           (* Theta, a view on thetaSlice *)
  thetaSliceBest : list R;
  st_grad : Dense;
  st_J : float64;
  st_JBest : float64;
  st_rmse : float64;
  st_converged : bool
}.

Section Loop.

Variable opts : LinFitOptions.
Variable nSamples nFeatures nOutputs : nat.
Variable miniBatchSize : Z.

(** The buffers of the predictions and of the residuals of a mini-batch,
    of which the loss is handed the first rows. *)
Definition YpredMini : Dense := NewDense (Z.to_nat miniBatchSize) nOutputs.

Definition YdiffMini : Dense := NewDense (Z.to_nat miniBatchSize) nOutputs.

(** One mini-batch: the loss fills [grad], the solver updates Theta.  The
    windows on Ytrue, X and the two buffers are taken with [Slice], which
    panics on a window that is empty or leaves the matrix. *)
Definition miniBatchStep (st : loopState) (miniBatch : Z) : M loopState :=
let miniBatchStart := (miniBatch * miniBatchSize)%Z in
let miniBatchEnd := (miniBatchStart + miniBatchSize)%Z in
let miniBatchEnd :=
  if (Z.of_nat nSamples <? miniBatchEnd)%Z then Z.of_nat nSamples
  else miniBatchEnd in
let miniBatchRows := (miniBatchEnd - miniBatchStart)%Z in
Ys <- slice (st_Ytrue st) miniBatchStart miniBatchEnd 0 (Z.of_nat nOutputs) ;;
Xs <- slice (st_X st) miniBatchStart miniBatchEnd 0 (Z.of_nat nFeatures) ;;
_ <- slice YpredMini 0 miniBatchRows 0 (Z.of_nat nOutputs) ;;
_ <- slice YdiffMini 0 miniBatchRows 0 (Z.of_nat nOutputs) ;;
let out :=
  lossOf opts Ys Xs
    (st_Theta st) true (Alpha opts) (L1Ratio opts) nSamples (activationOf opts) in
let '(s, theta) := UpdateParams E (st_solver st) (st_Theta st) (lossGrad out) in
ret (mkLoopState (st_rand st) (st_X st) (st_Ytrue st) s theta (thetaSliceBest st)
       (lossGrad out) (lossJ out) (st_JBest st) (st_rmse st) (st_converged st)).

(** [for miniBatch := 0; miniBatch*miniBatchSize < nSamples; miniBatch++]. *)
Fixpoint miniBatches (fuel : nat) (miniBatch : Z) (st : loopState) : M loopState :=
match fuel with
| O => ret st
| S fuel' =>
    if (miniBatch * miniBatchSize <? Z.of_nat nSamples)%Z
    then st <- miniBatchStep st miniBatch ;;
         miniBatches fuel' (miniBatch + 1)%Z st
    else ret st
end.

(** The evaluation of the loss on the full dataset. *)
Definition fullDataset (st : loopState) : LossOut :=
lossOf opts (st_Ytrue st) (st_X st) (st_Theta st) true
  (Alpha opts) (L1Ratio opts) nSamples (activationOf opts).

(** The body of the loop over the epochs. *)
Definition runEpoch (st : loopState) : M loopState :=
let '(g, X, Ytrue) := MatShuffle E (st_rand st) (st_X st) (st_Ytrue st) in
let st := mkLoopState g X Ytrue (st_solver st) (st_Theta st) (thetaSliceBest st)
            (st_grad st) (st_J st) (st_JBest st) (st_rmse st) (st_converged st) in
st <- miniBatches nSamples 0%Z st ;;
let out := fullDataset st in
let J := lossJ out in
let improved := flt J (st_JBest st) in
let JBest := if improved then J else st_JBest st in
let best := if improved then copy (thetaSliceBest st) (data (st_Theta st))
            else thetaSliceBest st in
let rmse :=
  fsqrt (Finite (At (MeanSquaredError E (st_Ytrue st) (lossYpred out)) 0 0)) in
let converged := flt (fsqrt rmse) (Tol opts) in
ret (mkLoopState (st_rand st) (st_X st) (st_Ytrue st) (st_solver st) (st_Theta st)
       best (lossGrad out) J JBest rmse converged).

(** [for epoch = 1; epoch <= opts.Epochs && !converged; epoch++]. *)
Fixpoint epochLoop (epochs : Z) (fuel : nat) (epoch : Z) (st : loopState)
  : M (Z * loopState) :=
match fuel with
| O => ret (epoch, st)
| S fuel' =>
    if (epoch <=? epochs)%Z && negb (st_converged st)
    then st <- runEpoch st ;;
         epochLoop epochs fuel' (epoch + 1)%Z st
    else ret (epoch, st)
end.

End Loop.

(** [LinFitGOM]: the fit through [optimize.Local]. *)
Definition fSettings (opts : LinFitOptions) (epochs : Z) : Settings :=
mkSettings (1 / 1000000000000) epochs
  (match Tol opts with
   | Finite t => Finite (t * t)
   | NaN => NaN
   | _ => PosInf
   end)
  (NumCPU E).

(** The goroutine [fitOutput(o, chanret)]: what it sends. *)
Definition fitOutput (opts : LinFitOptions) (X Ytrue thetaM : Dense)
  (epochs : Z) (create : unit -> Method E) (o : nat)
  : nat * (option Result * bool * list R) :=
let nSamples := rows X in
let nFeatures := cols X in
let Ycol := tabulate nSamples 1 (fun i _ => At Ytrue i o) in
let p :=
  mkProblem
    (fun thetao =>
       lossJ (lossOf opts Ycol X (mkDense nFeatures 1 thetao) false
                (Alpha opts) (L1Ratio opts) nSamples (activationOf opts)))
    (fun thetao =>
       data (lossGrad (lossOf opts Ycol X (mkDense nFeatures 1 thetao) true
                (Alpha opts) (L1Ratio opts) nSamples (activationOf opts)))) in
let thetao := Col o thetaM in
(o, Local E p thetao (fSettings opts epochs) (create tt)).

(** One pass of the loop that receives from the channel. *)
Definition receive (acc : M (Dense * R * Z * bool))
  (foret : nat * (option Result * bool * list R)) : M (Dense * R * Z * bool) :=
'(thetaM, rmse, epoch, converged) <- acc ;;
match fst (fst (snd foret)) with
| None => panic
| Some r =>
    ret (SetCol thetaM (fst foret) (res_X r),
         rmse + res_F r,
         (epoch + res_FuncEvaluations r)%Z,
         converged && negb (isFailure (res_Status r)))
end.

(** [order] is the order in which the results of the columns arrive on the
    channel: the goroutines are started for the columns 0, ..., nOutputs-1,
    and the scheduler decides which one sends first. *)
Definition LinFitGOM (g : Rand E) (order : list nat) (X Ytrue : Dense)
  (opts : LinFitOptions) : M LinFitResult :=
let nSamples := rows X in
let nFeatures := cols X in
let nOutputs := cols Ytrue in
match GOMethodCreator opts with
| None => panic
| Some create =>
    epochs <- (if (Epochs opts <=? 0)%Z
               then (if Nat.eqb nSamples 0 then panic
                     else ret (Z.quot 4000000 (Z.of_nat nSamples)))
               else ret (Epochs opts)) ;;
    let '(theta, g) := draws (NormFloat64 E) (nFeatures * nOutputs) g in
    let theta := map (fun x => 1 / 100 * x) theta in
    let thetaM := mkDense nFeatures nOutputs theta in
    (* var err error: the variable that the last assignment reads; err is
       true when the error is non-nil *)
    let err := false in
    if PerOutputFit opts then
      let sent := map (fitOutput opts X Ytrue thetaM epochs create) order in
      '(thetaM, rmse, epoch, converged) <-
        fold_left receive sent (ret (thetaM, 0, 0%Z, true)) ;;
      let rmse := sqrt rmse / INR nOutputs in
      let converged := negb err in
      ret (mkLinFitResult converged (Finite rmse) (Finite 0) epoch thetaM)
    else
      let p :=
        mkProblem
          (fun theta =>
             lossJ (lossOf opts Ytrue X (mkDense nFeatures nOutputs theta) false
                      (Alpha opts) (L1Ratio opts) nSamples (activationOf opts)))
          (fun theta =>
             data (lossGrad (lossOf opts Ytrue X (mkDense nFeatures nOutputs theta)
                      true (Alpha opts) (L1Ratio opts) nSamples (activationOf opts)))) in
      let '(r, err, last) := Local E p theta (fSettings opts epochs) (create tt) in
      match r with
      | None => panic
      | Some r =>
          let theta := copy theta (res_X r) in
          let thetaM := mkDense nFeatures nOutputs theta in
          (* Ydiff holds the residuals of the last evaluation *)
          let Ydiff :=
            lossYdiff (lossOf opts Ytrue X (mkDense nFeatures nOutputs last)
                         false (Alpha opts) (L1Ratio opts) nSamples
                         (activationOf opts)) in
          let rmse := sqrt (fold_right Rplus 0 (map (fun v => v * v) (data Ydiff)))
                      / INR nOutputs in
          let epoch := res_FuncEvaluations r in
          let converged := negb (isFailure (res_Status r)) in
          let converged := negb err in
          ret (mkLinFitResult converged (Finite rmse) (Finite 0) epoch thetaM)
      end
end.

(** The state of [LinFit] when the loop over the epochs starts. *)
Definition startState (g : Rand E) (X Ytrue : Dense) (opts : LinFitOptions)
  (s : Optimizer E) : loopState :=
let nFeatures := cols X in
let nOutputs := cols Ytrue in
let thetaSlice := repeat 0 (nFeatures * nOutputs) in
let best := repeat 0 (nFeatures * nOutputs) in
let Theta := mkDense nFeatures nOutputs thetaSlice in
let grad := NewDense nFeatures nOutputs in
let '(Theta, g) :=
  match ThetaInitializer opts with
  | Some init => (init Theta, g)
  | None =>
      let '(l, g) := draws (Float64 E) (nFeatures * nOutputs) g in
      (mkDense nFeatures nOutputs (map (fun x => 1 / 100 * x) l), g)
  end in
let s := SetTheta E s Theta in
let rmse := PosInf in
let J := PosInf in
let JBest := PosInf in
let converged := false in
mkLoopState g X Ytrue s Theta best grad J JBest rmse converged.

(** [LinFit]. *)
Definition LinFit (g : Rand E) (order : list nat) (X Ytrue : Dense)
  (opts : LinFitOptions) : M LinFitResult :=
let nSamples := rows X in
let nFeatures := cols X in
let nOutputs := cols Ytrue in
let opts :=
  match GOMethodCreator opts, Solver opts with
  | None, None =>
      mkLinFitOptions (Epochs opts) (MiniBatchSize opts) (Tol opts) (Solver opts)
        (Alpha opts) (L1Ratio opts) (opt_Loss opts) (opt_Activation opts)
        (Some (fun _ => LBFGS E)) (ThetaInitializer opts) (PerOutputFit opts)
  | _, _ => opts
  end in
match GOMethodCreator opts, Solver opts with
| Some _, _ =>
    LinFitGOM g order X Ytrue
      (mkLinFitOptions (Epochs opts) (MiniBatchSize opts) (Tol opts) (Solver opts)
         (Alpha opts) (L1Ratio opts) (opt_Loss opts) (opt_Activation opts)
         (GOMethodCreator opts) (ThetaInitializer opts) true)
| None, None => panic
| None, Some s =>
    let miniBatchSize := miniBatchSizeOf (MiniBatchSize opts) nSamples in
    let st := startState g X Ytrue opts s in
    epochs <- epochsOf (Epochs opts) nSamples ;;
    '(epoch, st) <-
      epochLoop opts nSamples nFeatures nOutputs miniBatchSize epochs
        (Z.to_nat epochs) 1%Z st ;;
    let J := st_JBest st in
    Theta <- NewDenseOf nFeatures nOutputs (thetaSliceBest st) ;;
    ret (mkLinFitResult (st_converged st) (st_rmse st) J epoch Theta)
end.

End Fit.

End linearModel.

(** ** Package datasets: MakeRegression *)

Module datasets.
Import mat.

Section MakeRegression.

(** [*rand.Rand], and the state of the global source; [NormFloat64] draws
    one value. *)
Variable Rand : Type.
Variable NormFloat64 : Rand -> R * Rand.

(** The values of [map[string]interface{}] that the function tells apart. *)
Inductive value : Type :=
| VInt (n : Z)
| VFloat64 (x : R)
| VFloats (l : list R)
| VMatrix (m : Dense)
| VBool (b : bool)
| VRand (r : Rand)
| VString (s : string).

Definition kwargs : Type := list (string * value).

Fixpoint lookup (kw : kwargs) (k : string) : option value :=
match kw with
| [] => None
| (k', v) :: kw' => if String.eqb k k' then Some v else lookup kw' k
end.

(** [if v, ok := kwargs[k]; ok { n = v.(int) }]: the assertion panics on a
    value of another type. *)
Definition intArg (kw : kwargs) (k : string) (default : Z) : M Z :=
match lookup kw k with
| None => ret default
| Some (VInt n) => ret n
| Some _ => panic
end.

(** [mat.NewDense(r, c, nil)] on Go integers: a negative dimension panics. *)
Definition newDense (r c : Z) : M Dense :=
_ <- assert ((0 <=? r)%Z && (0 <=? c)%Z) ;;
ret (NewDense (Z.to_nat r) (Z.to_nat c)).

(** The loops that fill a matrix with [rnd()], row by row. *)
Fixpoint fillRow (rnd : Rand -> M (R * Rand)) (c : nat) (g : Rand)
  : M (list R * Rand) :=
match c with
| O => ret ([], g)
| S c' =>
    '(x, g) <- rnd g ;;
    '(l, g) <- fillRow rnd c' g ;;
    ret (x :: l, g)
end.

Fixpoint fillRows (rnd : Rand -> M (R * Rand)) (r c : nat) (g : Rand)
  : M (list R * Rand) :=
match r with
| O => ret ([], g)
| S r' =>
    '(row, g) <- fillRow rnd c g ;;
    '(l, g) <- fillRows rnd r' c g ;;
    ret (row ++ l, g)
end.

Definition fill (rnd : Rand -> M (R * Rand)) (m : Dense) (g : Rand)
  : M (Dense * Rand) :=
'(l, g) <- fillRows rnd (rows m) (cols m) g ;;
ret (mkDense (rows m) (cols m) l, g).

(** [sort.Float64s]. *)
Fixpoint insertSorted (x : R) (l : list R) : list R :=
match l with
| [] => [x]
| y :: l' => if Rltb y x then y :: insertSorted x l' else x :: l
end.

Definition Float64s (l : list R) : list R := fold_right insertSorted [] l.

Definition sortColumns (X : Dense) : Dense :=
fold_left (fun X feat => SetCol X feat (Float64s (Col feat X)))
  (seq 0 (cols X)) X.

(** [chkdims(".", R, X, Y)] of package linearModel, which
    [base.MatDimsCheck] is taken to agree with. *)
Definition chkdims_dot (R0 X Y : Dense) : M unit :=
assert (negb (negb (Nat.eqb (cols X) (rows Y))
              || negb (Nat.eqb (rows R0) (rows X))
              || negb (Nat.eqb (cols R0) (cols Y)))).

(** [X.Slice(0, k, 0, l)]: an empty window, or one outside the matrix,
    panics. *)
Definition slice0 (X : Dense) (k l : Z) : M Dense :=
_ <- assert ((0 <? k)%Z && (k <=? Z.of_nat (rows X))%Z
             && (0 <? l)%Z && (l <=? Z.of_nat (cols X))%Z) ;;
ret (Slice X 0 (Z.to_nat k) 0 (Z.to_nat l)).

(** The bias that is added to column [yj], by the dynamic type of the
    argument. *)
Definition biasAt (v : value) (yj : nat) : M R :=
match v with
| VFloat64 vv => ret vv
| VMatrix vv =>
    _ <- assert (Nat.ltb 0 (rows vv) && Nat.ltb yj (cols vv)) ;;
    ret (At vv 0 yj)
| VFloats vv =>
    _ <- assert (Nat.ltb yj (List.length vv)) ;;
    ret (nth yj vv 0)
| _ => ret 0
end.

(** The loops [ymat.Data[yi+yj] += ...]. *)
Fixpoint biases (v : value) (cols : list nat) : M (list R) :=
match cols with
| [] => ret []
| yj :: cols' =>
    x <- biasAt v yj ;;
    l <- biases v cols' ;;
    ret (x :: l)
end.

Definition addBias (y : Dense) (v : value) : M Dense :=
if IsEmpty y then ret y
else
  b <- biases v (seq 0 (cols y)) ;;
  ret (tabulate (rows y) (cols y) (fun yi yj => At y yi yj + nth yj b 0)).

Definition MakeRegression (global : Rand) (kw : kwargs)
  : M (Dense * Dense * Dense) :=
let Shuffle := true in
nSamples <- intArg kw "n_samples" 100%Z ;;
nFeatures <- intArg kw "n_features" 100%Z ;;
nInformative <- intArg kw "n_informative" 10%Z ;;
nTargets <- intArg kw "n_targets" 1%Z ;;
let rnd : Rand -> M (R * Rand) :=
  match lookup kw "random_state" with
  | None => fun g => ret (NormFloat64 g)
  | Some (VRand _) => fun g => ret (NormFloat64 g)
  | Some _ => fun _ => panic
  end in
let source :=
  match lookup kw "random_state" with
  | Some (VRand r) => r
  | _ => global
  end in
X <- newDense nSamples nFeatures ;;
let X := if negb Shuffle then sortColumns X else X in
y <- newDense nSamples nTargets ;;
let nInformative :=
  if (nFeatures <? nInformative)%Z then nFeatures else nInformative in
Coef <- newDense nInformative nTargets ;;
'(X, source) <- fill rnd X source ;;
'(Coef, source) <- fill rnd Coef source ;;
Xs <- slice0 X nSamples nInformative ;;
_ <- chkdims_dot y Xs Coef ;;
let y := Mul Xs Coef in
y <- match lookup kw "bias" with
     | Some v => addBias y v
     | None => ret y
     end ;;
ret (X, y, Coef).

End MakeRegression.

End datasets.

(** ** Package base: SGDOptimizer as an optimize.Method *)

Module optimizeMethod.
Import mat base.

(** [optimize.Location], the fields that the method reads and writes; a nil
    slice is [None]. *)
Record Location : Type := mkLocation {
  loc_X : option (list R);
  loc_F : R;
  loc_Gradient : option (list R)
}.

Definition set_lastOp (s : SGDOptimizer) (v : Z) : SGDOptimizer :=
mkSGDOptimizer (StepSize s) (Momentum s) (GradientClipping s) (RMSPropGamma s)
  (Epsilon s) (Adagrad s) (Adadelta s) (RMSProp s) (Adam s) (NFeatures s)
  (NOutputs s) (GtNorm s) (Theta s) (PrevUpdate s) (Update s) (AdagradG s)
  (AdadeltaU s) (TimeStep s) (Beta1 s) (Beta2 s) (Mt s) (Vt s) (Mtcap s)
  (Vtcap s) v.

(** [len(loc.X)]. *)
Definition len (l : option (list R)) : nat :=
match l with
| Some d => List.length d
| None => 0
end.

(** [mat.NewDense(r, c, data)]: a zero matrix on a nil slice, a view on the
    slice otherwise. *)
Definition denseOver (r c : nat) (d : option (list R)) : M Dense :=
match d with
| None => ret (NewDense r c)
| Some l => NewDenseOf r c l
end.

Section Method.

(** The operations of package optimize that the method names; the zero
    value of [optimize.Operation] is [NoOperation]. *)
Variable FuncEvaluation GradEvaluation MajorIteration : Z.

Definition NoOperation : Z := 0%Z.

(** [Init]: the state, the operation and whether the error is non-nil. *)
Definition Init (s : SGDOptimizer) (loc : Location) : SGDOptimizer * Z * bool :=
if Nat.eqb (NFeatures s) 0 || Nat.eqb (NOutputs s) 0
then (set_shape s (len (loc_X loc)) (NOutputs s), NoOperation, false)
else
  let s := if Nat.eqb (len (loc_X loc)) (NFeatures s)
           then set_shape s (NFeatures s) 1 else s in
  if negb (Nat.eqb (len (loc_X loc)) (NFeatures s * NOutputs s))
  then (s, NoOperation, true)
  else (set_Update s (Some (NewDense (NFeatures s) (NOutputs s))),
        Z.lor FuncEvaluation GradEvaluation, false).

(** [Iterate]: the state, the location, whose [X] is written in place, and
    the operation (the error is always nil). *)
Definition Iterate (s : SGDOptimizer) (loc : Location)
  : M (SGDOptimizer * Location * Z) :=
theta <- denseOver (NFeatures s) (NOutputs s) (loc_X loc) ;;
grad <- denseOver (NFeatures s) (NOutputs s) (loc_Gradient loc) ;;
match Update s with
| None => panic
| Some u =>
    '(s, u) <- GetUpdate s u grad ;;
    let s := set_Update s (Some u) in
    _ <- assert (sameDims theta u) ;;
    let theta := Add theta u in
    let op := if Z.eqb (lastOp s) (Z.lor FuncEvaluation GradEvaluation)
              then MajorIteration
              else Z.lor FuncEvaluation GradEvaluation in
    let X := match loc_X loc with
             | Some _ => Some (data theta)
             | None => None
             end in
    ret (set_lastOp s op, mkLocation X (loc_F loc) (loc_Gradient loc), op)
end.

(** [Needs]: the gradient, not the Hessian. *)
Definition Needs : bool * bool := (true, false).

(** A run of [Iterate] calls, on the gradients that the driver stores in
    the location before each call; the operations come out in order. *)
Fixpoint iterates (s : SGDOptimizer) (loc : Location)
  (grads : list (option (list R))) : M (SGDOptimizer * Location * list Z) :=
match grads with
| [] => ret (s, loc, [])
| g :: grads' =>
    '(s, loc, op) <- Iterate s (mkLocation (loc_X loc) (loc_F loc) g) ;;
    '(s, loc, ops) <- iterates s loc grads' ;;
    ret (s, loc, op :: ops)
end.

End Method.

End optimizeMethod.

(** ** Package linearModel: LinearModel *)

Module linearModelPredict.
Import mat.

(** [LinearModel]; a nil matrix is [None]. *)
Record LinearModel : Type := mkLinearModel {
  FitIntercept : bool;
  Normalize : bool;
  XOffset : option Dense;
  XScale : option Dense;
  Coef : option Dense;
  Intercept : option Dense
}.

(** [chkdims(op, R, X, Y)]: a panic when the shapes do not fit the
    operator. *)
Definition chkdims (op : string) (R0 X Y : Dense) : M unit :=
let '(rx, cx) := Dims X in
let '(ry, cy) := Dims Y in
let '(rr, cr) := Dims R0 in
if String.eqb op "+" || String.eqb op "-" || String.eqb op "*"
   || String.eqb op "/"
then assert (negb (negb (Nat.eqb rx ry) || negb (Nat.eqb cx cy)
                   || negb (Nat.eqb rr rx) || negb (Nat.eqb cr cx)))
else if String.eqb op "."
then assert (negb (negb (Nat.eqb cx ry) || negb (Nat.eqb rr rx)
                   || negb (Nat.eqb cr cy)))
else ret tt.

(** [m.Sub(a, b)], for operands of one shape. *)
Definition Sub (a b : Dense) : Dense :=
tabulate (rows a) (cols a) (fun i j => At a i j - At b i j).

(** The receiver of [m.Mul(a, b)] and of [m.Sub(a, b)]: empty, or of the
    shape of the result. *)
Definition reuseAs (m : Dense) (r c : nat) : M unit :=
assert (IsEmpty m || (Nat.eqb (rows m) r && Nat.eqb (cols m) c)).

(** [setIntercept]: Coef is divided by the scale of its feature, and with
    [FitIntercept] the intercept becomes YOffset - XOffset . Coef. *)
Definition setIntercept (regr : LinearModel) (XOffset0 YOffset XScale0 : Dense)
  : M LinearModel :=
match Coef regr with
| None => panic
| Some coef =>
    let nOutputs := cols coef in
    let intercept := match Intercept regr with
                     | None => NewDense 1 nOutputs
                     | Some m => m
                     end in
    (* XScale.At(0, j), for every row j of a Coef that has entries *)
    _ <- assert (IsEmpty coef
                 || (Nat.ltb 0 (rows XScale0)
                     && Nat.leb (rows coef) (cols XScale0))) ;;
    let coef := Apply (fun j o c => c / At XScale0 0 j) coef in
    if FitIntercept regr then
      _ <- assert (Nat.eqb (cols XOffset0) (rows coef)) ;;
      _ <- reuseAs intercept (rows XOffset0) (cols coef) ;;
      let intercept := Mul XOffset0 coef in
      _ <- assert (sameDims YOffset intercept) ;;
      let intercept := Sub YOffset intercept in
      ret (mkLinearModel (FitIntercept regr) (Normalize regr) (XOffset regr)
             (XScale regr) (Some coef) (Some intercept))
    else
      ret (mkLinearModel (FitIntercept regr) (Normalize regr) (XOffset regr)
             (XScale regr) (Some coef) (Some intercept))
end.

(** [DecisionFunction]: Y is filled with X . Coef + Intercept. *)
Definition DecisionFunction (regr : LinearModel) (X Y : Dense) : M Dense :=
match Coef regr with
| None => panic
| Some coef =>
    _ <- chkdims "." Y X coef ;;
    let Y := Mul X coef in
    match Intercept regr with
    | None => if IsEmpty Y then ret (Apply (fun j o v => v) Y) else panic
    | Some intercept =>
        (* regr.Intercept.At(0, o), for every column o of a Y that has
           entries *)
        _ <- assert (IsEmpty Y
                     || (Nat.ltb 0 (rows intercept)
                         && Nat.leb (cols Y) (cols intercept))) ;;
        ret (Apply (fun j o v => v + At intercept 0 o) Y)
    end
end.

End linearModelPredict.

(** ** Package linearModel: SGDRegressor, the objective and its gradient *)

Module sgdRegressor.
Import mat linearModelPredict.

(** [SGDRegressor] (the method, which the closures do not read, is left
    out). *)
Record SGDRegressor : Type := mkSGDRegressor {
  model : LinearModel;
  Tol : R;
  Alpha : R;
  L1Ratio : R;
  NJobs : Z
}.

Definition NewSGDRegressor : SGDRegressor :=
mkSGDRegressor (mkLinearModel true false None None None None)
  (1 / 10000) (1 / 10000) (15 / 100) 1.

Definition set_Coef (regr : SGDRegressor) (coef : Dense) : SGDRegressor :=
mkSGDRegressor
  (mkLinearModel (FitIntercept (model regr)) (Normalize (model regr))
     (XOffset (model regr)) (XScale (model regr)) (Some coef)
     (Intercept (model regr)))
  (Tol regr) (Alpha regr) (L1Ratio regr) (NJobs regr).

(** [m.ColView(j)]: column [j] as a matrix of one column. *)
Definition ColView (m : Dense) (j : nat) : Dense :=
tabulate (rows m) 1 (fun i _ => At m i j).

(** [m.T()]. *)
Definition T (m : Dense) : Dense :=
tabulate (cols m) (rows m) (fun i j => At m j i).

(** [m.MulElem(a, b)], for operands of one shape. *)
Definition MulElem (a b : Dense) : Dense :=
tabulate (rows a) (cols a) (fun i j => At a i j * At b i j).

(** [mat.Sum(m)]. *)
Definition Sum (m : Dense) : R := fold_right Rplus 0 (data m).

Definition sgn (x : R) : R :=
if Rltb x 0 then -1 else if Rltb 0 x then 1 else 0.

(** [regr.Coef.SetCol(o, coef)], then the residuals
    [X . Coef[:, o] - Y[:, o]]: the state and the residuals. *)
Definition residuals (regr : SGDRegressor) (X Y : Dense) (coefSlice : list R)
  (o : nat) : M (SGDRegressor * Dense * Dense) :=
match Coef (model regr) with
| None => panic
| Some coef =>
    _ <- assert (Nat.ltb o (cols coef)
                 && Nat.eqb (List.length coefSlice) (rows coef)) ;;
    let coef := SetCol coef o coefSlice in
    _ <- assert (Nat.eqb (cols X) (rows coef)) ;;
    let tmp := Mul X (ColView coef o) in
    _ <- assert (Nat.ltb o (cols Y) && Nat.eqb (rows tmp) (rows Y)) ;;
    let tmp := Sub tmp (ColView Y o) in
    ret (set_Coef regr coef, coef, tmp)
end.

(** The closure [loss] of [Fit], on the copies X and Y of the data. *)
Definition loss (regr : SGDRegressor) (X Y : Dense) (coefSlice : list R)
  (o : nat) : M (SGDRegressor * R) :=
let nSamples := rows X in
let nFeatures := cols X in
'(regr, coef, tmp) <- residuals regr X Y coefSlice o ;;
let tmp := MulElem tmp tmp in
let e := Sum tmp / 2 / INR nSamples in
let '(L1, L2) :=
  if Rltb 0 (Alpha regr) then
    let alphaL1 := Alpha regr * L1Ratio regr / 2 / INR nSamples in
    let alphaL2 := Alpha regr * (1 - L1Ratio regr) / 2 / INR nSamples in
    fold_left (fun '(L1, L2) j =>
                 let c := At coef j o in
                 (L1 + alphaL1 * Rabs c, L2 + alphaL2 * c * c))
      (seq 0 nFeatures) (0, 0)
  else (0, 0) in
ret (regr, e + L1 + L2).

(** The closure [p.Grad] of [Fit]: the state and the slice [grad], whose
    first nFeatures entries are written. *)
Definition Grad (regr : SGDRegressor) (X Y : Dense) (grad coefSlice : list R)
  (o : nat) : M (SGDRegressor * list R) :=
let nSamples := rows X in
let nFeatures := cols X in
'(regr, coef, tmp) <- residuals regr X Y coefSlice o ;;
let gradmat := NewDense nFeatures 1 in
_ <- chkdims "." gradmat (T X) tmp ;;
let gradmat := Mul (T X) tmp in
let al1 := Alpha regr * L1Ratio regr / INR nSamples in
let al2 := Alpha regr * (1 - L1Ratio regr) / INR nSamples in
_ <- assert (Nat.leb (rows gradmat) (List.length grad)) ;;
ret (regr,
     map (fun j => let gradj := At gradmat j 0 in
                   gradj + al1 * sgn gradj + al2 * gradj)
       (seq 0 (rows gradmat))
     ++ skipn (rows gradmat) grad).

End sgdRegressor.

(** * Properties *)

(** ** Comparisons and the error monad *)

Lemma Rltb_true (a b : R) : a < b -> Rltb a b = true.
Proof. intros H. unfold Rltb. destruct (Rlt_dec a b); [reflexivity | contradiction]. Qed.

Lemma Rltb_false (a b : R) : b <= a -> Rltb a b = false.
Proof. intros H. unfold Rltb. destruct (Rlt_dec a b); [lra | reflexivity]. Qed.

Lemma Rltb_spec (a b : R) : Rltb a b = true <-> a < b.
Proof.
unfold Rltb. destruct (Rlt_dec a b); split; intros H; try assumption;
  try reflexivity; try discriminate; contradiction.
Qed.

Lemma Rltb_spec_false (a b : R) : Rltb a b = false <-> b <= a.
Proof.
unfold Rltb. destruct (Rlt_dec a b); split; intros H; try reflexivity;
  try discriminate; lra.
Qed.

Lemma Reqb_refl (a : R) : Reqb a a = true.
Proof. unfold Reqb. destruct (Req_dec_T a a); [reflexivity | contradiction]. Qed.

Lemma Reqb_neq (a b : R) : a <> b -> Reqb a b = false.
Proof. intros H. unfold Reqb. destruct (Req_dec_T a b); [contradiction | reflexivity]. Qed.

Lemma bind_Some {A B} (m : M A) (k : A -> M B) (b : B) :
  bind m k = Some b -> exists a, m = Some a /\ k a = Some b.
Proof. destruct m as [a|]; simpl; intros H; [exists a; auto | discriminate]. Qed.

Lemma assert_Some (b : bool) (u : unit) : assert b = Some u -> b = true.
Proof. destruct b; simpl; [reflexivity | discriminate]. Qed.

Lemma assert_true (b : bool) : b = true -> assert b = Some tt.
Proof. intros ->. reflexivity. Qed.

(** Inversion of a successful run: every bind and guard on the way yields
    its value. *)
Ltac inv_bind H :=
  match type of H with
  | bind ?m ?k = Some _ =>
      let a := fresh "a" in
      let Ha := fresh "Ha" in
      let Hk := fresh "Hk" in
      destruct (bind_Some m k _ H) as [a [Ha Hk]]; clear H;
      cbv beta in Hk; rename Hk into H
  end.

(** ** Matrices *)

Module matFacts.
Import mat.

Lemma rows_tabulate r c f : rows (tabulate r c f) = r.
Proof. reflexivity. Qed.

Lemma cols_tabulate r c f : cols (tabulate r c f) = c.
Proof. reflexivity. Qed.

Lemma At_tabulate r c f i j :
  (i < r)%nat -> (j < c)%nat -> At (tabulate r c f) i j = f i j.
Proof.
intros Hi Hj. unfold At, tabulate. cbn [cols data].
assert (Hk : (i * c + j < r * c)%nat) by nia.
rewrite (nth_indep _ 0 (f (0 / c)%nat (0 mod c)%nat))
  by (rewrite length_map, length_seq; exact Hk).
rewrite (map_nth (fun k => f (k / c)%nat (k mod c)%nat)).
rewrite seq_nth by exact Hk. cbn [Nat.add].
assert (Hc : c <> 0%nat) by lia.
rewrite Nat.div_add_l by exact Hc.
rewrite Nat.div_small by exact Hj.
rewrite (Nat.add_comm (i * c) j), Nat.Div0.mod_add, Nat.mod_small by exact Hj.
now rewrite Nat.add_0_r.
Qed.

Lemma At_NewDense r c i j : At (NewDense r c) i j = 0.
Proof.
unfold At, NewDense. cbn [cols data].
destruct (Nat.lt_ge_cases (i * c + j) (r * c)) as [H | H].
- apply nth_repeat_lt. exact H.
- apply nth_overflow. rewrite repeat_length. exact H.
Qed.

Lemma sameDims_true a b :
  sameDims a b = true <-> rows a = rows b /\ cols a = cols b.
Proof.
unfold sameDims. rewrite andb_true_iff, !Nat.eqb_eq. tauto.
Qed.

Lemma sameDims_refl a : sameDims a a = true.
Proof. apply sameDims_true. auto. Qed.

Lemma At_Apply fn a i j :
  (i < rows a)%nat -> (j < cols a)%nat -> At (Apply fn a) i j = fn i j (At a i j).
Proof. intros Hi Hj. unfold Apply. now rewrite At_tabulate. Qed.

Lemma At_Set_ m i j v i' j' :
  (i' < rows m)%nat -> (j' < cols m)%nat ->
  At (Set_ m i j v) i' j' = if Nat.eqb i i' && Nat.eqb j j' then v else At m i' j'.
Proof. intros Hi Hj. unfold Set_. now rewrite At_tabulate. Qed.

Lemma At_Clone a i j : At (Clone a) i j = At a i j.
Proof. reflexivity. Qed.

End matFacts.

(** ** The update rules *)

Module baseFacts.
Import mat matFacts base.

(** *** Sums of squares *)

Lemma fold_sq_ext (f g : nat -> R) (l : list nat) (a : R) :
  (forall j, In j l -> f j = g j) ->
  fold_left (fun s j => s + f j * f j) l a
  = fold_left (fun s j => s + g j * g j) l a.
Proof.
revert a. induction l as [|x l IH]; intros a H; simpl; [reflexivity|].
rewrite (H x) by (left; reflexivity).
apply IH. intros j Hj. apply H. right. exact Hj.
Qed.

Lemma fold_sq_scale (f : nat -> R) (k : R) (l : list nat) (a : R) :
  fold_left (fun s j => s + (f j * k) * (f j * k)) l (a * (k * k))
  = fold_left (fun s j => s + f j * f j) l a * (k * k).
Proof.
revert a. induction l as [|x l IH]; intros a; simpl; [reflexivity|].
replace (a * (k * k) + f x * k * (f x * k)) with ((a + f x * f x) * (k * k)) by ring.
apply IH.
Qed.

Lemma fold_sq_nonneg (f : nat -> R) (l : list nat) (a : R) :
  0 <= a -> 0 <= fold_left (fun s j => s + f j * f j) l a.
Proof.
revert a. induction l as [|x l IH]; intros a Ha; simpl; [exact Ha|].
apply IH. nra.
Qed.

Lemma colNorm_eq (m : Dense) (o : nat) :
  colNorm m o
  = sqrt (fold_left (fun s j => s + At m j o * At m j o) (seq 0 (rows m)) 0).
Proof. reflexivity. Qed.

Lemma colNorm_nonneg (m : Dense) (o : nat) : 0 <= colNorm m o.
Proof. rewrite colNorm_eq. apply sqrt_pos. Qed.

(** The L2 norm of a vector, as the description has it: the square root of
    the sum of the squares of the entries. *)
Definition l2norm (l : list R) : R :=
  sqrt (fold_right Rplus 0 (map (fun v => v * v) l)).

(** Column [o] of the gradient. *)
Definition column (grad : Dense) (o : nat) : list R :=
  map (fun j => At grad j o) (seq 0 (rows grad)).

(** Column [o] of the clipped gradient: the values that the update of a
    variant reads through the closure, row by row. *)
Definition clippedColumn (s : SGDOptimizer) (grad : Dense) (o : nat) : list R :=
  map (fun j => gradientClipped s grad j o) (seq 0 (rows grad)).

Lemma fold_sq_sum (f : nat -> R) (l : list nat) (a : R) :
  fold_left (fun s j => s + f j * f j) l a
  = a + fold_right Rplus 0 (map (fun v => v * v) (map f l)).
Proof.
revert a. induction l as [|x l IH]; intros a; simpl; [ring |].
rewrite IH. ring.
Qed.

Lemma l2norm_map (f : nat -> R) (l : list nat) :
  l2norm (map f l) = sqrt (fold_left (fun s j => s + f j * f j) l 0).
Proof. unfold l2norm. rewrite fold_sq_sum. f_equal. ring. Qed.

(** The norm that the code computes is the L2 norm of the column. *)
Lemma colNorm_l2norm (m : Dense) (o : nat) : colNorm m o = l2norm (column m o).
Proof. unfold column. rewrite l2norm_map. apply colNorm_eq. Qed.

(** The norm of a vector scaled by a non-negative factor. *)
Lemma l2norm_scale (f : nat -> R) (k : R) (l : list nat) :
  0 <= k -> l2norm (map (fun j => f j * k) l) = l2norm (map f l) * k.
Proof.
intros Hk. rewrite !l2norm_map.
replace 0 with (0 * (k * k)) at 1 by ring.
rewrite fold_sq_scale, sqrt_mult.
- now rewrite sqrt_square by exact Hk.
- apply fold_sq_nonneg. lra.
- nra.
Qed.


(** *** The clipped gradient *)

Lemma set_GtNorm_twice s a b : set_GtNorm (set_GtNorm s a) b = set_GtNorm s b.
Proof. reflexivity. Qed.

Lemma set_GtNorm_same s : set_GtNorm s (GtNorm s) = s.
Proof. destruct s; reflexivity. Qed.

Lemma setGtNorm_None grad l : fold_left (setGtNorm1 grad) l None = None.
Proof. induction l as [|x l IH]; simpl; [reflexivity | exact IH]. Qed.

(** The loop over the columns leaves in [GtNorm] the norm of every column it
    visits, and touches nothing else. *)
Lemma setGtNorm_fold grad l :
  forall s s' g,
  fold_left (setGtNorm1 grad) l (Some s) = Some s' ->
  GtNorm s = Some g ->
  exists g',
    s' = set_GtNorm s (Some g') /\ rows g' = rows g /\ cols g' = cols g /\
    (forall o, In o l -> At g' o 0 = colNorm grad o) /\
    (forall o, (o < rows g)%nat -> ~ In o l -> At g' o 0 = At g o 0).
Proof.
induction l as [|x l IH]; intros s s' g H Hg.
- simpl in H. injection H as <-. exists g. rewrite <- Hg.
  repeat split; auto using set_GtNorm_same. intros o [].
- simpl in H. rewrite Hg in H.
  destruct (Nat.ltb x (rows g) && Nat.ltb 0 (cols g)) eqn:Hb; simpl in H;
    [| rewrite setGtNorm_None in H; discriminate].
  apply andb_true_iff in Hb. destruct Hb as [Hx Hc].
  apply Nat.ltb_lt in Hx. apply Nat.ltb_lt in Hc.
  destruct (IH _ _ (Set_ g x 0 (colNorm grad x)) H eq_refl)
    as [g' [Hs' [Hr [Hcl [Hin Hout]]]]].
  exists g'. rewrite set_GtNorm_twice in Hs'.
  unfold Set_ in Hr, Hcl. rewrite rows_tabulate in Hr. rewrite cols_tabulate in Hcl.
  repeat split; auto.
  + intros o [-> | Ho]; [| auto].
    destruct (in_dec Nat.eq_dec o l) as [Hi | Hi]; [auto|].
    rewrite Hout by (unfold Set_; rewrite ?rows_tabulate; auto).
    rewrite At_Set_ by assumption. now rewrite !Nat.eqb_refl.
  + intros o Ho Hni.
    rewrite Hout;
      [| unfold Set_; rewrite rows_tabulate; exact Ho
       | intro Hi; apply Hni; right; exact Hi].
    rewrite At_Set_ by assumption.
    destruct (Nat.eqb x o) eqn:E; [| reflexivity].
    apply Nat.eqb_eq in E. subst o. exfalso. apply Hni. left. reflexivity.
Qed.

Lemma setGtNorm_total grad l :
  forall s g,
  GtNorm s = Some g -> (forall o, In o l -> (o < rows g)%nat) -> (0 < cols g)%nat ->
  exists s', fold_left (setGtNorm1 grad) l (Some s) = Some s'.
Proof.
induction l as [|x l IH]; intros s g Hg Hl Hc.
- exists s. reflexivity.
- simpl. rewrite Hg.
  assert (Hx : (x < rows g)%nat) by (apply Hl; left; reflexivity).
  apply Nat.ltb_lt in Hx. apply Nat.ltb_lt in Hc. rewrite Hx, Hc. simpl.
  apply (IH _ (Set_ g x 0 (colNorm grad x))); [reflexivity | | ].
  + intros o Ho. unfold Set_. rewrite rows_tabulate. apply Hl. right. exact Ho.
  + unfold Set_. rewrite cols_tabulate. now apply Nat.ltb_lt.
Qed.

(** After [clipNorms], [GtNorm] holds the norm of every column. *)
Lemma clipNorms_GtNormAt s grad s' o :
  clipNorms s grad = Some s' -> 0 < GradientClipping s -> (o < cols grad)%nat ->
  GtNormAt s' o = colNorm grad o /\ GradientClipping s' = GradientClipping s.
Proof.
intros H Hc Ho. unfold clipNorms in H. rewrite Rltb_true in H by exact Hc.
unfold setGtNorm in H.
destruct (GtNorm s) as [g|] eqn:Hg.
- destruct (setGtNorm_fold _ _ _ _ _ H Hg) as [g' [-> [_ [_ [Hin _]]]]].
  split; [| reflexivity]. unfold GtNormAt. simpl. apply Hin.
  apply in_seq. lia.
- exfalso. destruct (cols grad) as [|n]; [lia|].
  simpl in H. rewrite Hg in H.
  simpl in H. rewrite setGtNorm_None in H. discriminate.
Qed.

(** The clipped column, once [GtNorm] holds the norm of the column: the
    column itself when its norm is within the threshold, and the column
    scaled to the threshold otherwise. *)
Lemma clippedColumn_cases s grad o :
  0 < GradientClipping s -> GtNormAt s o = colNorm grad o ->
  (l2norm (column grad o) <= GradientClipping s ->
   clippedColumn s grad o = column grad o) /\
  (GradientClipping s < l2norm (column grad o) ->
   clippedColumn s grad o
   = map (fun j => At grad j o * (GradientClipping s / l2norm (column grad o)))
       (seq 0 (rows grad))).
Proof.
intros Hc Hn. unfold clippedColumn, column, gradientClipped.
rewrite Hn, (Rltb_true _ _ Hc), colNorm_l2norm. cbn [andb]. split; intros H.
- rewrite Rltb_false by exact H. reflexivity.
- rewrite Rltb_true by exact H. reflexivity.
Qed.

Lemma clippedColumn_norm s grad o :
  0 < GradientClipping s -> GtNormAt s o = colNorm grad o ->
  l2norm (clippedColumn s grad o) <= GradientClipping s /\
  (GradientClipping s < l2norm (column grad o) ->
   l2norm (clippedColumn s grad o) = GradientClipping s).
Proof.
intros Hc Hn. destruct (clippedColumn_cases s grad o Hc Hn) as [Hle Hgt].
assert (Hscaled : GradientClipping s < l2norm (column grad o) ->
                  l2norm (clippedColumn s grad o) = GradientClipping s).
{ intros H. rewrite (Hgt H).
  rewrite (l2norm_scale (fun j => At grad j o)).
  - fold (column grad o). field. lra.
  - apply Rlt_le, Rdiv_lt_0_compat; lra. }
split; [| exact Hscaled].
destruct (Rle_lt_dec (l2norm (column grad o)) (GradientClipping s)) as [H | H].
- rewrite (Hle H). exact H.
- rewrite (Hscaled H). lra.
Qed.


(** *** What an update call keeps *)

(** The hyper-parameters, the variant, the shape, Theta and the update
    buffer: the fields that [GetUpdate] does not assign. *)
Definition sameParams (s s' : SGDOptimizer) : Prop :=
  StepSize s' = StepSize s /\ Momentum s' = Momentum s /\
  GradientClipping s' = GradientClipping s /\
  RMSPropGamma s' = RMSPropGamma s /\ Epsilon s' = Epsilon s /\
  Adagrad s' = Adagrad s /\ Adadelta s' = Adadelta s /\
  RMSProp s' = RMSProp s /\ Adam s' = Adam s /\
  NFeatures s' = NFeatures s /\ NOutputs s' = NOutputs s /\
  Beta1 s' = Beta1 s /\ Beta2 s' = Beta2 s /\ lastOp s' = lastOp s /\
  Theta s' = Theta s /\ Update s' = Update s.

Lemma sameParams_refl s : sameParams s s.
Proof. unfold sameParams. tauto. Qed.

Lemma sameParams_trans s1 s2 s3 :
  sameParams s1 s2 -> sameParams s2 s3 -> sameParams s1 s3.
Proof.
unfold sameParams. intros H1 H2.
repeat match goal with H : _ /\ _ |- _ => destruct H end.
repeat split; congruence.
Qed.

Ltac same_params := unfold sameParams; simpl; repeat split; reflexivity.

Ltac case_if :=
  repeat match goal with
         | |- context [if ?b then _ else _] =>
             lazymatch b with
             | context [if _ then _ else _] => fail
             | _ => destruct b; simpl
             end
         end.

Lemma sameParams_lazyInit s r c : sameParams s (lazyInit s r c).
Proof.
destruct s. unfold lazyInit, sameParams. simpl. case_if; repeat split; reflexivity.
Qed.

Lemma TimeStep_lazyInit s r c : TimeStep (lazyInit s r c) = TimeStep s.
Proof. destruct s. unfold lazyInit. simpl. case_if; reflexivity. Qed.

Lemma sameParams_allocate s grad : sameParams s (allocate s grad).
Proof.
unfold allocate. simpl. destruct (Reqb (TimeStep s) 0);
  [apply sameParams_lazyInit | apply sameParams_refl].
Qed.

Lemma TimeStep_allocate s grad : TimeStep (allocate s grad) = TimeStep s.
Proof.
unfold allocate. simpl. destruct (Reqb (TimeStep s) 0);
  [apply TimeStep_lazyInit | reflexivity].
Qed.

Lemma clipNorms_set s grad s' :
  clipNorms s grad = Some s' -> exists g, s' = set_GtNorm s g.
Proof.
unfold clipNorms, setGtNorm. destruct (Rltb 0 (GradientClipping s)).
- destruct (GtNorm s) as [g|] eqn:Hg; intros H.
  + destruct (setGtNorm_fold _ _ _ _ _ H Hg) as [g' [-> _]]. eauto.
  + destruct (cols grad) as [|n]; simpl in H.
    * injection H as <-. exists (GtNorm s). symmetry. apply set_GtNorm_same.
    * rewrite Hg in H. simpl in H. rewrite setGtNorm_None in H. discriminate.
- intros H. injection H as <-. exists (GtNorm s). symmetry. apply set_GtNorm_same.
Qed.

Lemma buffer_Some b grad m :
  buffer b grad = Some m -> b = Some m /\ rows m = rows grad /\ cols m = cols grad.
Proof.
unfold buffer. destruct b as [m'|]; [| discriminate]. intros H.
inv_bind H. apply assert_Some in Ha. unfold ret in H. injection H as <-.
apply sameDims_true in Ha. tauto.
Qed.

(** The variant's update assigns buffers only. *)
Lemma variantUpdate_keeps s eta update grad s' u :
  variantUpdate s eta update grad = Some (s', u) ->
  sameParams s s' /\ TimeStep s' = TimeStep s /\ GtNorm s' = GtNorm s /\
  PrevUpdate s' = PrevUpdate s /\ rows u = rows grad /\ cols u = cols grad.
Proof.
unfold variantUpdate, updateRMSProp, updateAdagrad, updateAdadelta, updateAdam,
  updateSGD.
intros H.
destruct (RMSProp s); [| destruct (Adagrad s); [| destruct (Adadelta s);
  [| destruct (Adam s)]]];
  repeat inv_bind H;
  repeat match goal with
         | Hb : buffer _ _ = Some _ |- _ => apply buffer_Some in Hb; destruct Hb as [? [? ?]]
         end;
  unfold ret in H; injection H as <- <-; simpl;
  (split; [same_params |]); repeat split; try reflexivity; assumption.
Qed.

(** [GetUpdate] leaves Theta and the parameters alone and counts one step. *)
Lemma GetUpdate_keeps s update grad s' u :
  GetUpdate s update grad = Some (s', u) ->
  sameParams s s' /\ TimeStep s' = TimeStep s + 1.
Proof.
unfold GetUpdate. intros H.
inv_bind H. inv_bind H. destruct a0 as [s2 u2]. inv_bind H.
unfold ret in H. injection H as <- _.
apply clipNorms_set in Ha. destruct Ha as [g ->].
apply variantUpdate_keeps in Ha0. destruct Ha0 as [Hp [Ht _]].
split.
- eapply sameParams_trans; [apply (sameParams_allocate s grad) |].
  eapply sameParams_trans; [| eapply sameParams_trans; [exact Hp |]]; same_params.
- simpl. rewrite Ht. simpl. now rewrite TimeStep_allocate.
Qed.


(** *** Update calls on gradients of one shape return *)

Definition hasShape (r c : nat) (b : option Dense) : Prop :=
  exists m, b = Some m /\ rows m = r /\ cols m = c.

(** The buffers of the active variant are there, in the shape r x c. *)
Definition allocated (r c : nat) (s : SGDOptimizer) : Prop :=
  hasShape r c (PrevUpdate s) /\
  (0 < GradientClipping s -> hasShape c 1 (GtNorm s)) /\
  (Adagrad s || RMSProp s || Adadelta s = true -> hasShape r c (AdagradG s)) /\
  (Adadelta s = true -> hasShape r c (AdadeltaU s)) /\
  (Adam s = true ->
   hasShape r c (Mt s) /\ hasShape r c (Vt s) /\
   hasShape r c (Mtcap s) /\ hasShape r c (Vtcap s)).

Lemma hasShape_Some r c m : rows m = r -> cols m = c -> hasShape r c (Some m).
Proof. intros Hr Hc. exists m. auto. Qed.

Lemma buffer_hasShape r c b grad :
  hasShape r c b -> rows grad = r -> cols grad = c ->
  exists m, b = Some m /\ buffer b grad = Some m /\ rows m = r /\ cols m = c.
Proof.
intros [m [-> [Hr Hc]]] Hgr Hgc. exists m. repeat split; auto.
unfold buffer. rewrite (proj2 (sameDims_true m grad)) by (split; congruence).
reflexivity.
Qed.

Lemma allocated_lazyInit s r c : allocated r c (lazyInit s r c).
Proof.
destruct s. unfold lazyInit, allocated. simpl.
destruct (Rltb 0 GradientClipping0) eqn:Ec, Adagrad0, RMSProp0, Adadelta0, Adam0;
  simpl; repeat split; intros; try discriminate;
  try (apply hasShape_Some; reflexivity);
  try (apply Rltb_true in H; congruence).
Qed.

Lemma allocated_allocate s grad :
  TimeStep s = 0 \/ allocated (rows grad) (cols grad) s ->
  allocated (rows grad) (cols grad) (allocate s grad).
Proof.
intros H. unfold allocate. simpl. unfold Reqb.
destruct (Req_dec_T (TimeStep s) 0) as [E | E].
- apply allocated_lazyInit.
- destruct H as [H | H]; [contradiction | exact H].
Qed.

Lemma clipNorms_total s grad :
  allocated (rows grad) (cols grad) s ->
  exists s', clipNorms s grad = Some s' /\
             allocated (rows grad) (cols grad) s' /\ sameParams s s' /\
             TimeStep s' = TimeStep s.
Proof.
intros Ha. unfold clipNorms.
destruct (Rltb 0 (GradientClipping s)) eqn:Ec.
- apply Rltb_spec in Ec. destruct Ha as [Hp [Hg Hrest]].
  destruct (Hg Ec) as [g [Hg' [Hr Hc]]].
  destruct (setGtNorm_total grad (seq 0 (cols grad)) s g Hg') as [s' Hs'].
  + intros o Ho. apply in_seq in Ho. lia.
  + lia.
  + exists s'. split; [exact Hs' |].
    destruct (setGtNorm_fold _ _ _ _ _ Hs' Hg') as [g' [-> [Hr' [Hc' _]]]].
    split; [| split; [same_params | reflexivity]].
    unfold allocated. simpl. split; [exact Hp |]. split; [| exact Hrest].
    intros _. apply hasShape_Some; congruence.
- exists s. split; [reflexivity |].
  split; [exact Ha | split; [apply sameParams_refl | reflexivity]].
Qed.

Lemma receiver_same update a :
  rows update = rows a -> cols update = cols a -> receiver update a = Some tt.
Proof.
intros Hr Hc. unfold receiver. apply assert_true.
rewrite (proj2 (sameDims_true update a)) by auto. apply orb_true_r.
Qed.

Lemma variantUpdate_total s eta update grad :
  allocated (rows grad) (cols grad) s ->
  rows update = rows grad -> cols update = cols grad ->
  exists s' u, variantUpdate s eta update grad = Some (s', u) /\
               allocated (rows grad) (cols grad) s'.
Proof.
intros [Hp [Hg [HG [HU HA]]]] Hur Huc.
unfold variantUpdate, updateRMSProp, updateAdagrad, updateAdadelta, updateAdam,
  updateSGD.
assert (Hfin : forall m, rows m = rows grad -> cols m = cols grad ->
                         hasShape (rows grad) (cols grad) (Some m))
  by (intros m; apply hasShape_Some).
destruct (RMSProp s) eqn:E1; [| destruct (Adagrad s) eqn:E2;
  [| destruct (Adadelta s) eqn:E3; [| destruct (Adam s) eqn:E4]]].
- destruct (buffer_hasShape _ _ _ grad
              (HG ltac:(destruct (Adagrad s), (Adadelta s); reflexivity))
              eq_refl eq_refl)
    as [G [HGs [-> [Hr Hc]]]]. simpl.
  rewrite receiver_same by congruence. simpl.
  eexists _, _. split; [reflexivity |].
  unfold allocated. simpl. rewrite E1.
  split; [exact Hp | split; [exact Hg | split; [| split; [exact HU | exact HA]]]].
  intros _. apply Hfin; assumption.
- destruct (buffer_hasShape _ _ _ grad (HG eq_refl) eq_refl eq_refl)
    as [G [HGs [-> [Hr Hc]]]]. simpl.
  rewrite receiver_same by congruence. simpl.
  eexists _, _. split; [reflexivity |].
  unfold allocated. simpl. rewrite E1, E2.
  split; [exact Hp | split; [exact Hg | split; [| split; [exact HU | exact HA]]]].
  intros _. apply Hfin; assumption.
- destruct (buffer_hasShape _ _ _ grad (HG eq_refl) eq_refl eq_refl)
    as [G [HGs [-> [Hr Hc]]]]. simpl.
  destruct (buffer_hasShape _ _ _ grad (HU eq_refl) eq_refl eq_refl)
    as [U [HUs [-> [Hr' Hc']]]]. simpl.
  rewrite receiver_same by congruence. simpl.
  eexists _, _. split; [reflexivity |].
  unfold allocated. simpl. rewrite E1, E2, E3.
  split; [exact Hp | split; [exact Hg | split; [| split; [| exact HA]]]];
    intros _; apply Hfin; assumption.
- destruct (HA eq_refl) as [H1 [H2 [H3 H4]]].
  destruct (buffer_hasShape _ _ _ grad H1 eq_refl eq_refl) as [m1 [_ [-> _]]].
  destruct (buffer_hasShape _ _ _ grad H2 eq_refl eq_refl) as [m2 [_ [-> _]]].
  destruct (buffer_hasShape _ _ _ grad H3 eq_refl eq_refl) as [m3 [_ [-> _]]].
  destruct (buffer_hasShape _ _ _ grad H4 eq_refl eq_refl) as [m4 [_ [-> _]]].
  simpl. rewrite receiver_same by congruence. simpl.
  eexists _, _. split; [reflexivity |].
  unfold allocated. simpl. rewrite E1, E2, E3, E4.
  split; [exact Hp | split; [exact Hg | split; [exact HG | split; [exact HU |]]]].
  intros _. repeat split; apply Hfin; reflexivity.
- rewrite receiver_same by congruence. simpl.
  eexists _, _. split; [reflexivity |].
  unfold allocated. rewrite E1, E2, E3, E4.
  split; [exact Hp | split; [exact Hg | split; [exact HG | split; [exact HU | exact HA]]]].
Qed.

(** [GetUpdate] returns on a gradient and a buffer of the shape of the
    state's buffers, and the buffers stay in that shape. *)
Lemma GetUpdate_total s update grad :
  TimeStep s = 0 \/ allocated (rows grad) (cols grad) s ->
  rows update = rows grad -> cols update = cols grad ->
  exists s' u, GetUpdate s update grad = Some (s', u) /\
               allocated (rows grad) (cols grad) s' /\
               rows u = rows grad /\ cols u = cols grad.
Proof.
intros Hs Hur Huc. unfold GetUpdate.
pose proof (allocated_allocate s grad Hs) as Ha.
set (s1 := set_TimeStep (allocate s grad) (TimeStep (allocate s grad) + 1)).
assert (Ha1 : allocated (rows grad) (cols grad) s1) by exact Ha.
destruct (clipNorms_total s1 grad Ha1) as [s2 [-> [Ha2 _]]]. cbn [bind].
match goal with
| |- context [variantUpdate s2 ?e update grad] =>
    destruct (variantUpdate_total s2 e update grad Ha2 Hur Huc)
      as [s3 [u [Hv Ha3]]]
end.
rewrite Hv. cbn [bind].
destruct (variantUpdate_keeps _ _ _ _ _ _ Hv) as [_ [_ [_ [_ [Hr Hc]]]]].
destruct Ha3 as [Hp Hrest].
destruct (buffer_hasShape _ _ _ grad Hp eq_refl eq_refl) as [p [_ [-> _]]].
simpl. eexists _, _. split; [reflexivity |].
split; [| destruct (Rltb 0 (Momentum s3)); simpl; auto].
unfold allocated. simpl. split; [| exact Hrest].
apply hasShape_Some; destruct (Rltb 0 (Momentum s3)); simpl; auto.
Qed.


Lemma UpdateParams_total s grad :
  TimeStep s = 0 \/ allocated (rows grad) (cols grad) s ->
  hasShape (rows grad) (cols grad) (Theta s) ->
  Update s = None \/ hasShape (rows grad) (cols grad) (Update s) ->
  exists s', UpdateParams s grad = Some s' /\
             allocated (rows grad) (cols grad) s' /\
             hasShape (rows grad) (cols grad) (Theta s') /\
             hasShape (rows grad) (cols grad) (Update s') /\
             TimeStep s' = TimeStep s + 1.
Proof.
intros Hs [theta [Ht [Htr Htc]]] Hu. unfold UpdateParams. cbn [Dims].
set (s1 := match Update s with
           | Some _ => s
           | None => set_Update s (Some (NewDense (rows grad) (cols grad)))
           end).
assert (H1 : (TimeStep s1 = 0 \/ allocated (rows grad) (cols grad) s1)
             /\ Theta s1 = Some theta /\ TimeStep s1 = TimeStep s
             /\ hasShape (rows grad) (cols grad) (Update s1)).
{ unfold s1. destruct Hu as [Hu | Hu].
  - rewrite Hu. repeat split; auto. apply hasShape_Some; reflexivity.
  - destruct Hu as [u [Hu Hd]]. rewrite Hu. repeat split; auto.
    rewrite Hu. exists u. auto. }
destruct H1 as [Hs1 [Ht1 [Hts1 [u0 [Hu0 [Hur Huc]]]]]].
rewrite Hu0.
destruct (GetUpdate_total s1 u0 grad Hs1 Hur Huc) as [s2 [u [Hg [Ha [Hr Hc]]]]].
rewrite Hg. cbn [bind].
destruct (GetUpdate_keeps _ _ _ _ _ Hg) as [Hp Hts2].
assert (Hth : Theta s2 = Some theta).
{ unfold sameParams in Hp. decompose [and] Hp. congruence. }
cbn [Theta set_Update]. rewrite Hth.
rewrite (proj2 (sameDims_true theta u)) by (split; congruence).
cbn [assert bind]. eexists. split; [reflexivity |].
split; [exact Ha |]. split; [apply hasShape_Some; assumption |].
split; [apply hasShape_Some; assumption |].
cbn [TimeStep set_Theta set_Update]. congruence.
Qed.

Lemma updates_total (r c : nat) (grads : list Dense) :
  forall s n,
  TimeStep s = INR n -> (n = 0%nat \/ allocated r c s) ->
  hasShape r c (Theta s) -> (Update s = None \/ hasShape r c (Update s)) ->
  Forall (fun g => rows g = r /\ cols g = c) grads ->
  exists s', updates s grads = Some s' /\
             TimeStep s' = INR (n + List.length grads).
Proof.
induction grads as [|g grads IH]; intros s n Ht Ha Hth Hu Hall.
- exists s. split; [reflexivity |]. now rewrite Nat.add_0_r.
- inversion Hall as [| g' gs' [Hr Hc] Hall']. subst g' gs' r c.
  destruct (UpdateParams_total s g) as [s1 [Hup [Ha1 [Hth1 [Hu1 Hts]]]]]; auto.
  { destruct Ha as [-> | Ha]; [left; exact Ht | right; exact Ha]. }
  cbn [updates]. rewrite Hup. cbn [bind].
  destruct (IH s1 (S n)) as [s' [Hs' Hn]]; auto.
  { rewrite Hts, Ht, S_INR. reflexivity. }
  exists s'. split; [exact Hs' |]. rewrite Hn. f_equal. cbn [List.length]. lia.
Qed.

Lemma NewOptimizer_fresh name s :
  NewOptimizer name = Some s -> TimeStep s = 0 /\ Update s = None.
Proof.
unfold NewOptimizer. intros H.
repeat match type of H with
       | (if ?b then _ else _) = _ => destruct b
       end; try discriminate; injection H as <-; split; reflexivity.
Qed.


(** *** The claims on the update rules *)

(** C7. For each of the variants that [NewOptimizer] builds, N update calls
    on gradients of the shape of Theta all return, and [GetTimeStep] is then
    exactly N: every call counts one step. *)
Theorem TimeStep_counts_update_calls (name : string) (s0 : SGDOptimizer)
  (theta : Dense) (grads : list Dense) :
  NewOptimizer name = Some s0 ->
  Forall (fun g => rows g = rows theta /\ cols g = cols theta) grads ->
  exists s', updates (SetTheta s0 theta) grads = Some s' /\
             GetTimeStep s' = Z.of_nat (List.length grads).
Proof.
intros Hnew Hall.
destruct (NewOptimizer_fresh _ _ Hnew) as [Ht Hu].
assert (H : exists s', updates (SetTheta s0 theta) grads = Some s' /\
                       TimeStep s' = INR (0 + List.length grads)).
{ apply (updates_total (rows theta) (cols theta)).
  - exact Ht.
  - left. reflexivity.
  - apply hasShape_Some; reflexivity.
  - left. exact Hu.
  - exact Hall. }
destruct H as [s' [Hs' Hn]].
exists s'. split; [exact Hs' |].
unfold GetTimeStep, uint64_of_float64. rewrite Hn. apply Int_part_INR.
Qed.

Lemma TimeStep_counts_update_calls_witness :
  exists s',
    updates (SetTheta NewAdamOptimizer (NewDense 1 1))
      [mkDense 1 1 [1]; mkDense 1 1 [2]; mkDense 1 1 [3]] = Some s' /\
    GetTimeStep s' = 3%Z.
Proof.
apply (TimeStep_counts_update_calls "adam" NewAdamOptimizer (NewDense 1 1)
         [mkDense 1 1 [1]; mkDense 1 1 [2]; mkDense 1 1 [3]]).
- reflexivity.
- repeat constructor.
Defined.

(** C4. On the state that [GetUpdate] hands to the update of a variant (the
    buffers allocated, the norms of the columns stored), with clipping on,
    the column of the clipped gradient that the update reads has an L2 norm
    (the square root of the sum of the squares of its entries) of at most
    [GradientClipping]: it is the column of the gradient when the norm of
    that column is within the threshold, and has the norm [GradientClipping]
    otherwise; with clipping off, the clipped gradient is the gradient. *)
Theorem gradientClipped_norm (s : SGDOptimizer) (grad : Dense) :
  allocated (rows grad) (cols grad) s ->
  exists s',
    clipNorms s grad = Some s' /\
    (0 < GradientClipping s ->
     forall o, (o < cols grad)%nat ->
       l2norm (clippedColumn s' grad o) <= GradientClipping s /\
       (l2norm (column grad o) <= GradientClipping s ->
        clippedColumn s' grad o = column grad o) /\
       (GradientClipping s < l2norm (column grad o) ->
        l2norm (clippedColumn s' grad o) = GradientClipping s)) /\
    (GradientClipping s <= 0 ->
     forall j o, gradientClipped s' grad j o = At grad j o).
Proof.
intros Ha. destruct (clipNorms_total s grad Ha) as [s' [H _]].
exists s'. split; [exact H |]. split.
- intros Hc o Ho.
  destruct (clipNorms_GtNormAt s grad s' o H Hc Ho) as [Hn Hc'].
  rewrite <- Hc'. rewrite <- Hc' in Hc.
  destruct (clippedColumn_norm s' grad o Hc Hn) as [Hle Heq].
  destruct (clippedColumn_cases s' grad o Hc Hn) as [Hsame _].
  auto.
- intros Hc j o. unfold clipNorms in H. rewrite Rltb_false in H by exact Hc.
  injection H as <-. unfold gradientClipped.
  now rewrite Rltb_false by exact Hc.
Qed.

(** C3, as the code has it. [GetUpdate] leaves Theta alone but it is the
    step itself: it adds one to [TimeStep]; [UpdateParams] is [GetUpdate] on
    the buffer [s.Update] followed by the addition to Theta. *)
Theorem GetUpdate_steps (s : SGDOptimizer) (update grad : Dense)
  (s' : SGDOptimizer) (u : Dense) :
  GetUpdate s update grad = Some (s', u) ->
  Theta s' = Theta s /\ TimeStep s' = TimeStep s + 1 /\
  forall theta,
    Update s = Some update -> Theta s = Some theta -> sameDims theta u = true ->
    UpdateParams s grad
    = Some (set_Theta (set_Update s' (Some u)) (Some (Add theta u))).
Proof.
intros H. destruct (GetUpdate_keeps _ _ _ _ _ H) as [Hp Ht].
assert (Hth : Theta s' = Theta s) by (unfold sameParams in Hp; tauto).
repeat split; auto.
intros theta Hu Hs Hd. unfold UpdateParams. cbn [Dims].
rewrite Hu. cbv beta iota zeta. rewrite Hu, H.
cbn [bind Theta set_Update]. rewrite Hth, Hs, Hd. reflexivity.
Qed.

Lemma math_Pow_INR (x : R) (n : nat) : math_Pow x (INR n) = x ^ n.
Proof.
unfold math_Pow. rewrite Int_part_INR, <- INR_IZR_INZ.
destruct (Req_dec_T (INR n) (INR n)) as [_ | E]; [| contradiction].
symmetry. apply pow_powerRZ.
Qed.

(** C6. With Adam the active variant, a call at step count n computes, entry
    by entry on the clipped gradient g: Mt = b1*Mt + (1-b1)*g,
    Vt = b2*Vt + (1-b2)*g^2, Mtcap = Mt/(1-b1^t) and Vtcap = Vt/(1-b2^t) with
    t = n+1 the step count after the call, and the update
    -StepSize*Mtcap/(sqrt(Vtcap)+Epsilon), to which the momentum term is added
    when [Momentum] is positive. *)
Theorem Adam_update (s : SGDOptimizer) (update grad : Dense)
  (s' : SGDOptimizer) (u : Dense) (n : nat) :
  Adam s = true -> RMSProp s = false -> Adagrad s = false ->
  Adadelta s = false -> TimeStep s = INR n ->
  GetUpdate s update grad = Some (s', u) ->
  exists mt0 vt0 prev0 mt vt mtcap vtcap,
    Mt (allocate s grad) = Some mt0 /\ Vt (allocate s grad) = Some vt0 /\
    PrevUpdate (allocate s grad) = Some prev0 /\
    Mt s' = Some mt /\ Vt s' = Some vt /\
    Mtcap s' = Some mtcap /\ Vtcap s' = Some vtcap /\
    TimeStep s' = INR (S n) /\
    forall j o, (j < rows grad)%nat -> (o < cols grad)%nat ->
      let g := gradientClipped s' grad j o in
      let t := S n in
      At mt j o = Beta1 s * At mt0 j o + (1 - Beta1 s) * g /\
      At vt j o = Beta2 s * At vt0 j o + (1 - Beta2 s) * (g * g) /\
      At mtcap j o = At mt j o / (1 - Beta1 s ^ t) /\
      At vtcap j o = At vt j o / (1 - Beta2 s ^ t) /\
      At u j o
      = (if Rltb 0 (Momentum s) then Momentum s * At prev0 j o else 0)
        + - StepSize s * At mtcap j o / (sqrt (At vtcap j o) + Epsilon s).
Proof.
intros HA HR HG HD Hn H.
pose proof (sameParams_allocate s grad) as Hp0.
pose proof (TimeStep_allocate s grad) as Ht0.
unfold GetUpdate in H.
remember (allocate s grad) as sa eqn:Esa.
unfold sameParams in Hp0. decompose [and] Hp0. clear Hp0.
inv_bind H. rename a into s2. inv_bind H. destruct a as [s3 u3].
inv_bind H. rename a into prev. unfold ret in H. injection H as <- <-.
destruct (clipNorms_set _ _ _ Ha) as [g2 ->]. clear Ha.
unfold variantUpdate in Ha0.
cbn [RMSProp Adagrad Adadelta Adam set_GtNorm set_TimeStep] in Ha0.
rewrite H7, H5, H6, H8, HA, HR, HG, HD in Ha0.
unfold updateAdam in Ha0.
inv_bind Ha0. rename a into mt0. apply buffer_Some in Ha. destruct Ha as [Hmt [Hmr Hmc]].
inv_bind Ha0. rename a into vt0. apply buffer_Some in Ha. destruct Ha as [Hvt [Hvr Hvc]].
inv_bind Ha0. clear Ha a. inv_bind Ha0. clear Ha a. inv_bind Ha0. clear Ha a.
unfold ret in Ha0. injection Ha0 as <- <-.
apply buffer_Some in Ha1. destruct Ha1 as [Hprev [Hpr Hpc]].
cbn in Hmt, Hvt, Hprev.
set (gc := gradientClipped (set_GtNorm (set_TimeStep sa (TimeStep sa + 1)) g2) grad).
exists mt0, vt0, prev. do 4 eexists.
split; [exact Hmt |]. split; [exact Hvt |]. split; [exact Hprev |].
split; [reflexivity |]. split; [reflexivity |].
split; [reflexivity |]. split; [reflexivity |].
split.
{ cbn [TimeStep set_PrevUpdate set_Vtcap set_Mtcap set_Vt set_Mt set_GtNorm
       set_TimeStep].
  rewrite Ht0, Hn, S_INR. reflexivity. }
intros j o Hj Ho. cbv zeta.
change (gradientClipped _ grad j o) with (gc j o).
cbn [Momentum set_Vtcap set_Mtcap set_Vt set_Mt set_GtNorm set_TimeStep
     StepSize Epsilon].
unfold Scale.
assert (Hpow : forall b, math_Pow b (TimeStep sa + 1) = b ^ S n).
{ intros b. rewrite Ht0, Hn, <- S_INR. apply math_Pow_INR. }
rewrite !Hpow. rewrite <- H11, <- H12, <- H2, <- H0, <- H4.
repeat split.
- now rewrite At_Apply.
- rewrite At_Apply by assumption. ring.
- rewrite !At_Apply by (rewrite ?rows_tabulate, ?cols_tabulate; assumption).
  unfold Rdiv. ring.
- rewrite !At_Apply by (rewrite ?rows_tabulate, ?cols_tabulate; assumption).
  unfold Rdiv. ring.
- destruct (Rltb 0 (Momentum sa)).
  + rewrite !At_Apply
      by (unfold Apply; rewrite ?rows_tabulate, ?cols_tabulate; assumption).
    reflexivity.
  + rewrite !At_Apply
      by (unfold Apply; rewrite ?rows_tabulate, ?cols_tabulate; assumption).
    ring.
Qed.


(** The plain rule: the update of a call, entry by entry. *)
Lemma SGD_update (s : SGDOptimizer) (update grad : Dense)
  (s' : SGDOptimizer) (u : Dense) :
  Adam s = false -> RMSProp s = false -> Adagrad s = false ->
  Adadelta s = false ->
  GetUpdate s update grad = Some (s', u) ->
  exists prev0,
    PrevUpdate (allocate s grad) = Some prev0 /\
    PrevUpdate s' = Some (Clone u) /\
    forall j o, (j < rows grad)%nat -> (o < cols grad)%nat ->
      At u j o
      = (if Rltb 0 (Momentum s) then Momentum s * At prev0 j o else 0)
        + - (StepSize s * 100 / (100 + (TimeStep s + 1)))
          * gradientClipped s' grad j o / sqrt (1 * (TimeStep s + 1)).
Proof.
intros HA HR HG HD H.
pose proof (sameParams_allocate s grad) as Hp0.
pose proof (TimeStep_allocate s grad) as Ht0.
unfold GetUpdate in H.
remember (allocate s grad) as sa eqn:Esa.
unfold sameParams in Hp0. decompose [and] Hp0. clear Hp0.
inv_bind H. rename a into s2. inv_bind H. destruct a as [s3 u3].
inv_bind H. rename a into prev. unfold ret in H. injection H as <- <-.
destruct (clipNorms_set _ _ _ Ha) as [g2 ->]. clear Ha.
unfold variantUpdate in Ha0.
cbn [RMSProp Adagrad Adadelta Adam set_GtNorm set_TimeStep] in Ha0.
rewrite H7, H5, H6, H8, HA, HR, HG, HD in Ha0.
unfold updateSGD in Ha0.
inv_bind Ha0. clear Ha a. unfold ret in Ha0. injection Ha0 as <- <-.
apply buffer_Some in Ha1. destruct Ha1 as [Hprev [Hpr Hpc]].
cbn in Hprev.
set (gc := gradientClipped (set_GtNorm (set_TimeStep sa (TimeStep sa + 1)) g2) grad).
exists prev. split; [exact Hprev |]. split; [reflexivity |].
intros j o Hj Ho.
change (gradientClipped _ grad j o) with (gc j o).
cbn [Momentum set_GtNorm set_TimeStep StepSize TimeStep].
rewrite <- H2, <- H0, <- Ht0.
destruct (Rltb 0 (Momentum sa));
  rewrite !At_Apply
    by (unfold Apply; rewrite ?rows_tabulate, ?cols_tabulate; assumption).
- reflexivity.
- ring.
Qed.

Lemma PrevUpdate_allocate_fresh s grad :
  TimeStep s = 0 ->
  PrevUpdate (allocate s grad) = Some (NewDense (rows grad) (cols grad)).
Proof.
intros H. unfold allocate. cbn [Dims]. rewrite H, Reqb_refl.
destruct s. unfold lazyInit. simpl. case_if; reflexivity.
Qed.

Lemma allocate_started s grad : TimeStep s <> 0 -> allocate s grad = s.
Proof. intros H. unfold allocate. cbn [Dims]. now rewrite Reqb_neq. Qed.

Lemma gradientClipped_off s grad j o :
  GradientClipping s <= 0 -> gradientClipped s grad j o = At grad j o.
Proof. intros H. unfold gradientClipped. now rewrite Rltb_false. Qed.

(** C3, as the claim has it, fails. Two calls of [GetUpdate] on the plain
    rule of [NewSGDOptimizer], on the gradient [1] and with no
    [UpdateParams] in between: the step counter goes from 0 to 1 and to 2,
    and the second update is not the first. *)
Lemma GetUpdate_twice_differs :
  exists s1 u1 s2 u2,
    GetUpdate (SetTheta NewSGDOptimizer (NewDense 1 1)) (NewDense 1 1)
      (mkDense 1 1 [1]) = Some (s1, u1) /\
    GetUpdate s1 u1 (mkDense 1 1 [1]) = Some (s2, u2) /\
    Theta s2 = Some (NewDense 1 1) /\
    GetTimeStep (SetTheta NewSGDOptimizer (NewDense 1 1)) = 0%Z /\
    GetTimeStep s1 = 1%Z /\ GetTimeStep s2 = 2%Z /\
    At u2 0 0 < At u1 0 0.
Proof.
set (s0 := SetTheta NewSGDOptimizer (NewDense 1 1)).
set (grad := mkDense 1 1 [1]).
destruct (GetUpdate_total s0 (NewDense 1 1) grad) as [s1 [u1 [H1 [A1 [R1 C1]]]]];
  [left; reflexivity | reflexivity | reflexivity |].
destruct (GetUpdate_total s1 u1 grad) as [s2 [u2 [H2 [A2 [R2 C2]]]]];
  [right; exact A1 | exact R1 | exact C1 |].
destruct (GetUpdate_keeps _ _ _ _ _ H1) as [P1 T1].
destruct (GetUpdate_keeps _ _ _ _ _ H2) as [P2 T2].
assert (E1 : Theta s1 = Theta s0 /\ Momentum s1 = Momentum s0 /\
             StepSize s1 = StepSize s0 /\
             GradientClipping s1 = GradientClipping s0 /\
             Adam s1 = Adam s0 /\ RMSProp s1 = RMSProp s0 /\
             Adagrad s1 = Adagrad s0 /\ Adadelta s1 = Adadelta s0)
  by (unfold sameParams in P1; tauto).
assert (E2 : Theta s2 = Theta s1 /\ GradientClipping s2 = GradientClipping s1)
  by (unfold sameParams in P2; tauto).
destruct E1 as [Eth [Emo [Est [Ecl [F1 [F2 [F3 F4]]]]]]].
destruct E2 as [Eth2 Ecl2]. clear P1 P2.
assert (T1' : TimeStep s1 = 1) by (rewrite T1; cbn; ring).
assert (T2' : TimeStep s2 = 2) by (rewrite T2, T1'; ring).
exists s1, u1, s2, u2.
split; [exact H1 |]. split; [exact H2 |].
split; [rewrite Eth2, Eth; reflexivity |].
unfold GetTimeStep, uint64_of_float64.
split; [exact (Int_part_INR 0) |].
split; [rewrite T1'; exact (Int_part_INR 1) |].
split; [rewrite T2'; change 2 with (INR 2); exact (Int_part_INR 2) |].
destruct (SGD_update s0 _ _ _ _ eq_refl eq_refl eq_refl eq_refl H1)
  as [p0 [Hp0 [Hp1 Hu1]]].
rewrite PrevUpdate_allocate_fresh in Hp0 by reflexivity.
injection Hp0 as <-.
specialize (Hu1 0%nat 0%nat Nat.lt_0_1 Nat.lt_0_1).
rewrite At_NewDense in Hu1.
rewrite gradientClipped_off in Hu1 by (rewrite Ecl; cbn; lra).
destruct (SGD_update s1 _ _ _ _ F1 F2 F3 F4 H2) as [p1 [Hq0 [_ Hu2]]].
rewrite allocate_started in Hq0 by (rewrite T1'; lra).
rewrite Hp1 in Hq0. injection Hq0 as <-.
specialize (Hu2 0%nat 0%nat Nat.lt_0_1 Nat.lt_0_1).
rewrite At_Clone in Hu2.
rewrite gradientClipped_off in Hu2 by (rewrite Ecl2, Ecl; cbn; lra).
rewrite Emo, Est, T1' in Hu2. rewrite Hu2, Hu1.
change (At grad 0 0) with 1.
change (Momentum s0) with (9 / 10). change (StepSize s0) with (1 / 10000).
change (TimeStep s0) with 0.
rewrite (Rltb_true 0 (9 / 10)) by lra.
replace (1 * (0 + 1)) with 1 by ring. replace (1 * (1 + 1)) with 2 by ring.
rewrite sqrt_1.
assert (Hs : 0 < sqrt 2 <= 2).
{ split; [apply sqrt_lt_R0; lra |].
  rewrite <- (sqrt_square 2) at 2 by lra. apply sqrt_le_1; lra. }
assert (Hi : / 2 <= / sqrt 2) by (apply Rinv_le_contravar; lra).
unfold Rdiv. lra.
Qed.


Lemma Mt_allocate_fresh s grad :
  TimeStep s = 0 -> Adam s = true ->
  Mt (allocate s grad) = Some (NewDense (rows grad) (cols grad)).
Proof.
intros H HA. unfold allocate. cbn [Dims]. rewrite H, Reqb_refl.
destruct s. unfold lazyInit. simpl in *. subst. simpl. case_if; reflexivity.
Qed.

Lemma GetUpdate_steps_witness :
  exists s' u,
    GetUpdate (SetTheta NewSGDOptimizer (NewDense 1 1)) (NewDense 1 1)
      (mkDense 1 1 [1]) = Some (s', u) /\
    Theta s' = Some (NewDense 1 1) /\ TimeStep s' = 0 + 1.
Proof.
destruct (GetUpdate_total (SetTheta NewSGDOptimizer (NewDense 1 1))
            (NewDense 1 1) (mkDense 1 1 [1]))
  as [s' [u [H _]]]; [left; reflexivity | reflexivity | reflexivity |].
exists s', u. split; [exact H |].
destruct (GetUpdate_steps _ _ _ _ _ H) as [Ht [Hn _]].
split; [exact Ht | exact Hn].
Defined.

Lemma gradientClipped_norm_witness :
  exists s',
    clipNorms (allocate NewAdagradOptimizer (mkDense 2 1 [30; 40]))
      (mkDense 2 1 [30; 40]) = Some s' /\
    l2norm (column (mkDense 2 1 [30; 40]) 0) = 50 /\
    l2norm (clippedColumn s' (mkDense 2 1 [30; 40]) 0) = 10.
Proof.
set (grad := mkDense 2 1 [30; 40]).
assert (Hc : GradientClipping (allocate NewAdagradOptimizer grad) = 10).
{ destruct (sameParams_allocate NewAdagradOptimizer grad) as [_ [_ [-> _]]].
  reflexivity. }
assert (Hn : l2norm (column grad 0) = 50).
{ unfold l2norm, column, grad. cbn.
  replace (30 * 30 + (40 * 40 + 0)) with (50 * 50) by lra.
  apply sqrt_square. lra. }
destruct (gradientClipped_norm (allocate NewAdagradOptimizer grad) grad)
  as [s' [H [Hon _]]].
- apply allocated_allocate. left. reflexivity.
- exists s'. split; [exact H |]. split; [exact Hn |].
  rewrite Hc in Hon.
  destruct (Hon ltac:(lra) 0%nat Nat.lt_0_1) as [_ [_ Heq]].
  apply Heq. rewrite Hn. lra.
Defined.

Lemma Adam_update_witness :
  exists s' u mt mtcap,
    GetUpdate NewAdamOptimizer (NewDense 1 1) (mkDense 1 1 [1]) = Some (s', u) /\
    Mt s' = Some mt /\ Mtcap s' = Some mtcap /\
    At mt 0 0 = 1 / 10 /\ At mtcap 0 0 = 1.
Proof.
set (grad := mkDense 1 1 [1]).
destruct (GetUpdate_total NewAdamOptimizer (NewDense 1 1) grad)
  as [s' [u [H _]]]; [left; reflexivity | reflexivity | reflexivity |].
destruct (Adam_update NewAdamOptimizer (NewDense 1 1) grad s' u 0
            eq_refl eq_refl eq_refl eq_refl eq_refl H)
  as [mt0 [vt0 [prev0 [mt [vt [mtcap [vtcap
       [Hm0 [_ [_ [Hm [_ [Hmc [_ [_ Hall]]]]]]]]]]]]]]].
exists s', u, mt, mtcap. split; [exact H |]. split; [exact Hm |].
split; [exact Hmc |].
rewrite Mt_allocate_fresh in Hm0 by reflexivity. injection Hm0 as <-.
destruct (Hall 0%nat 0%nat Nat.lt_0_1 Nat.lt_0_1) as [E1 [_ [E2 _]]].
destruct (GetUpdate_keeps _ _ _ _ _ H) as [[_ [_ [Hc _]]] _].
rewrite gradientClipped_off in E1 by (rewrite Hc; cbn; lra).
rewrite At_NewDense in E1.
change (At grad 0 0) with 1 in E1. change (Beta1 NewAdamOptimizer) with (9 / 10) in *.
assert (E1' : At mt 0 0 = 1 / 10) by (rewrite E1; lra).
split; [exact E1' |]. rewrite E2, E1'. simpl. lra.
Defined.

End baseFacts.

(** ** The training loop *)

Module linearModelFacts.
Import mat matFacts linearModel.

(** *** The order on the scalars *)





(** *** Slices *)

Lemma length_copy dst src : List.length (copy dst src) = List.length dst.
Proof.
unfold copy. rewrite length_app, length_firstn, length_skipn. lia.
Qed.


(** *** The defaults of the options *)

Lemma Int_part_IZR (z : Z) : Int_part (IZR z) = z.
Proof. symmetry. apply Int_part_spec. split; lra. Qed.

Lemma int_of_float64_IZR (z : Z) : (0 <= z)%Z -> int_of_float64 (IZR z) = z.
Proof.
intros H. unfold int_of_float64. rewrite Rltb_false by (apply IZR_le in H; lra).
apply Int_part_IZR.
Qed.

Lemma sqrt_between (n : Z) :
  (0 <= n)%Z -> IZR (Z.sqrt n) <= sqrt (IZR n) < IZR (Z.sqrt n) + 1.
Proof.
intros Hn. destruct (Z.sqrt_spec n Hn) as [H1 H2].
pose proof (Z.sqrt_nonneg n) as H0.
assert (Hs : 0 <= IZR (Z.sqrt n)) by (apply IZR_le in H0; exact H0).
split.
- rewrite <- (sqrt_square (IZR (Z.sqrt n))) by exact Hs.
  apply sqrt_le_1_alt. rewrite <- mult_IZR. apply IZR_le. exact H1.
- rewrite <- (sqrt_square (IZR (Z.sqrt n) + 1)) by lra.
  apply sqrt_lt_1_alt. split; [apply IZR_le in Hn; exact Hn |].
  rewrite <- plus_IZR, <- mult_IZR. apply IZR_lt.
  replace (Z.sqrt n + 1)%Z with (Z.succ (Z.sqrt n)) by lia. exact H2.
Qed.

Lemma defaultMiniBatchSize (n : nat) :
  int_of_float64 (Rmax 1 (Rmin 100 (sqrt (INR n))))
  = Z.max 1 (Z.min 100 (Z.sqrt (Z.of_nat n))).
Proof.
rewrite INR_IZR_INZ.
pose proof (sqrt_between (Z.of_nat n) (Nat2Z.is_nonneg n)) as [H1 H2].
pose proof (Z.sqrt_nonneg (Z.of_nat n)) as H0.
set (r := sqrt (IZR (Z.of_nat n))) in *. set (s := Z.sqrt (Z.of_nat n)) in *.
destruct (Z_lt_le_dec s 100) as [Hs | Hs].
- assert (Hr : r < 100).
  { assert (Hs' : (s + 1 <= 100)%Z) by lia.
    apply IZR_le in Hs'. rewrite plus_IZR in Hs'. lra. }
  rewrite Rmin_right by lra.
  destruct (Z_lt_le_dec s 1) as [Hs1 | Hs1].
  + assert (s = 0%Z) by lia. assert (Hr1 : r < 1) by (rewrite H in H2; simpl in H2; lra).
    rewrite Rmax_left by lra. rewrite (int_of_float64_IZR 1) by lia. lia.
  + assert (Hr1 : 1 <= r) by (apply IZR_le in Hs1; lra).
    rewrite Rmax_right by lra.
    unfold int_of_float64. rewrite Rltb_false by lra.
    rewrite Z.min_r, Z.max_r by lia. symmetry. apply Int_part_spec. lra.
- assert (Hr : 100 <= r) by (apply IZR_le in Hs; lra).
  rewrite Rmin_left by lra. rewrite Rmax_right by lra.
  rewrite (int_of_float64_IZR 100) by lia. lia.
Qed.

Lemma clampMiniBatchSize (n : nat) (m : Z) :
  int_of_float64 (Rmax 1 (Rmin (INR n) (IZR m)))
  = Z.max 1 (Z.min (Z.of_nat n) m).
Proof.
rewrite INR_IZR_INZ.
destruct (Z_lt_le_dec (Z.of_nat n) m) as [H | H].
- rewrite Rmin_left by (apply IZR_lt in H; lra). rewrite Z.min_l by lia.
  destruct (Z_lt_le_dec (Z.of_nat n) 1) as [H1 | H1].
  + rewrite Rmax_left by (apply IZR_lt in H1; lra).
    rewrite (int_of_float64_IZR 1) by lia. lia.
  + rewrite Rmax_right by (apply IZR_le in H1; lra).
    rewrite int_of_float64_IZR by lia. lia.
- rewrite Rmin_right by (apply IZR_le in H; lra). rewrite Z.min_r by lia.
  destruct (Z_lt_le_dec m 1) as [H1 | H1].
  + rewrite Rmax_left by (apply IZR_lt in H1; lra).
    rewrite (int_of_float64_IZR 1) by lia. lia.
  + rewrite Rmax_right by (apply IZR_le in H1; lra).
    rewrite int_of_float64_IZR by lia. lia.
Qed.

(** C8. With the option unset (not positive), the epoch budget is the
    integer quotient 1e6 / nSamples and the mini-batch size is
    sqrt(nSamples), truncated to an integer and clamped to [1, 100]; a
    mini-batch size that the caller supplies is clamped to at least 1 and at
    most nSamples. *)
Theorem LinFit_defaults (optEpochs optMiniBatchSize : Z) (nSamples : nat) :
  (0 < nSamples)%nat ->
  ((optEpochs <= 0)%Z ->
   epochsOf optEpochs nSamples = Some (1000000 / Z.of_nat nSamples)%Z) /\
  ((optMiniBatchSize <= 0)%Z ->
   miniBatchSizeOf optMiniBatchSize nSamples
   = Z.max 1 (Z.min 100 (Z.sqrt (Z.of_nat nSamples)))) /\
  ((0 < optMiniBatchSize)%Z ->
   miniBatchSizeOf optMiniBatchSize nSamples
   = Z.max 1 (Z.min (Z.of_nat nSamples) optMiniBatchSize) /\
   (1 <= miniBatchSizeOf optMiniBatchSize nSamples <= Z.of_nat nSamples)%Z).
Proof.
intros Hn. repeat split.
- intros H. unfold epochsOf. apply Z.leb_le in H. rewrite H.
  destruct (Nat.eqb_spec nSamples 0) as [E | E]; [lia |].
  unfold ret. f_equal. apply Z.quot_div_nonneg; lia.
- intros H. unfold miniBatchSizeOf.
  assert (Hb : (0 <? optMiniBatchSize)%Z = false) by (apply Z.ltb_ge; exact H).
  rewrite Hb, defaultMiniBatchSize, clampMiniBatchSize.
  pose proof (Z.sqrt_nonneg (Z.of_nat nSamples)).
  pose proof (Z.sqrt_le_lin (Z.of_nat nSamples) (Nat2Z.is_nonneg nSamples)).
  lia.
- unfold miniBatchSizeOf. apply Z.ltb_lt in H. rewrite H.
  apply clampMiniBatchSize.
- unfold miniBatchSizeOf. apply Z.ltb_lt in H. rewrite H.
  rewrite clampMiniBatchSize. lia.
- unfold miniBatchSizeOf. apply Z.ltb_lt in H. rewrite H.
  rewrite clampMiniBatchSize. lia.
Qed.

Lemma LinFit_defaults_witness :
  epochsOf 0 200 = Some 5000%Z /\ miniBatchSizeOf 0 200 = 14%Z /\
  miniBatchSizeOf 500 200 = 200%Z.
Proof.
destruct (LinFit_defaults 0 0 200 ltac:(lia)) as [H1 [H2 _]].
destruct (LinFit_defaults 0 500 200 ltac:(lia)) as [_ [_ H3]].
split; [exact (H1 ltac:(lia)) |].
split; [exact (H2 ltac:(lia)) | exact (proj1 (H3 ltac:(lia)))].
Defined.


(** *** The loop over the epochs *)

Lemma slice_Some m i k j l m' :
  slice m i k j l = Some m' ->
  (0 <= i < k)%Z /\ (k <= Z.of_nat (rows m))%Z /\
  (0 <= j < l)%Z /\ (l <= Z.of_nat (cols m))%Z /\
  m' = Slice m (Z.to_nat i) (Z.to_nat k) (Z.to_nat j) (Z.to_nat l).
Proof.
unfold slice. intros H. inv_bind H. apply assert_Some in Ha.
repeat rewrite andb_true_iff in Ha.
destruct Ha as [[[[[[[H1 H2] H3] H4] H5] H6] H7] H8].
apply Z.leb_le in H1, H4, H5, H8. apply Z.ltb_lt in H2, H3, H6, H7.
unfold ret in H. injection H as <-. repeat split; try lia.
Qed.

Lemma slice_total m i k j l :
  (0 <= i < k)%Z -> (k <= Z.of_nat (rows m))%Z ->
  (0 <= j < l)%Z -> (l <= Z.of_nat (cols m))%Z ->
  slice m i k j l
  = Some (Slice m (Z.to_nat i) (Z.to_nat k) (Z.to_nat j) (Z.to_nat l)).
Proof.
intros H1 H2 H3 H4. unfold slice. rewrite assert_true; [reflexivity |].
repeat rewrite andb_true_iff.
repeat split; (apply Z.leb_le || apply Z.ltb_lt); lia.
Qed.

Section Loop.

Variable E : Collaborators.
Variable opts : LinFitOptions E.
Variable nSamples nFeatures nOutputs : nat.
Variable miniBatchSize : Z.

Local Notation "'body'" :=
  (runEpoch E opts nSamples nFeatures nOutputs miniBatchSize) (only parsing).

Local Notation "'step'" :=
  (miniBatchStep E opts nSamples nFeatures nOutputs miniBatchSize) (only parsing).

Local Notation "'batches'" :=
  (miniBatches E opts nSamples nFeatures nOutputs miniBatchSize) (only parsing).

(** The rows [lo, hi) of mini-batch [i], as the loop computes them. *)
Definition miniBatchRows (miniBatch : Z) : Z * Z :=
  let miniBatchStart := (miniBatch * miniBatchSize)%Z in
  let miniBatchEnd := (miniBatchStart + miniBatchSize)%Z in
  (miniBatchStart,
   if (Z.of_nat nSamples <? miniBatchEnd)%Z then Z.of_nat nSamples else miniBatchEnd).

(** A mini-batch that returns has taken its four windows, has evaluated the
    loss on the windows of Ytrue and X, and has left the data and the
    best-so-far alone. *)
Lemma miniBatchStep_Some st miniBatch st' :
  step st miniBatch = Some st' ->
  let '(lo, hi) := miniBatchRows miniBatch in
  exists Ys Xs,
    slice (st_Ytrue E st) lo hi 0 (Z.of_nat nOutputs) = Some Ys /\
    slice (st_X E st) lo hi 0 (Z.of_nat nFeatures) = Some Xs /\
    (0 < hi - lo <= miniBatchSize)%Z /\ (0 < nOutputs)%nat /\
    st_grad E st'
    = lossGrad (lossOf E opts Ys Xs (st_Theta E st) true (Alpha E opts)
                  (L1Ratio E opts) nSamples (activationOf E opts)) /\
    st_Theta E st'
    = snd (UpdateParams E (st_solver E st) (st_Theta E st) (st_grad E st')) /\
    thetaSliceBest E st' = thetaSliceBest E st /\
    st_JBest E st' = st_JBest E st /\
    st_X E st' = st_X E st /\ st_Ytrue E st' = st_Ytrue E st.
Proof.
unfold miniBatchStep, miniBatchRows. cbv zeta. intros H.
inv_bind H. rename a into Ys. rename Ha into HY.
inv_bind H. rename a into Xs. rename Ha into HX.
inv_bind H. apply slice_Some in Ha. destruct Ha as (P1 & P2 & P3 & _).
inv_bind H. clear Ha a0.
cbn [rows cols NewDense YpredMini] in P2, P3.
exists Ys, Xs. split; [exact HY |]. split; [exact HX |].
split; [lia |]. split; [lia |].
destruct (UpdateParams E (st_solver E st) (st_Theta E st) _) as [s1 theta1] eqn:EU.
unfold ret in H. injection H as <-. cbn.
rewrite EU. cbn. repeat split; reflexivity.
Qed.

(** The mini-batches leave the best-so-far and the data alone. *)
Lemma miniBatches_keeps fuel :
  forall miniBatch st st',
  batches fuel miniBatch st = Some st' ->
  thetaSliceBest E st' = thetaSliceBest E st /\
  st_JBest E st' = st_JBest E st /\
  st_X E st' = st_X E st /\ st_Ytrue E st' = st_Ytrue E st.
Proof.
induction fuel as [|fuel IH]; intros miniBatch st st' H; cbn [miniBatches] in H.
- unfold ret in H. injection H as <-. auto.
- destruct (miniBatch * miniBatchSize <? Z.of_nat nSamples)%Z;
    [| unfold ret in H; injection H as <-; auto].
  inv_bind H. apply IH in H. destruct H as (H1 & H2 & H3 & H4).
  pose proof (miniBatchStep_Some _ _ _ Ha) as Hs.
  destruct (miniBatchRows miniBatch) as [lo hi].
  destruct Hs as (Ys & Xs & _ & _ & _ & _ & _ & _ & K1 & K2 & K3 & K4).
  repeat split; congruence.
Qed.

(** The bound [nSamples] on the passes of the loop over the mini-batches
    is never the reason why it stops: with a mini-batch size of at least 1,
    more passes change nothing. *)
Lemma miniBatches_fuel fuel :
  forall miniBatch st extra,
  (1 <= miniBatchSize)%Z -> (0 <= miniBatch)%Z ->
  (Z.of_nat nSamples <= (miniBatch + Z.of_nat fuel) * miniBatchSize)%Z ->
  batches (fuel + extra) miniBatch st = batches fuel miniBatch st.
Proof.
induction fuel as [|fuel IH]; intros miniBatch st extra Hm Hb Hn.
- cbn [Nat.add miniBatches]. destruct extra as [|extra]; [reflexivity |].
  cbn [miniBatches].
  destruct (Z.ltb_spec (miniBatch * miniBatchSize) (Z.of_nat nSamples));
    [lia | reflexivity].
- cbn [Nat.add miniBatches].
  destruct (miniBatch * miniBatchSize <? Z.of_nat nSamples)%Z; [| reflexivity].
  destruct (step st miniBatch) as [st1 |]; [| reflexivity].
  cbn [bind]. apply IH; lia.
Qed.

Lemma miniBatchSizeOf_pos (optMiniBatchSize : Z) (n : nat) :
  (1 <= miniBatchSizeOf optMiniBatchSize n)%Z.
Proof. unfold miniBatchSizeOf. rewrite clampMiniBatchSize. lia. Qed.

(** The loss on the whole of X and Ytrue, at the Theta of a state: the
    full-dataset evaluation of the specification. *)
Definition lossOnFullDataset (st : loopState E) : LossOut :=
  lossOf E opts (st_Ytrue E st) (st_X E st) (st_Theta E st) true
    (Alpha E opts) (L1Ratio E opts) nSamples (activationOf E opts).

(** One epoch: the objective is the loss on the full dataset; then the
    best-so-far, the RMSE and the test. *)
Lemma runEpoch_spec st st' :
  body st = Some st' ->
  let out := lossOnFullDataset st' in
  st_J E st' = lossJ out /\
  st_JBest E st'
  = (if flt (lossJ out) (st_JBest E st) then lossJ out else st_JBest E st) /\
  thetaSliceBest E st'
  = (if flt (lossJ out) (st_JBest E st)
     then copy (thetaSliceBest E st) (data (st_Theta E st'))
     else thetaSliceBest E st) /\
  st_rmse E st'
  = fsqrt (Finite (At (MeanSquaredError E (st_Ytrue E st') (lossYpred out)) 0 0)) /\
  st_converged E st' = flt (fsqrt (st_rmse E st')) (Tol E opts).
Proof.
unfold runEpoch. intros H.
destruct (MatShuffle E (st_rand E st) (st_X E st) (st_Ytrue E st)) as [[g X] Y].
inv_bind H. rename a into st1.
apply miniBatches_keeps in Ha. cbn in Ha. destruct Ha as (H1 & H2 & _ & _).
unfold ret in H. injection H as <-.
cbv zeta. unfold fullDataset, lossOnFullDataset. cbn. rewrite H1, H2.
repeat split.
Qed.

(** The states of a run of epochs from [st0]. *)
Definition epochsFrom (st0 : loopState E) (k : nat) : M (loopState E) :=
  Nat.iter k (fun m => bind m body) (ret st0).

(** The state after [k] epochs, when the run gets that far. *)
Definition stateOf (st0 : loopState E) (k : nat) : loopState E :=
  match epochsFrom st0 k with
  | Some st => st
  | None => st0
  end.

Lemma epochsFrom_S st0 k :
  epochsFrom st0 (S k) = bind (epochsFrom st0 k) body.
Proof. reflexivity. Qed.

Lemma epochsFrom_succ_r k :
  forall st0,
  epochsFrom st0 (S k) = bind (body st0) (fun st1 => epochsFrom st1 k).
Proof.
induction k as [|k IH]; intros st0.
- cbn. destruct (body st0); reflexivity.
- rewrite epochsFrom_S, IH. destruct (body st0) as [st1 |]; [| reflexivity].
  cbn [bind]. rewrite <- epochsFrom_S. reflexivity.
Qed.

Lemma epochsFrom_prefix st0 n :
  (exists st, epochsFrom st0 n = Some st) ->
  forall i, (i <= n)%nat -> exists st, epochsFrom st0 i = Some st.
Proof.
induction n as [|n IH]; intros [st H] i Hi.
- replace i with 0%nat by lia. eauto.
- destruct (Nat.eq_dec i (S n)) as [-> | Hne]; [eauto |].
  apply IH; [| lia]. rewrite epochsFrom_S in H.
  destruct (epochsFrom st0 n) as [s |]; [eauto | discriminate].
Qed.

Lemma stateOf_Some st0 k :
  (exists st, epochsFrom st0 k = Some st) ->
  epochsFrom st0 k = Some (stateOf st0 k).
Proof. intros [st H]. unfold stateOf. rewrite H. reflexivity. Qed.

Lemma stateOf_step st0 k :
  (exists st, epochsFrom st0 (S k) = Some st) ->
  body (stateOf st0 k) = Some (stateOf st0 (S k)).
Proof.
intros H. pose proof (stateOf_Some st0 (S k) H) as HS.
rewrite epochsFrom_S in HS.
rewrite (stateOf_Some st0 k) in HS by (apply (epochsFrom_prefix st0 (S k)); auto).
exact HS.
Qed.

(** The run of the loop: it makes [m] passes, none of the first [m] tests
    having passed, and stops on the test or on the budget. *)
Lemma epochLoop_spec (epochs : Z) (fuel : nat) :
  forall epoch st,
  (exists st', epochsFrom st fuel = Some st') ->
  exists m,
    (m <= fuel)%nat /\
    epochLoop E opts nSamples nFeatures nOutputs miniBatchSize epochs fuel epoch st
    = Some ((epoch + Z.of_nat m)%Z, stateOf st m) /\
    (forall i, (i < m)%nat ->
       st_converged E (stateOf st i) = false /\
       (epoch + Z.of_nat i <= epochs)%Z) /\
    (m = fuel \/ st_converged E (stateOf st m) = true \/
     (epochs < epoch + Z.of_nat m)%Z).
Proof.
induction fuel as [|fuel IH]; intros epoch st Hrun.
- exists 0%nat. cbn. rewrite Z.add_0_r.
  split; [lia |]. split; [reflexivity |].
  split; [intros i Hi; lia | left; reflexivity].
- cbn [epochLoop].
  destruct ((epoch <=? epochs)%Z && negb (st_converged E st)) eqn:Hc.
  + apply andb_true_iff in Hc. destruct Hc as [Hle Hnc].
    apply Z.leb_le in Hle. apply negb_true_iff in Hnc.
    destruct Hrun as [stn Hrun]. rewrite epochsFrom_succ_r in Hrun.
    destruct (body st) as [st1 |] eqn:Hb; [| discriminate]. cbn [bind] in Hrun.
    assert (Hshift : forall i, (i <= fuel)%nat -> stateOf st (S i) = stateOf st1 i).
    { intros i Hi. unfold stateOf. rewrite epochsFrom_succ_r, Hb. cbn [bind].
      destruct (epochsFrom_prefix st1 fuel (ex_intro _ stn Hrun) i Hi) as [s ->].
      reflexivity. }
    destruct (IH (epoch + 1)%Z st1 (ex_intro _ stn Hrun))
      as [m [Hm [Hloop [Hbefore Hstop]]]].
    exists (S m). split; [lia |]. split.
    * cbn [bind]. rewrite Hloop, Hshift by lia. do 2 f_equal. lia.
    * split.
      -- intros i Hi. destruct i as [|j]; [cbn; split; [exact Hnc | lia] |].
         rewrite Hshift by lia. destruct (Hbefore j ltac:(lia)). split; [auto | lia].
      -- rewrite Hshift by lia.
         destruct Hstop as [-> | [H | H]]; [left; reflexivity | right; left; exact H |].
         right. right. lia.
  + exists 0%nat. split; [lia |]. split; [cbn; now rewrite Z.add_0_r |].
    split; [intros i Hi; lia |].
    apply andb_false_iff in Hc. destruct Hc as [Hc | Hc].
    * apply Z.leb_gt in Hc. right. right. lia.
    * apply negb_false_iff in Hc. right. left. exact Hc.
Qed.






(** *** The runs that return *)

(** The shuffle permutes the rows of X and of Ytrue: it keeps the shapes. *)
Definition keepsShape : Prop :=
  forall g X Y,
    rows (snd (fst (MatShuffle E g X Y))) = rows X /\
    cols (snd (fst (MatShuffle E g X Y))) = cols X /\
    rows (snd (MatShuffle E g X Y)) = rows Y /\
    cols (snd (MatShuffle E g X Y)) = cols Y.

(** The data of a state has the shape that the loop has read off X and
    Ytrue. *)
Definition shaped (st : loopState E) : Prop :=
  rows (st_X E st) = nSamples /\ cols (st_X E st) = nFeatures /\
  cols (st_Ytrue E st) = nOutputs.

(** The windows of the mini-batches lie inside X and Ytrue: there is no
    sample, or Ytrue has a row for every sample and there is at least one
    feature and one output. *)
Definition windowsFit (st : loopState E) : Prop :=
  nSamples = 0%nat \/
  ((nSamples <= rows (st_Ytrue E st))%nat /\ (0 < nFeatures)%nat /\
   (0 < nOutputs)%nat).

Lemma miniBatchStep_total st miniBatch :
  shaped st -> windowsFit st -> (1 <= miniBatchSize)%Z -> (0 <= miniBatch)%Z ->
  (miniBatch * miniBatchSize < Z.of_nat nSamples)%Z ->
  exists st', step st miniBatch = Some st'.
Proof.
intros (S1 & S2 & S3) [W | (W1 & W2 & W3)] Hm Hb Hlt; [lia |].
unfold miniBatchStep. cbv zeta.
set (lo := (miniBatch * miniBatchSize)%Z).
set (hi := if (Z.of_nat nSamples <? lo + miniBatchSize)%Z
           then Z.of_nat nSamples else (lo + miniBatchSize)%Z).
assert (Hhi : (lo < hi <= Z.of_nat nSamples)%Z /\ (hi - lo <= miniBatchSize)%Z).
{ unfold hi. destruct (Z.ltb_spec (Z.of_nat nSamples) (lo + miniBatchSize)); lia. }
assert (Hlo : (0 <= lo)%Z) by (unfold lo; nia).
rewrite (slice_total (st_Ytrue E st)) by lia. cbn [bind].
rewrite (slice_total (st_X E st)) by lia. cbn [bind].
rewrite (slice_total (YpredMini nOutputs miniBatchSize))
  by (cbn [rows cols NewDense YpredMini]; lia).
cbn [bind].
rewrite (slice_total (YdiffMini nOutputs miniBatchSize))
  by (cbn [rows cols NewDense YdiffMini]; lia).
cbn [bind].
destruct (UpdateParams E _ _ _). eexists. reflexivity.
Qed.

Lemma miniBatches_total fuel :
  forall miniBatch st,
  shaped st -> windowsFit st -> (1 <= miniBatchSize)%Z -> (0 <= miniBatch)%Z ->
  exists st', batches fuel miniBatch st = Some st'.
Proof.
induction fuel as [|fuel IH]; intros miniBatch st HS HW Hm Hb; cbn [miniBatches].
- eexists. reflexivity.
- destruct (Z.ltb_spec (miniBatch * miniBatchSize) (Z.of_nat nSamples)) as [Hlt | Hge];
    [| eexists; reflexivity].
  destruct (miniBatchStep_total st miniBatch HS HW Hm Hb Hlt) as [st1 H1].
  rewrite H1. cbn [bind].
  pose proof (miniBatchStep_Some _ _ _ H1) as Hs.
  destruct (miniBatchRows miniBatch) as [lo hi].
  destruct Hs as (Ys & Xs & _ & _ & _ & _ & _ & _ & _ & _ & K3 & K4).
  apply IH; try lia.
  + unfold shaped in *. rewrite K3, K4. exact HS.
  + unfold windowsFit in *. rewrite K4. exact HW.
Qed.

(** A run of the mini-batches that returns, on at least one sample, has
    found every window inside X and Ytrue. *)
Lemma miniBatches_Some_fit fuel :
  forall miniBatch st st',
  batches fuel miniBatch st = Some st' ->
  shaped st -> (1 <= miniBatchSize)%Z -> (0 <= miniBatch)%Z ->
  (miniBatch * miniBatchSize < Z.of_nat nSamples)%Z ->
  (Z.of_nat nSamples <= (miniBatch + Z.of_nat fuel) * miniBatchSize)%Z ->
  windowsFit st.
Proof.
induction fuel as [|fuel IH]; intros miniBatch st st' H HS Hm Hb Hlt Hf; [lia |].
cbn [miniBatches] in H.
destruct (Z.ltb_spec (miniBatch * miniBatchSize) (Z.of_nat nSamples)) as [_ | Hge];
  [| lia].
inv_bind H. rename a into st1.
pose proof (miniBatchStep_Some _ _ _ Ha) as Hs. unfold miniBatchRows in Hs.
cbv zeta in Hs.
destruct Hs as (Ys & Xs & HY & HX & _ & HO & _ & _ & _ & _ & K3 & K4).
apply slice_Some in HY. destruct HY as (_ & Y2 & _ & _ & _).
apply slice_Some in HX. destruct HX as (_ & _ & X3 & _ & _).
destruct (Z_lt_le_dec ((miniBatch + 1) * miniBatchSize) (Z.of_nat nSamples))
  as [Hmore | Hlast].
- assert (HW1 : windowsFit st1).
  { apply (IH (miniBatch + 1)%Z st1 st' H); try lia.
    unfold shaped in *. rewrite K3, K4. exact HS. }
  unfold windowsFit in *. rewrite K4 in HW1. exact HW1.
- right. split; [| split; [lia | exact HO]].
  destruct (Z.ltb_spec (Z.of_nat nSamples) (miniBatch * miniBatchSize + miniBatchSize));
    lia.
Qed.

Lemma runEpoch_total st :
  keepsShape -> shaped st -> windowsFit st -> (1 <= miniBatchSize)%Z ->
  exists st', body st = Some st' /\ shaped st' /\ windowsFit st'.
Proof.
intros HK (S1 & S2 & S3) HW Hm. unfold runEpoch.
destruct (HK (st_rand E st) (st_X E st) (st_Ytrue E st)) as (K1 & K2 & K3 & K4).
destruct (MatShuffle E (st_rand E st) (st_X E st) (st_Ytrue E st)) as [[g X] Y].
cbn [fst snd] in K1, K2, K3, K4.
set (st0 := mkLoopState E g X Y (st_solver E st) (st_Theta E st)
              (thetaSliceBest E st) (st_grad E st) (st_J E st) (st_JBest E st)
              (st_rmse E st) (st_converged E st)).
assert (HS0 : shaped st0) by (unfold shaped, st0; cbn; repeat split; congruence).
assert (HW0 : windowsFit st0).
{ unfold windowsFit in *. unfold st0. cbn. rewrite K3. exact HW. }
destruct (miniBatches_total nSamples 0%Z st0 HS0 HW0 Hm ltac:(lia)) as [st1 H1].
rewrite H1. cbn [bind].
destruct (miniBatches_keeps _ _ _ _ H1) as (_ & _ & E3 & E4).
eexists. split; [reflexivity |]. split.
- unfold shaped in *. cbn. rewrite E3, E4. exact HS0.
- unfold windowsFit in *. cbn. rewrite E4. exact HW0.
Qed.

(** An epoch on at least one sample whose windows do not fit panics, in
    its first mini-batch or a later one. *)
Lemma runEpoch_panics st :
  keepsShape -> shaped st -> ~ windowsFit st -> (1 <= miniBatchSize)%Z ->
  body st = None.
Proof.
intros HK (S1 & S2 & S3) HW Hm. unfold runEpoch.
destruct (HK (st_rand E st) (st_X E st) (st_Ytrue E st)) as (K1 & K2 & K3 & K4).
destruct (MatShuffle E (st_rand E st) (st_X E st) (st_Ytrue E st)) as [[g X] Y].
cbn [fst snd] in K1, K2, K3, K4.
set (st0 := mkLoopState E g X Y (st_solver E st) (st_Theta E st)
              (thetaSliceBest E st) (st_grad E st) (st_J E st) (st_JBest E st)
              (st_rmse E st) (st_converged E st)).
destruct (batches nSamples 0%Z st0) as [st1 |] eqn:H1; [| reflexivity].
exfalso. apply HW.
destruct (Nat.eq_dec nSamples 0) as [H0 | H0]; [left; exact H0 |].
assert (HW0 : windowsFit st0).
{ apply (miniBatches_Some_fit nSamples 0%Z st0 st1 H1); try nia.
  unfold shaped, st0. cbn. repeat split; congruence. }
unfold windowsFit in *. unfold st0 in HW0. cbn in HW0. rewrite K3 in HW0.
exact HW0.
Qed.

Lemma epochsFrom_total st0 :
  keepsShape -> shaped st0 -> windowsFit st0 -> (1 <= miniBatchSize)%Z ->
  forall k, exists st, epochsFrom st0 k = Some st /\ shaped st /\ windowsFit st.
Proof.
intros HK HS HW Hm. induction k as [|k [st (H & HS' & HW')]].
- exists st0. split; [reflexivity | auto].
- rewrite epochsFrom_S, H. cbn [bind]. apply runEpoch_total; assumption.
Qed.

End Loop.

(** *** The fit by the training loop *)

Section TrainingLoop.

Variable E : Collaborators.
Variable g : Rand E.
Variable X Ytrue : Dense.
Variable opts : LinFitOptions E.
Variable s : Optimizer E.

(** The run of the first [k] epochs of the fit: the state at the end of
    epoch [k], or a panic. *)
Definition epochState (k : nat) : M (loopState E) :=
  epochsFrom E opts (rows X) (cols X) (cols Ytrue)
    (miniBatchSizeOf (MiniBatchSize E opts) (rows X))
    (startState E g X Ytrue opts s) k.

(** The state of the fit at the end of epoch [k], when the loop gets that
    far. *)
Definition stateAt (k : nat) : loopState E :=
  stateOf E opts (rows X) (cols X) (cols Ytrue)
    (miniBatchSizeOf (MiniBatchSize E opts) (rows X))
    (startState E g X Ytrue opts s) k.

(** The objective J of epoch [k]: the loss on the full dataset, at the Theta
    that the mini-batches of the epoch have left. *)
Definition objective (k : nat) : float64 :=
  lossJ (lossOf E opts (st_Ytrue E (stateAt k)) (st_X E (stateAt k))
           (st_Theta E (stateAt k)) true (Alpha E opts) (L1Ratio E opts)
           (rows X) (activationOf E opts)).

(** The mean squared error of epoch [k]: between Ytrue and the predictions
    of that evaluation of the loss on the full dataset. *)
Definition meanSquaredError (k : nat) : R :=
  At (MeanSquaredError E (st_Ytrue E (stateAt k))
        (lossYpred (lossOf E opts (st_Ytrue E (stateAt k)) (st_X E (stateAt k))
                      (st_Theta E (stateAt k)) true (Alpha E opts)
                      (L1Ratio E opts) (rows X) (activationOf E opts)))) 0 0.

(** The test [sqrt(RMSE) < tolerance], on the RMSE of epoch [k]. *)
Definition tolTest (k : nat) : bool :=
  flt (fsqrt (fsqrt (Finite (meanSquaredError k)))) (Tol E opts).

(** The data on which every window of the mini-batches lies inside X and
    Ytrue: at least one sample, a row of Ytrue for every row of X, and at
    least one column in each. *)
Definition sliceable : Prop :=
  (0 < rows X)%nat /\ (rows X <= rows Ytrue)%nat /\
  (0 < cols X)%nat /\ (0 < cols Ytrue)%nat.

Lemma startState_spec :
  let st := startState E g X Ytrue opts s in
  st_JBest E st = PosInf /\ st_converged E st = false /\
  thetaSliceBest E st = repeat 0 (cols X * cols Ytrue) /\
  st_rmse E st = PosInf /\ st_X E st = X /\ st_Ytrue E st = Ytrue.
Proof.
unfold startState. destruct (ThetaInitializer E opts) as [init |].
- cbn. repeat split.
- destruct (draws E (Float64 E) (cols X * cols Ytrue) g). cbn. repeat split.
Qed.

Lemma stateAt_0 : stateAt 0 = startState E g X Ytrue opts s.
Proof. reflexivity. Qed.

Lemma epochState_step k :
  (exists st, epochState (S k) = Some st) ->
  runEpoch E opts (rows X) (cols X) (cols Ytrue)
    (miniBatchSizeOf (MiniBatchSize E opts) (rows X)) (stateAt k)
  = Some (stateAt (S k)).
Proof. intros H. apply stateOf_step. exact H. Qed.

Lemma epochState_spec k :
  (exists st, epochState (S k) = Some st) ->
  st_J E (stateAt (S k)) = objective (S k) /\
  st_rmse E (stateAt (S k)) = fsqrt (Finite (meanSquaredError (S k))) /\
  st_converged E (stateAt (S k)) = tolTest (S k).
Proof.
intros H. unfold objective, meanSquaredError, tolTest.
destruct (runEpoch_spec E opts (rows X) (cols X) (cols Ytrue)
            (miniBatchSizeOf (MiniBatchSize E opts) (rows X)) _ _
            (epochState_step k H))
  as [HJ [_ [_ [Hr Hc]]]].
cbv zeta in HJ, Hr, Hc. unfold lossOnFullDataset in HJ, Hr.
rewrite Hc, Hr. auto.
Qed.

Lemma length_best k :
  (exists st, epochState k = Some st) ->
  List.length (thetaSliceBest E (stateAt k)) = (cols X * cols Ytrue)%nat.
Proof.
induction k as [|k IH]; intros H.
- rewrite stateAt_0.
  pose proof startState_spec as H0. cbv zeta in H0. destruct H0 as [_ [_ [H0 _]]].
  rewrite H0. apply repeat_length.
- destruct (runEpoch_spec E opts (rows X) (cols X) (cols Ytrue)
              (miniBatchSizeOf (MiniBatchSize E opts) (rows X)) _ _
              (epochState_step k H))
    as [_ [_ [Ht _]]].
  cbv zeta in Ht. rewrite Ht.
  assert (Hk : exists st, epochState k = Some st).
  { apply (epochsFrom_prefix E opts (rows X) (cols X) (cols Ytrue)
             (miniBatchSizeOf (MiniBatchSize E opts) (rows X)) _ (S k) H). lia. }
  destruct (flt _ _); [rewrite length_copy |]; exact (IH Hk).
Qed.

(** The fit by the training loop, once the budget is known and the epochs
    return: the loop, then the result built from the best-so-far. *)
Lemma LinFit_run (order : list nat) (B : Z) :
  GOMethodCreator E opts = None -> Solver E opts = Some s ->
  epochsOf (Epochs E opts) (rows X) = Some B ->
  (exists st, epochState (Z.to_nat B) = Some st) ->
  exists m,
    (Z.of_nat m <= Z.max 0 B)%Z /\
    LinFit E g order X Ytrue opts
    = Some (mkLinFitResult (st_converged E (stateAt m))
              (st_rmse E (stateAt m)) (st_JBest E (stateAt m))
              (1 + Z.of_nat m)
              (mkDense (cols X) (cols Ytrue) (thetaSliceBest E (stateAt m)))) /\
    (forall i, (i < m)%nat -> st_converged E (stateAt i) = false) /\
    (Z.of_nat m = Z.max 0 B \/ st_converged E (stateAt m) = true).
Proof.
intros Hg Hs HB Hrun. unfold LinFit. rewrite Hg, Hs. cbv beta iota zeta.
rewrite Hg, Hs, HB. cbn [bind].
destruct (epochLoop_spec E opts (rows X) (cols X) (cols Ytrue)
            (miniBatchSizeOf (MiniBatchSize E opts) (rows X)) B (Z.to_nat B) 1%Z
            (startState E g X Ytrue opts s) Hrun)
  as [m [Hm [Hloop [Hbefore Hstop]]]].
exists m. split; [lia |]. rewrite Hloop. cbn [bind]. fold (stateAt m).
unfold NewDenseOf. rewrite length_best, Nat.eqb_refl.
2:{ apply (epochsFrom_prefix E opts (rows X) (cols X) (cols Ytrue)
             (miniBatchSizeOf (MiniBatchSize E opts) (rows X)) _ _ Hrun). exact Hm. }
cbn [bind ret].
split; [reflexivity |]. split.
- intros i Hi. apply (Hbefore i Hi).
- destruct Hstop as [-> | [H | H]]; [left; lia | right; exact H | left; lia].
Qed.

(** On data of fitting shapes, and with a shuffle that keeps the shapes,
    every epoch returns. *)
Lemma epochState_total :
  keepsShape E -> sliceable ->
  forall k, exists st, epochState k = Some st.
Proof.
intros HK HS k.
pose proof startState_spec as H0. cbv zeta in H0.
destruct H0 as (_ & _ & _ & _ & HX & HY).
destruct (epochsFrom_total E opts (rows X) (cols X) (cols Ytrue)
            (miniBatchSizeOf (MiniBatchSize E opts) (rows X))
            (startState E g X Ytrue opts s) HK) with (k := k)
  as (st & H & _).
- unfold shaped. rewrite HX, HY. auto.
- unfold windowsFit. rewrite HY. right. unfold sliceable in HS. tauto.
- apply miniBatchSizeOf_pos.
- exists st. exact H.
Qed.

(** On data with a sample whose shapes do not fit, the fit panics in the
    first epoch: the shapes are needed for a result. *)
Lemma LinFit_panics (order : list nat) (B : Z) :
  GOMethodCreator E opts = None -> Solver E opts = Some s ->
  epochsOf (Epochs E opts) (rows X) = Some B -> (1 <= B)%Z ->
  keepsShape E -> (0 < rows X)%nat -> ~ sliceable ->
  LinFit E g order X Ytrue opts = None.
Proof.
intros Hg Hs HB Hpos HK Hrows HS.
pose proof startState_spec as H0. cbv zeta in H0.
destruct H0 as (_ & Hc0 & _ & _ & HX & HY).
unfold LinFit. rewrite Hg, Hs. cbv beta iota zeta.
rewrite Hg, Hs, HB. cbn [bind].
destruct (Z.to_nat B) as [| fuel] eqn:EB; [lia |].
cbn [epochLoop]. rewrite Hc0.
replace (1 <=? B)%Z with true by (symmetry; apply Z.leb_le; exact Hpos).
cbn [andb negb].
rewrite runEpoch_panics; [reflexivity | exact HK | | | apply miniBatchSizeOf_pos].
- unfold shaped. rewrite HX, HY. auto.
- unfold windowsFit. rewrite HY. intros [H | H]; [lia |].
  apply HS. unfold sliceable. tauto.
Qed.

(** C2. On data of fitting shapes (at least one sample, a row of Ytrue for
    every row of X, a column in each), with a shuffle that keeps the shapes
    and a positive epoch budget, the fit returns a result: the loop makes
    k >= 1 passes, every one of which returns, and stops on the first epoch
    whose test sqrt(RMSE) < tolerance passes, or on the budget.  RMSE is the
    square root of the mean squared error of the evaluation of the loss on
    the full dataset, so the test takes a second square root, and
    [Converged] is the outcome of the test on epoch k. *)
Theorem LinFit_stops (order : list nat) (B : Z) :
  GOMethodCreator E opts = None -> Solver E opts = Some s ->
  epochsOf (Epochs E opts) (rows X) = Some B -> (1 <= B)%Z ->
  keepsShape E -> sliceable ->
  exists res k,
    LinFit E g order X Ytrue opts = Some res /\
    (1 <= k)%nat /\ (Z.of_nat k <= B)%Z /\ Epoch res = (1 + Z.of_nat k)%Z /\
    (forall i, (i <= k)%nat -> exists st, epochState i = Some st) /\
    (forall i, (1 <= i < k)%nat -> tolTest i = false) /\
    (tolTest k = true \/ Z.of_nat k = B) /\
    Converged res = tolTest k /\
    RMSE res = fsqrt (Finite (meanSquaredError k)).
Proof.
intros Hg Hs HB Hpos HK HS.
pose proof (epochState_total HK HS) as Hall.
destruct (LinFit_run order B Hg Hs HB (Hall _)) as [m [Hm [Hrun [Hbefore Hstop]]]].
pose proof startState_spec as H0. cbv zeta in H0. destruct H0 as [_ [Hc0 _]].
assert (H1 : (1 <= m)%nat).
{ destruct m as [|m]; [| lia]. exfalso. destruct Hstop as [H | H]; [lia |].
  rewrite stateAt_0 in H. congruence. }
eexists. exists m. split; [exact Hrun |]. cbn [Epoch Converged RMSE].
split; [exact H1 |]. split; [lia |]. split; [reflexivity |].
split; [intros i _; apply Hall |].
destruct m as [|m]; [lia |].
destruct (epochState_spec m (Hall _)) as [_ [Hr Hc]].
split.
- intros i Hi. destruct i as [|i]; [lia |].
  destruct (epochState_spec i (Hall _)) as [_ [_ <-]]. apply Hbefore. lia.
- split; [| split; [exact Hc | exact Hr]].
  destruct Hstop as [H | H]; [right; lia | left; congruence].
Qed.



Lemma length_draws gen n : forall g0, List.length (fst (draws E gen n g0)) = n.
Proof.
induction n as [|n IH]; intros g0; cbn; [reflexivity |].
destruct (gen g0) as [x g1]. specialize (IH g1).
destruct (draws E gen n g1) as [l g2]. cbn in *. now rewrite IH.
Qed.


End TrainingLoop.

(** *** Runs on sample collaborators *)

(** Collaborators for the examples: a loss whose objective is [Jof Theta], a
    solver that adds one to every entry of Theta, and a minimizer that
    returns its start with the status that the method names. *)
Definition sampleLoss (Jof : Dense -> float64) : Loss unit :=
  fun Ytrue _ Theta _ _ _ _ _ =>
    mkLossOut (Jof Theta) Ytrue Ytrue (NewDense (rows Theta) (cols Theta)).

Definition sample (Jof : Dense -> float64) : Collaborators :=
  mkCollaborators unit (fun g => (0, g)) (fun g => (0, g))
    (fun g X Y => (g, X, Y)) unit tt (fun _ _ => NewDense 1 1)
    unit (fun s _ => s)
    (fun s theta _ =>
       (s, mkDense (rows theta) (cols theta) (map (fun x => x + 1) (data theta))))
    Status Success
    (fun _ x0 _ status => (Some (mkResult x0 0 1 status), false, x0))
    1%Z (sampleLoss Jof).

(** A fit by the training loop: one sample, one feature, one output, a
    budget of [epochs] epochs, Theta starting at zero. *)
Definition sampleOptions (Jof : Dense -> float64) (epochs : Z)
  : LinFitOptions (sample Jof) :=
  mkLinFitOptions (sample Jof) epochs 1 (Finite 0) (Some tt) 0 0 None None None
    (Some (fun T => T)) false.


Lemma sample_keepsShape Jof : keepsShape (sample Jof).
Proof. intros g X Y. cbn. auto. Qed.

Lemma sample_sliceable : sliceable (NewDense 1 1) (NewDense 1 1).
Proof. unfold sliceable. cbn. lia. Qed.

Lemma LinFit_stops_witness :
  exists res k,
    LinFit (sample (fun _ => Finite 1)) tt [] (NewDense 1 1) (NewDense 1 1)
      (sampleOptions (fun _ => Finite 1) 2) = Some res /\
    (1 <= k)%nat /\ Epoch res = (1 + Z.of_nat k)%Z /\
    Converged res
    = tolTest (sample (fun _ => Finite 1)) tt (NewDense 1 1) (NewDense 1 1)
        (sampleOptions (fun _ => Finite 1) 2) tt k.
Proof.
destruct (LinFit_stops (sample (fun _ => Finite 1)) tt (NewDense 1 1)
            (NewDense 1 1) (sampleOptions (fun _ => Finite 1) 2) tt [] 2)
  as [res [k [H [Hk [_ [He [_ [_ [_ [Hc _]]]]]]]]]];
  [reflexivity | reflexivity | reflexivity | lia | apply sample_keepsShape
  | apply sample_sliceable |].
exists res, k. auto.
Defined.



(** *** The fit through the minimizer, one output at a time *)

(** Whether the minimizer of a column reported no failure. *)
Definition columnOk (foret : nat * (option Result * bool * list R)) : bool :=
  match fst (fst (snd foret)) with
  | Some r => negb (isFailure (res_Status r))
  | None => false
  end.

Lemma receive_None sent : fold_left receive sent None = None.
Proof. induction sent as [|x sent IH]; [reflexivity | exact IH]. Qed.

(** The loop that receives the results does fold the statuses of the
    columns into a conjunction. *)
Lemma receive_converged sent :
  forall thetaM rmse epoch converged thetaM' rmse' epoch' converged',
  fold_left receive sent (Some (thetaM, rmse, epoch, converged))
  = Some (thetaM', rmse', epoch', converged') ->
  converged' = converged && forallb columnOk sent.
Proof.
induction sent as [|x sent IH]; intros thetaM rmse epoch converged
  thetaM' rmse' epoch' converged' H.
- cbn in H. injection H as _ _ _ <-. now rewrite andb_true_r.
- cbn [fold_left] in H. unfold receive at 2 in H. cbn [bind] in H.
  cbn [forallb]. unfold columnOk at 1.
  destruct (fst (fst (snd x))) as [r |].
  + apply IH in H. rewrite H. now rewrite andb_assoc.
  + rewrite receive_None in H. discriminate.
Qed.

(** C5, what the code does. On the per-output path the result says
    [Converged] whatever the minimizers of the columns reported: the
    conjunction of the statuses is overwritten by [err == nil], on an [err]
    that this path never assigns. *)
Theorem LinFitGOM_PerOutputFit_converged (E : Collaborators) (g : Rand E)
  (order : list nat) (X Ytrue : Dense) (opts : LinFitOptions E)
  (res : LinFitResult) :
  PerOutputFit E opts = true ->
  LinFitGOM E g order X Ytrue opts = Some res ->
  Converged res = true.
Proof.
intros HP H. unfold LinFitGOM in H.
destruct (GOMethodCreator E opts) as [create |]; [| discriminate].
inv_bind H. clear Ha.
destruct (draws E (NormFloat64 E) (cols X * cols Ytrue) g) as [theta g'].
rewrite HP in H. inv_bind H. destruct a0 as [[[thetaM rmse] epoch] converged].
unfold ret in H. injection H as <-. reflexivity.
Qed.

(** Two columns whose minimizers both report [Failure]: the fit returns and
    says [Converged]. *)
Definition failingOptions : LinFitOptions (sample (fun _ => Finite 0)) :=
  mkLinFitOptions (sample (fun _ => Finite 0)) 1 1 (Finite 0) None 0 0 None None
    (Some (fun _ => Failure)) None true.

Lemma LinFitGOM_PerOutputFit_converged_witness :
  exists res,
    LinFitGOM (sample (fun _ => Finite 0)) tt [1%nat; 0%nat] (NewDense 1 1)
      (NewDense 1 2) failingOptions = Some res /\
    Converged res = true /\
    forallb columnOk
      (map (fitOutput (sample (fun _ => Finite 0)) failingOptions (NewDense 1 1)
              (NewDense 1 2) (NewDense 1 2) 1 (fun _ => Failure))
         [1%nat; 0%nat]) = false.
Proof.
eexists. split; [reflexivity |]. split; [| reflexivity].
eapply (LinFitGOM_PerOutputFit_converged (sample (fun _ => Finite 0)) tt
          [1%nat; 0%nat] (NewDense 1 1) (NewDense 1 2) failingOptions);
  reflexivity.
Defined.

End linearModelFacts.

(** ** The sample generator *)

Module datasetsFacts.
Import mat matFacts datasets.

Section MakeRegression.

Variable Rand : Type.
Variable NormFloat64 : Rand -> R * Rand.

Local Notation "'kwargs'" := (kwargs Rand) (only parsing).

(** The integer argument [k], or its default. *)
Definition intOf (kw : kwargs) (k : string) (default : Z) : Z :=
  match lookup Rand kw k with
  | Some (VInt _ n) => n
  | _ => default
  end.

(** The bias of target [yj]: a [float64] for every target, row 0 of a
    matrix, or the entry of a slice; no bias when the argument is absent or
    of another type. *)
Definition biasOf (kw : kwargs) (yj : nat) : R :=
  match lookup Rand kw "bias" with
  | Some (VFloat64 _ vv) => vv
  | Some (VMatrix _ vv) => At vv 0 yj
  | Some (VFloats _ vv) => nth yj vv 0
  | _ => 0
  end.

(** The product of row [i] of [a] and column [j] of [b], over the first [k]
    indices. *)
Definition dot (a b : Dense) (i j k : nat) : R :=
  fold_right Rplus 0 (map (fun l => At a i l * At b l j) (seq 0 k)).

Lemma intArg_Some kw k d n : intArg Rand kw k d = Some n -> n = intOf kw k d.
Proof.
unfold intArg, intOf. destruct (lookup Rand kw k) as [[]|]; intros H;
  try discriminate; now injection H.
Qed.

Lemma newDense_Some r c m :
  newDense r c = Some m ->
  (0 <= r)%Z /\ (0 <= c)%Z /\ m = NewDense (Z.to_nat r) (Z.to_nat c).
Proof.
unfold newDense. intros H. inv_bind H. apply assert_Some in Ha.
apply andb_true_iff in Ha. destruct Ha as [Hr Hc].
apply Z.leb_le in Hr. apply Z.leb_le in Hc.
unfold ret in H. injection H as <-. auto.
Qed.

Lemma fill_Some rnd m g m' g' :
  fill Rand rnd m g = Some (m', g') -> rows m' = rows m /\ cols m' = cols m.
Proof.
unfold fill. intros H. inv_bind H. destruct a as [l g1].
unfold ret in H. injection H as <- _. auto.
Qed.

Lemma slice0_Some X k l Xs :
  slice0 X k l = Some Xs ->
  (0 < k <= Z.of_nat (rows X))%Z /\ (0 < l <= Z.of_nat (cols X))%Z /\
  Xs = Slice X 0 (Z.to_nat k) 0 (Z.to_nat l).
Proof.
unfold slice0. intros H. inv_bind H. apply assert_Some in Ha.
repeat rewrite andb_true_iff in Ha. destruct Ha as [[[H1 H2] H3] H4].
apply Z.ltb_lt in H1, H3. apply Z.leb_le in H2, H4.
unfold ret in H. injection H as <-. auto.
Qed.

Lemma At_Slice0 X k l i j :
  (i < k)%nat -> (j < l)%nat -> At (Slice X 0 k 0 l) i j = At X i j.
Proof.
intros Hi Hj. unfold Slice. rewrite At_tabulate by lia. reflexivity.
Qed.

Lemma At_Mul a b i j :
  (i < rows a)%nat -> (j < cols b)%nat ->
  At (Mul a b) i j = dot a b i j (cols a).
Proof. intros Hi Hj. unfold Mul. now rewrite At_tabulate. Qed.

Lemma dot_ext a a' b i j k :
  (forall l, (l < k)%nat -> At a i l = At a' i l) ->
  dot a b i j k = dot a' b i j k.
Proof.
intros H. unfold dot. f_equal. apply map_ext_in. intros l Hl.
apply in_seq in Hl. rewrite H by lia. reflexivity.
Qed.

Lemma biasAt_Some kw v yj x :
  lookup Rand kw "bias" = Some v -> biasAt Rand v yj = Some x ->
  x = biasOf kw yj.
Proof.
intros Hl. unfold biasOf. rewrite Hl. unfold biasAt.
destruct v; intros H; try (now injection H);
  inv_bind H; unfold ret in H; now injection H.
Qed.

Lemma biases_Some kw v :
  lookup Rand kw "bias" = Some v ->
  forall n start b,
  biases Rand v (seq start n) = Some b ->
  forall j, (j < n)%nat -> nth j b 0 = biasOf kw (start + j).
Proof.
intros Hl. induction n as [|n IH]; intros start b H j Hj; [lia |].
cbn [seq biases] in H. inv_bind H. inv_bind H. unfold ret in H.
injection H as <-. destruct j as [|j].
- cbn. rewrite Nat.add_0_r. eapply biasAt_Some; eauto.
- cbn [nth]. rewrite (IH _ _ Ha0 j) by lia. f_equal. lia.
Qed.

(** The shapes and the contents of what a call that returns gives. *)
Lemma MakeRegression_product (global : Rand) (kw : kwargs) (X y Coef : Dense) :
  MakeRegression Rand NormFloat64 global kw = Some (X, y, Coef) ->
  let nSamples := intOf kw "n_samples" 100 in
  let nFeatures := intOf kw "n_features" 100 in
  let nTargets := intOf kw "n_targets" 1 in
  let k := Z.min (intOf kw "n_informative" 10) nFeatures in
  Dims X = (Z.to_nat nSamples, Z.to_nat nFeatures) /\
  Dims y = (Z.to_nat nSamples, Z.to_nat nTargets) /\
  Dims Coef = (Z.to_nat k, Z.to_nat nTargets) /\
  forall i j, (i < rows y)%nat -> (j < cols y)%nat ->
    At y i j = dot X Coef i j (Z.to_nat k) + biasOf kw j.
Proof.
intros H. unfold MakeRegression in H. cbv zeta in H.
inv_bind H. apply intArg_Some in Ha. rename a into nS.
inv_bind H. apply intArg_Some in Ha0. rename a into nF.
inv_bind H. apply intArg_Some in Ha1. rename a into nI.
inv_bind H. apply intArg_Some in Ha2. rename a into nT.
inv_bind H. apply newDense_Some in Ha3. destruct Ha3 as [HnS [HnF ->]].
cbn [negb] in H.
inv_bind H. apply newDense_Some in Ha3. destruct Ha3 as [_ [HnT ->]].
inv_bind H. apply newDense_Some in Ha3. destruct Ha3 as [HnI [_ ->]].
inv_bind H. destruct a as [X1 g1]. apply fill_Some in Ha3. destruct Ha3 as [HXr HXc].
inv_bind H. destruct a as [C1 g2]. apply fill_Some in Ha3. destruct Ha3 as [HCr HCc].
inv_bind H. apply slice0_Some in Ha3. destruct Ha3 as [[H1 H2] [[H3 H4] ->]].
inv_bind H. clear Ha3 a.
inv_bind H. rename a into y1. rename Ha3 into Hbias.
unfold ret in H. injection H as <- <- <-.
cbv zeta. rewrite <- Ha, <- Ha0, <- Ha1, <- Ha2.
set (k := if (nF <? nI)%Z then nF else nI) in *.
assert (Hk : k = Z.min nI nF).
{ unfold k. destruct (Z.ltb_spec nF nI); lia. }
rewrite <- Hk.
cbn [rows cols NewDense] in HXr, HXc, HCr, HCc.
assert (Hy : rows y1 = Z.to_nat nS /\ cols y1 = Z.to_nat nT /\
             forall i j, (i < rows y1)%nat -> (j < cols y1)%nat ->
               At y1 i j = dot X1 C1 i j (Z.to_nat k) + biasOf kw j).
{ assert (Hmul : forall i j, (i < Z.to_nat nS)%nat -> (j < Z.to_nat nT)%nat ->
            At (Mul (Slice X1 0 (Z.to_nat nS) 0 (Z.to_nat k)) C1) i j
            = dot X1 C1 i j (Z.to_nat k)).
  { intros i j Hi Hj. rewrite At_Mul by (cbn; lia). cbn [cols Slice tabulate].
    rewrite Nat.sub_0_r. apply dot_ext. intros l Hl. apply At_Slice0; lia. }
  destruct (lookup Rand kw "bias") as [v |] eqn:Hb.
  - unfold addBias in Hbias.
    destruct (IsEmpty (Mul (Slice X1 0 (Z.to_nat nS) 0 (Z.to_nat k)) C1)) eqn:He.
    + unfold ret in Hbias. injection Hbias as <-. cbn [rows cols Mul tabulate Slice].
      rewrite Nat.sub_0_r, HCc. split; [reflexivity |]. split; [reflexivity |].
      intros i j Hi Hj. exfalso. unfold IsEmpty in He.
      cbn [rows cols Mul tabulate Slice] in He. rewrite Nat.sub_0_r, HCc in He.
      apply orb_true_iff in He. destruct He as [He | He];
        apply Nat.eqb_eq in He; lia.
    + inv_bind Hbias. rename Ha3 into Hb4. unfold ret in Hbias. injection Hbias as <-.
      cbn [rows cols Mul tabulate Slice]. rewrite Nat.sub_0_r, HCc.
      split; [reflexivity |]. split; [reflexivity |].
      intros i j Hi Hj. rewrite At_tabulate by assumption.
      rewrite Hmul by assumption. f_equal.
      cbn [rows cols Mul tabulate Slice] in Hb4. rewrite HCc in Hb4.
      apply (biases_Some kw v Hb _ 0%nat a Hb4 j Hj).
  - unfold ret in Hbias. injection Hbias as <-. cbn [rows cols Mul tabulate Slice].
    rewrite Nat.sub_0_r, HCc. split; [reflexivity |]. split; [reflexivity |].
    intros i j Hi Hj. rewrite Hmul by assumption. unfold biasOf. rewrite Hb. ring. }
destruct Hy as [Hyr [Hyc Hyat]].
unfold Dims. rewrite HXr, HXc, HCr, HCc, Hyr, Hyc.
split; [reflexivity |]. split; [reflexivity |]. split; [reflexivity |].
intros i j Hi Hj. apply Hyat; [rewrite Hyr | rewrite Hyc]; assumption.
Qed.


Lemma fillRow_total c :
  forall g, exists l g',
    fillRow Rand (fun g => ret (NormFloat64 g)) c g = Some (l, g').
Proof.
induction c as [|c IH]; intros g; cbn [fillRow].
- eexists _, _. reflexivity.
- cbn [bind ret]. destruct (NormFloat64 g) as [x g1].
  destruct (IH g1) as [l [g2 ->]]. cbn. eexists _, _. reflexivity.
Qed.

Lemma fill_total m g :
  exists m' g', fill Rand (fun g => ret (NormFloat64 g)) m g = Some (m', g').
Proof.
unfold fill.
assert (H : forall r g0, exists l g',
          fillRows Rand (fun g => ret (NormFloat64 g)) r (cols m) g0
          = Some (l, g')).
{ induction r as [|r IH]; intros g0; cbn [fillRows].
  - eexists _, _. reflexivity.
  - destruct (fillRow_total (cols m) g0) as [row [g1 ->]]. cbn [bind].
    destruct (IH g1) as [l [g2 ->]]. cbn. eexists _, _. reflexivity. }
destruct (H (rows m) g) as [l [g' ->]]. cbn. eexists _, _. reflexivity.
Qed.

Lemma biases_total v n :
  (forall j, (j < n)%nat -> exists x, biasAt Rand v j = Some x) ->
  forall len start, (start + len <= n)%nat ->
  exists b, biases Rand v (seq start len) = Some b.
Proof.
intros Hv. induction len as [|len IH]; intros start Hs; cbn [seq biases].
- eexists. reflexivity.
- destruct (Hv start ltac:(lia)) as [x ->]. cbn [bind].
  destruct (IH (S start) ltac:(lia)) as [b ->]. cbn. eexists. reflexivity.
Qed.

(** The arguments on which the call returns: integers where integers are
    read, dimensions above zero, a generator where one is read, and a bias
    with an entry for every target. *)
Definition wellFormed (kw : kwargs) : Prop :=
  let nTargets := intOf kw "n_targets" 1 in
  (forall k, In k ["n_samples"; "n_features"; "n_informative"; "n_targets"]%string ->
     lookup Rand kw k = None \/ exists n, lookup Rand kw k = Some (VInt Rand n)) /\
  (0 < intOf kw "n_samples" 100)%Z /\ (0 < intOf kw "n_features" 100)%Z /\
  (0 < intOf kw "n_informative" 10)%Z /\ (0 <= nTargets)%Z /\
  (lookup Rand kw "random_state" = None \/
   exists r, lookup Rand kw "random_state" = Some (VRand Rand r)) /\
  (forall vv, lookup Rand kw "bias" = Some (VMatrix Rand vv) ->
     (0 < rows vv)%nat /\ (Z.to_nat nTargets <= cols vv)%nat) /\
  (forall vv, lookup Rand kw "bias" = Some (VFloats Rand vv) ->
     (Z.to_nat nTargets <= List.length vv)%nat).

Lemma intArg_wellFormed kw k d :
  lookup Rand kw k = None \/ (exists n, lookup Rand kw k = Some (VInt Rand n)) ->
  intArg Rand kw k d = Some (intOf kw k d).
Proof.
unfold intArg, intOf. intros [-> | [n ->]]; reflexivity.
Qed.

Lemma MakeRegression_returns (global : Rand) (kw : kwargs) :
  wellFormed kw ->
  exists X y Coef, MakeRegression Rand NormFloat64 global kw = Some (X, y, Coef).
Proof.
intros [Hint [HS [HF [HI [HT [Hrand [HbM HbF]]]]]]].
unfold MakeRegression. cbv zeta.
rewrite !intArg_wellFormed by (apply Hint; cbn; tauto). cbn [bind].
set (nS := intOf kw "n_samples" 100) in *.
set (nF := intOf kw "n_features" 100) in *.
set (nI := intOf kw "n_informative" 10) in *.
set (nT := intOf kw "n_targets" 1) in *.
set (k := if (nF <? nI)%Z then nF else nI).
assert (Hk : (0 < k <= nF)%Z) by (unfold k; destruct (Z.ltb_spec nF nI); lia).
assert (Hrnd : (match lookup Rand kw "random_state" with
                | None => fun g => ret (NormFloat64 g)
                | Some (VRand _ _) => fun g => ret (NormFloat64 g)
                | Some _ => fun _ => panic
                end) = (fun g => ret (NormFloat64 g))).
{ destruct Hrand as [-> | [r ->]]; reflexivity. }
rewrite Hrnd. clear Hrnd.
unfold newDense.
rewrite !assert_true by (apply andb_true_iff; split; apply Z.leb_le; lia).
cbn [bind ret negb].
match goal with
| |- context [fill Rand ?f ?m ?g] =>
    destruct (fill_total m g) as [X1 [g1 HX]];
    pose proof (fill_Some _ _ _ _ _ HX) as [HXr HXc]; rewrite HX
end.
cbn [bind].
match goal with
| |- context [fill Rand ?f ?m ?g] =>
    destruct (fill_total m g) as [C1 [g2 HC]];
    pose proof (fill_Some _ _ _ _ _ HC) as [HCr HCc]; rewrite HC
end.
cbn [bind]. cbn [rows cols NewDense] in HXr, HXc, HCr, HCc.
unfold slice0. rewrite assert_true
  by (rewrite HXr, HXc, !andb_true_iff; repeat split;
      (apply Z.ltb_lt || apply Z.leb_le); lia).
cbn [bind ret]. unfold chkdims_dot. rewrite assert_true
  by (cbn [rows cols Slice tabulate NewDense];
      rewrite HCr, HCc, !Nat.sub_0_r, !Nat.eqb_refl; reflexivity).
cbn [bind].
set (y0 := Mul (Slice X1 0 (Z.to_nat nS) 0 (Z.to_nat k)) C1).
assert (Hyc : cols y0 = Z.to_nat nT) by exact HCc.
destruct (lookup Rand kw "bias") as [v |] eqn:Hb;
  [| cbn; eexists _, _, _; reflexivity].
unfold addBias. destruct (IsEmpty y0); [cbn; eexists _, _, _; reflexivity |].
destruct (biases_total v (cols y0)) with (len := cols y0) (start := 0%nat)
  as [b ->]; [| lia | cbn; eexists _, _, _; reflexivity].
intros j Hj. destruct v; cbn [biasAt]; try (eexists; reflexivity).
- pose proof (HbF l eq_refl) as Hl.
  rewrite assert_true by (apply Nat.ltb_lt; lia).
  cbn. eexists. reflexivity.
- destruct (HbM m eq_refl) as [Hr Hc].
  rewrite assert_true
    by (apply andb_true_iff; split; apply Nat.ltb_lt; lia).
  cbn. eexists. reflexivity.
Qed.

(** C9. On well-formed arguments the call returns, and every call that
    returns gives X of shape n_samples x n_features, y of shape
    n_samples x n_targets and Coef of shape k x n_targets, where
    k = min(n_informative, n_features) is the effective number of
    informative features; and y is the product of the first k columns of X
    with Coef, plus the bias of the target: a [float64] bias for every
    target, the entry of a slice or of row 0 of a matrix per target. *)
Theorem MakeRegression_spec (global : Rand) (kw : kwargs) :
  let nSamples := intOf kw "n_samples" 100 in
  let nFeatures := intOf kw "n_features" 100 in
  let nTargets := intOf kw "n_targets" 1 in
  let k := Z.min (intOf kw "n_informative" 10) nFeatures in
  (wellFormed kw ->
   exists X y Coef, MakeRegression Rand NormFloat64 global kw = Some (X, y, Coef)) /\
  (forall X y Coef,
     MakeRegression Rand NormFloat64 global kw = Some (X, y, Coef) ->
     Dims X = (Z.to_nat nSamples, Z.to_nat nFeatures) /\
     Dims y = (Z.to_nat nSamples, Z.to_nat nTargets) /\
     Dims Coef = (Z.to_nat k, Z.to_nat nTargets) /\
     forall i j, (i < Z.to_nat nSamples)%nat -> (j < Z.to_nat nTargets)%nat ->
       At y i j = dot X Coef i j (Z.to_nat k) + biasOf kw j).
Proof.
intros nSamples nFeatures nTargets k. split.
- intros Hwf. apply MakeRegression_returns. exact Hwf.
- intros X y Coef H.
  destruct (MakeRegression_product global kw X y Coef H) as (HX & Hy & HC & Hat).
  cbv zeta in HX, Hy, HC, Hat. fold nSamples nFeatures nTargets k in HX, Hy, HC, Hat.
  split; [exact HX |]. split; [exact Hy |]. split; [exact HC |].
  intros i j Hi Hj. unfold Dims in Hy. injection Hy as Hr Hc.
  apply Hat; [rewrite Hr | rewrite Hc]; assumption.
Qed.

End MakeRegression.

(** A call on two samples, three features, five informative features asked
    for and a [float64] bias. *)
Definition sampleKwargs : datasets.kwargs nat :=
  [("n_samples", VInt nat 2); ("n_features", VInt nat 3);
   ("n_informative", VInt nat 5); ("bias", VFloat64 nat 7)]%string.

(** A call on two samples and three features of which two are informative,
    with a [float64] bias. *)
Definition twoInformative : datasets.kwargs nat :=
  [("n_samples", VInt nat 2); ("n_features", VInt nat 3);
   ("n_informative", VInt nat 2); ("bias", VFloat64 nat 7)]%string.

Lemma twoInformative_wellFormed : wellFormed nat twoInformative.
Proof.
unfold wellFormed. cbv zeta.
split; [| split; [| split; [| split; [| split; [| split; [| split]]]]]].
- intros k Hk. cbn [In] in Hk.
  destruct Hk as [<- | [<- | [<- | [<- | []]]]];
    try (right; eexists; reflexivity); left; reflexivity.
- reflexivity.
- reflexivity.
- reflexivity.
- discriminate.
- left. reflexivity.
- intros vv H. discriminate H.
- intros vv H. discriminate H.
Qed.

Lemma MakeRegression_spec_witness :
  exists X y Coef,
    MakeRegression nat (fun g => (INR g, S g)) 0%nat twoInformative
    = Some (X, y, Coef) /\
    Dims X = (2%nat, 3%nat) /\ Dims y = (2%nat, 1%nat) /\
    Dims Coef = (2%nat, 1%nat) /\
    forall i j, (i < 2)%nat -> (j < 1)%nat ->
      At y i j = dot X Coef i j 2 + 7.
Proof.
destruct (MakeRegression_spec nat (fun g => (INR g, S g)) 0%nat twoInformative)
  as [Hreturns Hspec].
destruct (Hreturns twoInformative_wellFormed) as (X & y & Coef & H).
exists X, y, Coef. split; [exact H |].
exact (Hspec X y Coef H).
Defined.

End datasetsFacts.


(** ** The update rules, continued *)

Module baseRules.
Import mat base matFacts baseFacts.

(** The steps of a successful [GetUpdate], one by one. *)
Lemma GetUpdate_inv s update grad s' u :
  GetUpdate s update grad = Some (s', u) ->
  exists g2 s3 u3 prev,
    let sa := allocate s grad in
    let s1 := set_GtNorm (set_TimeStep sa (TimeStep sa + 1)) g2 in
    clipNorms (set_TimeStep sa (TimeStep sa + 1)) grad = Some s1 /\
    variantUpdate s1 (StepSize sa * 100 / (100 + (TimeStep sa + 1))) update grad
    = Some (s3, u3) /\
    PrevUpdate s3 = Some prev /\ rows prev = rows grad /\ cols prev = cols grad /\
    s' = set_PrevUpdate s3 (Some (Clone u)) /\
    u = (if Rltb 0 (Momentum s3)
         then Apply (fun j o updjo => Momentum s3 * At prev j o + updjo) u3
         else u3).
Proof.
unfold GetUpdate. intros H.
inv_bind H. rename a into s2. inv_bind H. destruct a as [s3 u3].
inv_bind H. rename a into prev. unfold ret in H. injection H as <- <-.
destruct (clipNorms_set _ _ _ Ha) as [g2 E]. subst s2.
apply buffer_Some in Ha1. destruct Ha1 as [Hprev [Hpr Hpc]].
exists g2, s3, u3, prev. cbv zeta.
split; [exact Ha |]. split; [exact Ha0 |]. split; [exact Hprev |].
split; [exact Hpr |]. split; [exact Hpc |]. split; reflexivity.
Qed.

Ltac params_of H :=
  destruct H as (HSS & HMo & HGC & HGa & HEp & HAg & HAd & HRm & HAm & HNF &
                 HNO & HB1 & HB2 & HlO & HTh & HUp).

Definition names : list string := ["sgd"; "adagrad"; "adadelta"; "rmsprop"; "adam"]%string.

(** X1.  [NewOptimizer] returns exactly on the five lower-case names sgd,
    adagrad, adadelta, rmsprop and adam, and panics on every other string.
    The optimizer it returns has the variant flag of its name and no other,
    has counted no step, and has neither Theta nor the Update buffer. *)
Theorem NewOptimizer_names (name : string) :
  match NewOptimizer name with
  | Some s =>
      In name names /\
      Adagrad s = String.eqb name "adagrad" /\
      Adadelta s = String.eqb name "adadelta" /\
      RMSProp s = String.eqb name "rmsprop" /\
      Adam s = String.eqb name "adam" /\
      TimeStep s = 0 /\ Theta s = None /\ Update s = None
  | None => ~ In name names
  end.
Proof.
unfold NewOptimizer, names.
destruct (String.eqb_spec name "sgd") as [-> | H1];
  [simpl; intuition |].
destruct (String.eqb_spec name "adagrad") as [-> | H2];
  [simpl; intuition |].
destruct (String.eqb_spec name "adadelta") as [-> | H3];
  [simpl; intuition |].
destruct (String.eqb_spec name "rmsprop") as [-> | H4];
  [simpl; intuition |].
destruct (String.eqb_spec name "adam") as [-> | H5];
  [simpl; intuition |].
simpl. intros [E | [E | [E | [E | [E | []]]]]]; congruence.
Qed.

Lemma lazyInit_frame s r c :
  (GradientClipping s <= 0 -> GtNorm (lazyInit s r c) = GtNorm s) /\
  (Adagrad s || RMSProp s || Adadelta s = false ->
   AdagradG (lazyInit s r c) = AdagradG s) /\
  (Adadelta s = false -> AdadeltaU (lazyInit s r c) = AdadeltaU s) /\
  (Adam s = false ->
   Mt (lazyInit s r c) = Mt s /\ Vt (lazyInit s r c) = Vt s /\
   Mtcap (lazyInit s r c) = Mtcap s /\ Vtcap (lazyInit s r c) = Vtcap s).
Proof.
destruct s. unfold lazyInit. simpl.
split; [| split; [| split]].
- intros Hc. rewrite (Rltb_false _ _ Hc). simpl. case_if; reflexivity.
- intros Hf. destruct Adagrad0, RMSProp0, Adadelta0; try discriminate Hf;
    simpl; case_if; reflexivity.
- intros ->. case_if; reflexivity.
- intros ->. case_if; repeat split; reflexivity.
Qed.

Lemma variantUpdate_frame s eta update grad s' u :
  variantUpdate s eta update grad = Some (s', u) ->
  (Adagrad s || RMSProp s || Adadelta s = false -> AdagradG s' = AdagradG s) /\
  (Adadelta s = false -> AdadeltaU s' = AdadeltaU s) /\
  (Adam s = false ->
   Mt s' = Mt s /\ Vt s' = Vt s /\ Mtcap s' = Mtcap s /\ Vtcap s' = Vtcap s).
Proof.
unfold variantUpdate, updateRMSProp, updateAdagrad, updateAdadelta, updateAdam,
  updateSGD.
intros H.
destruct (RMSProp s) eqn:ER; [| destruct (Adagrad s) eqn:EG;
  [| destruct (Adadelta s) eqn:ED; [| destruct (Adam s) eqn:EA]]];
  repeat inv_bind H; unfold ret in H; injection H as <- <-; simpl;
  (split; [| split]); intros Hf; try discriminate;
  repeat split; try reflexivity;
  destruct (Adagrad s); discriminate.
Qed.

(** X3.  A [GetUpdate] call that returns leaves the buffers of the rules
    that are off as they were: GtNorm without gradient clipping, AdagradG
    unless Adagrad, RMSProp or Adadelta is set, AdadeltaU unless Adadelta is
    set, and Mt, Vt, Mtcap and Vtcap unless Adam is set.  The plain rule
    allocates the previous update only. *)
Theorem GetUpdate_inactive_buffers (s : SGDOptimizer) (update grad : Dense)
  (s' : SGDOptimizer) (u : Dense) :
  GetUpdate s update grad = Some (s', u) ->
  (GradientClipping s <= 0 -> GtNorm s' = GtNorm s) /\
  (Adagrad s || RMSProp s || Adadelta s = false -> AdagradG s' = AdagradG s) /\
  (Adadelta s = false -> AdadeltaU s' = AdadeltaU s) /\
  (Adam s = false ->
   Mt s' = Mt s /\ Vt s' = Vt s /\ Mtcap s' = Mtcap s /\ Vtcap s' = Vtcap s).
Proof.
intros H. destruct (GetUpdate_inv _ _ _ _ _ H)
  as (g2 & s3 & u3 & prev & Hc & Hv & _ & _ & _ & Es & _).
cbv zeta in Hc, Hv.
pose proof (sameParams_allocate s grad) as Hp. params_of Hp.
assert (Hal :
  (GradientClipping s <= 0 -> GtNorm (allocate s grad) = GtNorm s) /\
  (Adagrad s || RMSProp s || Adadelta s = false ->
   AdagradG (allocate s grad) = AdagradG s) /\
  (Adadelta s = false -> AdadeltaU (allocate s grad) = AdadeltaU s) /\
  (Adam s = false ->
   Mt (allocate s grad) = Mt s /\ Vt (allocate s grad) = Vt s /\
   Mtcap (allocate s grad) = Mtcap s /\ Vtcap (allocate s grad) = Vtcap s)).
{ unfold allocate. cbn [Dims]. destruct (Reqb (TimeStep s) 0).
  - apply lazyInit_frame.
  - repeat split; reflexivity. }
destruct Hal as (A1 & A2 & A3 & A4).
destruct (variantUpdate_frame _ _ _ _ _ _ Hv) as (V1 & V2 & V3).
destruct (variantUpdate_keeps _ _ _ _ _ _ Hv) as (_ & _ & VG & _).
cbn [Adagrad RMSProp Adadelta Adam AdagradG AdadeltaU Mt Vt Mtcap Vtcap GtNorm
     set_GtNorm set_TimeStep] in V1, V2, V3, VG.
rewrite HAg, HRm, HAd in V1. rewrite HAd in V2. rewrite HAm in V3.
subst s'. cbn [set_PrevUpdate GtNorm AdagradG AdadeltaU Mt Vt Mtcap Vtcap].
split; [| split; [| split]].
- intros Hle. rewrite VG, <- (A1 Hle).
  unfold clipNorms in Hc. cbn [GradientClipping set_TimeStep] in Hc.
  rewrite HGC, (Rltb_false _ _ Hle) in Hc. unfold ret in Hc.
  apply (f_equal (fun m => match m with Some x => GtNorm x | None => None end))
    in Hc.
  cbn [GtNorm set_GtNorm set_TimeStep] in Hc. symmetry. exact Hc.
- intros Hf. rewrite (V1 Hf). apply (A2 Hf).
- intros Hf. rewrite (V2 Hf). apply (A3 Hf).
- intros Hf. destruct (V3 Hf) as (-> & -> & -> & ->). apply (A4 Hf).
Qed.

Lemma GetUpdate_inactive_buffers_witness :
  exists s' u,
    GetUpdate NewSGDOptimizer (NewDense 1 1) (mkDense 1 1 [1]) = Some (s', u) /\
    GtNorm s' = None /\ AdagradG s' = None /\ AdadeltaU s' = None /\
    Mt s' = None /\ Vt s' = None /\ Mtcap s' = None /\ Vtcap s' = None.
Proof.
destruct (GetUpdate_total NewSGDOptimizer (NewDense 1 1) (mkDense 1 1 [1]))
  as (s' & u & H & _); [left; reflexivity | reflexivity | reflexivity |].
exists s', u. split; [exact H |].
destruct (GetUpdate_inactive_buffers _ _ _ _ _ H) as (A1 & A2 & A3 & A4).
split; [apply A1; simpl; lra |]. split; [apply A2; reflexivity |].
split; [apply A3; reflexivity |]. apply A4. reflexivity.
Defined.

(** The hyper-parameters and the variant of an optimizer. *)
Definition sameSettings (s s' : SGDOptimizer) : Prop :=
  StepSize s' = StepSize s /\ Momentum s' = Momentum s /\
  GradientClipping s' = GradientClipping s /\
  RMSPropGamma s' = RMSPropGamma s /\ Epsilon s' = Epsilon s /\
  Beta1 s' = Beta1 s /\ Beta2 s' = Beta2 s /\
  Adagrad s' = Adagrad s /\ Adadelta s' = Adadelta s /\
  RMSProp s' = RMSProp s /\ Adam s' = Adam s /\
  NFeatures s' = NFeatures s /\ NOutputs s' = NOutputs s.

Lemma sameSettings_UpdateParams s grad s' :
  UpdateParams s grad = Some s' -> sameSettings s s'.
Proof.
unfold UpdateParams. cbn [Dims].
set (s0 := match Update s with
           | None => set_Update s (Some (NewDense (rows grad) (cols grad)))
           | Some _ => s
           end).
assert (E0 : sameSettings s s0).
{ unfold s0. destruct (Update s); unfold sameSettings; simpl;
    repeat split; reflexivity. }
destruct (Update s0) as [u0|]; [| discriminate].
intros H. inv_bind H. destruct a as [s1 u1].
apply GetUpdate_keeps in Ha. destruct Ha as [Hp _]. params_of Hp.
destruct (Theta (set_Update s1 (Some u1))) as [theta|]; [| discriminate].
inv_bind H. unfold ret in H. injection H as <-.
unfold sameSettings in *. cbn [StepSize Momentum GradientClipping RMSPropGamma
  Epsilon Beta1 Beta2 Adagrad Adadelta RMSProp Adam NFeatures NOutputs
  set_Theta set_Update].
destruct E0 as (E1 & E2 & E3 & E4 & E5 & E6 & E7 & E8 & E9 & E10 & E11 & E12 & E13).
repeat split; congruence.
Qed.

(** X2.  A run of [UpdateParams] calls that returns leaves the
    hyper-parameters (step size, momentum, clipping threshold, gamma,
    epsilon, beta1, beta2), the four variant flags and the stored shape
    as they were. *)
Theorem updates_keep_settings (grads : list Dense) :
  forall s s', updates s grads = Some s' -> sameSettings s s'.
Proof.
induction grads as [| g grads IH]; intros s s' H.
- unfold updates, ret in H. injection H as <-.
  unfold sameSettings. repeat split; reflexivity.
- cbn [updates] in H. inv_bind H.
  apply sameSettings_UpdateParams in Ha. apply IH in H.
  unfold sameSettings in *.
  destruct Ha as (E1 & E2 & E3 & E4 & E5 & E6 & E7 & E8 & E9 & E10 & E11 & E12 & E13).
  destruct H as (F1 & F2 & F3 & F4 & F5 & F6 & F7 & F8 & F9 & F10 & F11 & F12 & F13).
  repeat split; congruence.
Qed.

Lemma updates_keep_settings_witness :
  exists s',
    updates (SetTheta NewAdagradOptimizer (NewDense 1 1))
      [mkDense 1 1 [1]; mkDense 1 1 [2]] = Some s' /\
    sameSettings (SetTheta NewAdagradOptimizer (NewDense 1 1)) s'.
Proof.
destruct (updates_total 1 1 [mkDense 1 1 [1]; mkDense 1 1 [2]]
            (SetTheta NewAdagradOptimizer (NewDense 1 1)) 0)
  as (s' & H & _).
- reflexivity.
- left. reflexivity.
- apply hasShape_Some; reflexivity.
- left. reflexivity.
- repeat constructor.
- exists s'. split; [exact H |].
  exact (updates_keep_settings _ _ _ H).
Defined.

(** X4.  On an optimizer whose Update buffer is still nil, [UpdateParams]
    with a gradient whose shape is not the shape of Theta panics. *)
Theorem UpdateParams_shape_mismatch (s : SGDOptimizer) (grad theta : Dense) :
  Theta s = Some theta -> Update s = None -> sameDims theta grad = false ->
  UpdateParams s grad = None.
Proof.
intros HT HU HD. unfold UpdateParams. cbn [Dims]. rewrite HU.
cbn [Update set_Update].
destruct (GetUpdate _ _ grad) as [[s1 u1]|] eqn:HG; [| reflexivity].
cbn [bind].
destruct (GetUpdate_keeps _ _ _ _ _ HG) as [Hp _]. params_of Hp.
destruct (GetUpdate_inv _ _ _ _ _ HG)
  as (g2 & s3 & u3 & prev & _ & Hv & _ & _ & _ & _ & Eu).
cbv zeta in Hv.
destruct (variantUpdate_keeps _ _ _ _ _ _ Hv) as (_ & _ & _ & _ & Hr & Hc).
assert (Hd : rows u1 = rows grad /\ cols u1 = cols grad).
{ subst u1. destruct (Rltb 0 (Momentum s3)); [| tauto].
  unfold Apply. rewrite rows_tabulate, cols_tabulate. tauto. }
cbn [Theta set_Update]. rewrite HTh. cbn [Theta set_Update]. rewrite HT.
replace (sameDims theta u1) with (sameDims theta grad);
  [rewrite HD; reflexivity |].
unfold sameDims. destruct Hd as [-> ->]. reflexivity.
Qed.

Lemma UpdateParams_shape_mismatch_witness :
  UpdateParams (SetTheta NewSGDOptimizer (NewDense 2 1)) (mkDense 1 2 [1; 1])
  = None.
Proof.
apply (UpdateParams_shape_mismatch _ _ (NewDense 2 1)); reflexivity.
Defined.

(** The momentum term of a call. *)
Definition momentumTerm (s : SGDOptimizer) (prev : Dense) (j o : nat) : R :=
  if Rltb 0 (Momentum s) then Momentum s * At prev j o else 0.

Ltac at_apply :=
  rewrite ?At_Apply
    by (unfold Apply; rewrite ?rows_tabulate, ?cols_tabulate; congruence).

(** The entries of the update and of the accumulator after a call of the
    Adagrad rule. *)
Lemma Adagrad_step (s : SGDOptimizer) (update grad : Dense)
  (s' : SGDOptimizer) (u : Dense) :
  Adagrad s = true -> RMSProp s = false ->
  GetUpdate s update grad = Some (s', u) ->
  exists G0 prev0 G,
    AdagradG (allocate s grad) = Some G0 /\
    PrevUpdate (allocate s grad) = Some prev0 /\
    AdagradG s' = Some G /\
    forall j o, (j < rows grad)%nat -> (o < cols grad)%nat ->
      let g := gradientClipped s' grad j o in
      At G j o = At G0 j o + g * g /\
      At u j o
      = momentumTerm s prev0 j o
        + - (if Rltb 1 (TimeStep s + 1)
             then StepSize s / (sqrt (At G0 j o) + Epsilon s)
             else StepSize s) * g.
Proof.
intros HG HR H.
destruct (GetUpdate_inv _ _ _ _ _ H)
  as (g2 & s3 & u3 & prev & _ & Hv & Hprev & Hpr & Hpc & Es & Eu).
cbv zeta in Hv.
pose proof (sameParams_allocate s grad) as Hp. params_of Hp.
pose proof (TimeStep_allocate s grad) as Ht0.
unfold variantUpdate in Hv.
cbn [RMSProp Adagrad set_GtNorm set_TimeStep] in Hv.
rewrite HRm, HAg, HR, HG in Hv. unfold updateAdagrad in Hv.
inv_bind Hv. rename a into G0. apply buffer_Some in Ha.
destruct Ha as (HG0 & HGr & HGc).
inv_bind Hv. clear Ha a. unfold ret in Hv. injection Hv as <- <-.
cbn in HG0, Hprev.
exists G0, prev. eexists.
split; [exact HG0 |]. split; [exact Hprev |].
split; [subst s'; reflexivity |].
intros j o Hj Ho. cbv zeta. subst s'. clear H.
set (gc := gradientClipped _ grad j o).
change (gradientClipped _ grad j o) with gc.
unfold momentumTerm. subst u.
cbn [Momentum StepSize Epsilon TimeStep set_AdagradG set_GtNorm set_TimeStep].
rewrite HMo, HSS, HEp, Ht0.
split.
- at_apply. reflexivity.
- destruct (Rltb 0 (Momentum s)); at_apply; cbv zeta;
    change (gradientClipped _ grad j o) with gc; ring.
Qed.

(** X5.  The Adagrad rule (Adagrad set, RMSProp not): the accumulator
    gains the square of the clipped gradient, so that no entry ever
    decreases, and the update is -eta*g with eta the step size divided by
    sqrt(G)+Epsilon for the accumulator G before the call, and the bare step
    size at the first step; the momentum term is added to it. *)
Theorem Adagrad_update (s : SGDOptimizer) (update grad : Dense)
  (s' : SGDOptimizer) (u : Dense) :
  Adagrad s = true -> RMSProp s = false ->
  GetUpdate s update grad = Some (s', u) ->
  exists G0 prev0 G,
    AdagradG (allocate s grad) = Some G0 /\
    PrevUpdate (allocate s grad) = Some prev0 /\
    AdagradG s' = Some G /\
    forall j o, (j < rows grad)%nat -> (o < cols grad)%nat ->
      let g := gradientClipped s' grad j o in
      At G j o = At G0 j o + g * g /\
      At G0 j o <= At G j o /\
      At u j o
      = momentumTerm s prev0 j o
        + - (if Rltb 1 (TimeStep s + 1)
             then StepSize s / (sqrt (At G0 j o) + Epsilon s)
             else StepSize s) * g.
Proof.
intros HG HR H.
destruct (Adagrad_step _ _ _ _ _ HG HR H) as (G0 & prev0 & G & H1 & H2 & H3 & H4).
exists G0, prev0, G. repeat (split; [assumption |]).
intros j o Hj Ho. destruct (H4 j o Hj Ho) as [E1 E2]. cbv zeta in *.
split; [exact E1 |]. split; [| exact E2].
rewrite E1. nra.
Qed.

Lemma Adagrad_update_witness :
  exists s' u G0 G,
    GetUpdate NewAdagradOptimizer (NewDense 1 1) (mkDense 1 1 [2]) = Some (s', u) /\
    AdagradG (allocate NewAdagradOptimizer (mkDense 1 1 [2])) = Some G0 /\
    AdagradG s' = Some G /\ At G0 0 0 <= At G 0 0.
Proof.
destruct (GetUpdate_total NewAdagradOptimizer (NewDense 1 1) (mkDense 1 1 [2]))
  as (s' & u & H & _); [left; reflexivity | reflexivity | reflexivity |].
destruct (Adagrad_update NewAdagradOptimizer _ _ _ _ eq_refl eq_refl H)
  as (G0 & prev0 & G & H1 & _ & H3 & H4).
exists s', u, G0, G. split; [exact H |]. split; [exact H1 |].
split; [exact H3 |].
destruct (H4 0%nat 0%nat) as (_ & Hle & _); [simpl; lia | simpl; lia |].
exact Hle.
Defined.

(** X6.  The RMSProp rule: the accumulator becomes
    gamma*G + (1-gamma)*g^2, which lies between G and g^2 for gamma in
    [0, 1], and the update is -eta*g, where eta is the step size divided by
    sqrt(G+Epsilon) when the step count after the call exceeds 1 and
    |G| > 1, and the bare step size otherwise, for the accumulator G before
    the call. *)
Theorem RMSProp_update (s : SGDOptimizer) (update grad : Dense)
  (s' : SGDOptimizer) (u : Dense) :
  RMSProp s = true ->
  GetUpdate s update grad = Some (s', u) ->
  exists G0 prev0 G,
    AdagradG (allocate s grad) = Some G0 /\
    PrevUpdate (allocate s grad) = Some prev0 /\
    AdagradG s' = Some G /\
    forall j o, (j < rows grad)%nat -> (o < cols grad)%nat ->
      let g := gradientClipped s' grad j o in
      At G j o = At G0 j o * RMSPropGamma s + (1 - RMSPropGamma s) * g * g /\
      (0 <= RMSPropGamma s <= 1 ->
       Rmin (At G0 j o) (g * g) <= At G j o <= Rmax (At G0 j o) (g * g)) /\
      At u j o
      = momentumTerm s prev0 j o
        + - (if Rltb 1 (TimeStep s + 1) && Rltb 1 (Rabs (At G0 j o))
             then StepSize s / sqrt (At G0 j o + Epsilon s)
             else StepSize s) * g.
Proof.
intros HR H.
destruct (GetUpdate_inv _ _ _ _ _ H)
  as (g2 & s3 & u3 & prev & _ & Hv & Hprev & Hpr & Hpc & Es & Eu).
cbv zeta in Hv.
pose proof (sameParams_allocate s grad) as Hp. params_of Hp.
pose proof (TimeStep_allocate s grad) as Ht0.
unfold variantUpdate in Hv.
cbn [RMSProp set_GtNorm set_TimeStep] in Hv.
rewrite HRm, HR in Hv. unfold updateRMSProp in Hv.
inv_bind Hv. rename a into G0. apply buffer_Some in Ha.
destruct Ha as (HG0 & HGr & HGc).
inv_bind Hv. clear Ha a. unfold ret in Hv. injection Hv as <- <-.
cbn in HG0, Hprev.
exists G0, prev. eexists.
split; [exact HG0 |]. split; [exact Hprev |].
split; [subst s'; reflexivity |].
intros j o Hj Ho. cbv zeta. subst s'. clear H.
set (gc := gradientClipped _ grad j o).
unfold momentumTerm. subst u.
cbn [Momentum StepSize Epsilon TimeStep RMSPropGamma set_AdagradG set_GtNorm
     set_TimeStep].
assert (EG : At (Apply (fun j o v =>
               v * RMSPropGamma (allocate s grad)
               + (1 - RMSPropGamma (allocate s grad))
                 * gradientClipped (set_GtNorm (set_TimeStep (allocate s grad)
                     (TimeStep (allocate s grad) + 1)) g2) grad j o
                 * gradientClipped (set_GtNorm (set_TimeStep (allocate s grad)
                     (TimeStep (allocate s grad) + 1)) g2) grad j o) G0) j o
             = At G0 j o * RMSPropGamma s + (1 - RMSPropGamma s) * gc * gc).
{ at_apply. change (gradientClipped _ grad j o) with gc. rewrite HGa. reflexivity. }
split; [exact EG |]. split.
- intros Hg. rewrite EG. clear EG.
  assert (0 <= gc * gc) by nra.
  unfold Rmin, Rmax.
  destruct (Rle_dec (At G0 j o) (gc * gc)); split; nra.
- clear EG. rewrite HMo, HSS, HEp, Ht0.
  destruct (Rltb 0 (Momentum s)); at_apply; cbv zeta;
    change (gradientClipped _ grad j o) with gc; ring.
Qed.

Lemma RMSProp_update_witness :
  exists s' u G0 G,
    GetUpdate NewRMSPropOptimizer (NewDense 1 1) (mkDense 1 1 [2]) = Some (s', u) /\
    AdagradG (allocate NewRMSPropOptimizer (mkDense 1 1 [2])) = Some G0 /\
    AdagradG s' = Some G /\
    At G 0 0 = At G0 0 0 * (9 / 10)
               + (1 - 9 / 10) * gradientClipped s' (mkDense 1 1 [2]) 0 0
                 * gradientClipped s' (mkDense 1 1 [2]) 0 0.
Proof.
destruct (GetUpdate_total NewRMSPropOptimizer (NewDense 1 1) (mkDense 1 1 [2]))
  as (s' & u & H & _); [left; reflexivity | reflexivity | reflexivity |].
destruct (RMSProp_update NewRMSPropOptimizer _ _ _ _ eq_refl H)
  as (G0 & prev0 & G & H1 & _ & H3 & H4).
exists s', u, G0, G. split; [exact H |]. split; [exact H1 |].
split; [exact H3 |].
destruct (H4 0%nat 0%nat) as (E & _); [simpl; lia | simpl; lia |].
exact E.
Defined.

(** X7.  The Adadelta rule (Adadelta set, RMSProp and Adagrad not): G
    becomes gamma*G + (1-gamma)*g^2; the step is -eta*g with eta =
    sqrt(U)/sqrt(G+Epsilon) on the new G and the old U, and the decayed
    step size StepSize*100/(100+t) at the first step; U becomes
    gamma*U + (1-gamma)*step^2 on the step before the momentum term, which
    is added to give the update. *)
Theorem Adadelta_update (s : SGDOptimizer) (update grad : Dense)
  (s' : SGDOptimizer) (u : Dense) :
  Adadelta s = true -> RMSProp s = false -> Adagrad s = false ->
  GetUpdate s update grad = Some (s', u) ->
  exists G0 U0 prev0 G U,
    AdagradG (allocate s grad) = Some G0 /\
    AdadeltaU (allocate s grad) = Some U0 /\
    PrevUpdate (allocate s grad) = Some prev0 /\
    AdagradG s' = Some G /\ AdadeltaU s' = Some U /\
    forall j o, (j < rows grad)%nat -> (o < cols grad)%nat ->
      let g := gradientClipped s' grad j o in
      let step :=
        - (if Rltb 1 (TimeStep s + 1)
           then sqrt (At U0 j o) / sqrt (At G j o + Epsilon s)
           else StepSize s * 100 / (100 + (TimeStep s + 1))) * g in
      At G j o = RMSPropGamma s * At G0 j o + (1 - RMSPropGamma s) * g * g /\
      At U j o = RMSPropGamma s * At U0 j o + (1 - RMSPropGamma s) * step * step /\
      At u j o = momentumTerm s prev0 j o + step.
Proof.
intros HD HR HG H.
destruct (GetUpdate_inv _ _ _ _ _ H)
  as (g2 & s3 & u3 & prev & _ & Hv & Hprev & Hpr & Hpc & Es & Eu).
cbv zeta in Hv.
pose proof (sameParams_allocate s grad) as Hp. params_of Hp.
pose proof (TimeStep_allocate s grad) as Ht0.
unfold variantUpdate in Hv.
cbn [RMSProp Adagrad Adadelta set_GtNorm set_TimeStep] in Hv.
rewrite HRm, HAg, HAd, HR, HG, HD in Hv. unfold updateAdadelta in Hv.
inv_bind Hv. rename a into G0. apply buffer_Some in Ha.
destruct Ha as (HG0 & HGr & HGc).
inv_bind Hv. rename a into U0. apply buffer_Some in Ha.
destruct Ha as (HU0 & HUr & HUc).
inv_bind Hv. clear Ha a. unfold ret in Hv. injection Hv as <- <-.
cbn in HG0, HU0, Hprev.
exists G0, U0, prev. do 2 eexists.
split; [exact HG0 |]. split; [exact HU0 |]. split; [exact Hprev |].
split; [subst s'; reflexivity |]. split; [subst s'; reflexivity |].
intros j o Hj Ho. cbv zeta. subst s'. clear H.
set (gc := gradientClipped _ grad j o).
unfold momentumTerm. subst u.
cbn [Momentum StepSize Epsilon TimeStep RMSPropGamma set_AdagradG set_AdadeltaU
     set_GtNorm set_TimeStep].
split; [| split].
- at_apply. change (gradientClipped _ grad j o) with gc. rewrite HGa. reflexivity.
- at_apply. cbv zeta. at_apply.
  change (gradientClipped _ grad j o) with gc.
  rewrite HGa, HSS, HEp, Ht0. reflexivity.
- rewrite HMo.
  destruct (Rltb 0 (Momentum s)); at_apply; cbv zeta; at_apply;
    change (gradientClipped _ grad j o) with gc;
    rewrite ?HSS, ?HEp, ?Ht0, ?HGa; ring.
Qed.

Lemma Adadelta_update_witness :
  exists s' u G0 U0 G U,
    GetUpdate NewAdadeltaOptimizer (NewDense 1 1) (mkDense 1 1 [2]) = Some (s', u) /\
    AdagradG (allocate NewAdadeltaOptimizer (mkDense 1 1 [2])) = Some G0 /\
    AdadeltaU (allocate NewAdadeltaOptimizer (mkDense 1 1 [2])) = Some U0 /\
    AdagradG s' = Some G /\ AdadeltaU s' = Some U /\
    At G 0 0 = 9 / 10 * At G0 0 0
               + (1 - 9 / 10) * gradientClipped s' (mkDense 1 1 [2]) 0 0
                 * gradientClipped s' (mkDense 1 1 [2]) 0 0.
Proof.
destruct (GetUpdate_total NewAdadeltaOptimizer (NewDense 1 1) (mkDense 1 1 [2]))
  as (s' & u & H & _); [left; reflexivity | reflexivity | reflexivity |].
destruct (Adadelta_update NewAdadeltaOptimizer _ _ _ _ eq_refl eq_refl eq_refl H)
  as (G0 & U0 & prev0 & G & U & H1 & H2 & _ & H3 & H4 & H5).
exists s', u, G0, U0, G, U. split; [exact H |]. split; [exact H1 |].
split; [exact H2 |]. split; [exact H3 |]. split; [exact H4 |].
destruct (H5 0%nat 0%nat) as (E & _); [simpl; lia | simpl; lia |].
exact E.
Defined.

(** Clipping rescales a column by a positive factor: the clipped entry has
    the sign of the entry. *)
Lemma gradientClipped_sign s grad j o :
  0 <= gradientClipped s grad j o * At grad j o.
Proof.
unfold gradientClipped. cbv zeta.
destruct (Rltb 0 (GradientClipping s)) eqn:E1;
  [destruct (Rltb (GradientClipping s) (GtNormAt s o)) eqn:E2 |]; simpl;
  try nra.
apply Rltb_spec in E1. apply Rltb_spec in E2.
assert (0 < GradientClipping s / GtNormAt s o).
{ apply Rdiv_lt_0_compat; lra. }
nra.
Qed.

(** X8.  Two plain-rule calls in a row: every entry of the second update
    is Momentum times the entry of the first update, when Momentum is
    positive, plus the fresh step -eta*g/sqrt(t) with t the step count after
    the second call and eta = StepSize*100/(100+t). *)
Theorem SGD_momentum_chain (s : SGDOptimizer) (update1 update2 grad1 grad2 : Dense)
  (s1 s2 : SGDOptimizer) (u1 u2 : Dense) :
  Adam s = false -> RMSProp s = false -> Adagrad s = false ->
  Adadelta s = false -> 0 <= TimeStep s ->
  GetUpdate s update1 grad1 = Some (s1, u1) ->
  GetUpdate s1 update2 grad2 = Some (s2, u2) ->
  forall j o, (j < rows grad2)%nat -> (o < cols grad2)%nat ->
    At u2 j o
    = momentumTerm s u1 j o
      + - (StepSize s * 100 / (100 + (TimeStep s + 2)))
        * gradientClipped s2 grad2 j o / sqrt (1 * (TimeStep s + 2)).
Proof.
intros HA HR HG HD Ht H1 H2 j o Hj Ho.
destruct (GetUpdate_keeps _ _ _ _ _ H1) as [Hp Ht1]. params_of Hp.
destruct (SGD_update _ _ _ _ _ HA HR HG HD H1) as (p0 & _ & Hprev1 & _).
assert (HA1 : Adam s1 = false) by congruence.
assert (HR1 : RMSProp s1 = false) by congruence.
assert (HG1 : Adagrad s1 = false) by congruence.
assert (HD1 : Adadelta s1 = false) by congruence.
destruct (SGD_update _ _ _ _ _ HA1 HR1 HG1 HD1 H2) as (p1 & Hp1 & _ & Hu2).
rewrite allocate_started in Hp1 by (rewrite Ht1; lra).
rewrite Hprev1 in Hp1. injection Hp1 as <-.
rewrite (Hu2 j o Hj Ho). unfold momentumTerm.
rewrite HMo, HSS, Ht1, At_Clone.
replace (TimeStep s + 1 + 1) with (TimeStep s + 2) by ring.
reflexivity.
Qed.

Lemma SGD_momentum_chain_witness :
  exists s1 u1 s2 u2,
    GetUpdate NewSGDOptimizer (NewDense 1 1) (mkDense 1 1 [1]) = Some (s1, u1) /\
    GetUpdate s1 u1 (mkDense 1 1 [3]) = Some (s2, u2) /\
    At u2 0 0
    = momentumTerm NewSGDOptimizer u1 0 0
      + - (StepSize NewSGDOptimizer * 100 / (100 + (TimeStep NewSGDOptimizer + 2)))
        * gradientClipped s2 (mkDense 1 1 [3]) 0 0
        / sqrt (1 * (TimeStep NewSGDOptimizer + 2)).
Proof.
destruct (GetUpdate_total NewSGDOptimizer (NewDense 1 1) (mkDense 1 1 [1]))
  as (s1 & u1 & H1 & Hal & Hr & Hc);
  [left; reflexivity | reflexivity | reflexivity |].
destruct (GetUpdate_total s1 u1 (mkDense 1 1 [3]))
  as (s2 & u2 & H2 & _); [right; exact Hal | exact Hr | exact Hc |].
exists s1, u1, s2, u2. split; [exact H1 |]. split; [exact H2 |].
apply (SGD_momentum_chain NewSGDOptimizer (NewDense 1 1) u1 (mkDense 1 1 [1])
         (mkDense 1 1 [3]) s1 s2 u1 u2);
  try reflexivity; try assumption; simpl; try lra; lia.
Defined.

(** X9.  Without momentum, the plain rule and the Adagrad rule move
    against the gradient: for a non-negative step size, a positive Epsilon and
    a non-negative step count, every entry of the update times the entry of
    the gradient is at most 0, with or without gradient clipping. *)
Theorem update_opposes_gradient (s : SGDOptimizer) (update grad : Dense)
  (s' : SGDOptimizer) (u : Dense) :
  RMSProp s = false -> Adadelta s = false -> Adam s = false ->
  Momentum s <= 0 -> 0 <= StepSize s -> 0 < Epsilon s -> 0 <= TimeStep s ->
  GetUpdate s update grad = Some (s', u) ->
  forall j o, (j < rows grad)%nat -> (o < cols grad)%nat ->
    At u j o * At grad j o <= 0.
Proof.
intros HR HD HA HM HS HE Ht H j o Hj Ho.
pose proof (gradientClipped_sign s' grad j o) as Hsg.
destruct (Adagrad s) eqn:HG.
- destruct (Adagrad_step _ _ _ _ _ HG HR H) as (G0 & prev0 & G & _ & _ & _ & Hu).
  destruct (Hu j o Hj Ho) as [_ ->]. unfold momentumTerm.
  rewrite (Rltb_false _ _ HM).
  set (eta := if Rltb 1 (TimeStep s + 1)
              then StepSize s / (sqrt (At G0 j o) + Epsilon s) else StepSize s).
  assert (0 <= eta).
  { unfold eta. destruct (Rltb 1 (TimeStep s + 1)); [| exact HS].
    pose proof (sqrt_pos (At G0 j o)).
    apply Rmult_le_pos; [exact HS |]. left. apply Rinv_0_lt_compat. lra. }
  nra.
- destruct (SGD_update _ _ _ _ _ HA HR HG HD H) as (prev0 & _ & _ & Hu).
  rewrite (Hu j o Hj Ho). rewrite (Rltb_false _ _ HM).
  set (eta := StepSize s * 100 / (100 + (TimeStep s + 1))).
  assert (0 <= eta).
  { unfold eta. apply Rmult_le_pos; [lra |]. left. apply Rinv_0_lt_compat. lra. }
  assert (0 < / sqrt (1 * (TimeStep s + 1))).
  { apply Rinv_0_lt_compat. apply sqrt_lt_R0. lra. }
  unfold Rdiv.
  set (k := / sqrt (1 * (TimeStep s + 1))) in *.
  set (g := gradientClipped s' grad j o) in *.
  assert (0 <= eta * k) by (apply Rmult_le_pos; lra).
  replace ((0 + - eta * g * k) * At grad j o)
    with (- ((eta * k) * (g * At grad j o))) by ring.
  assert (0 <= (eta * k) * (g * At grad j o)) by (apply Rmult_le_pos; assumption).
  lra.
Qed.

Lemma update_opposes_gradient_witness :
  exists s' u,
    GetUpdate NewAdagradOptimizer (NewDense 1 1) (mkDense 1 1 [2]) = Some (s', u) /\
    At u 0 0 * At (mkDense 1 1 [2]) 0 0 <= 0.
Proof.
destruct (GetUpdate_total NewAdagradOptimizer (NewDense 1 1) (mkDense 1 1 [2]))
  as (s' & u & H & _); [left; reflexivity | reflexivity | reflexivity |].
exists s', u. split; [exact H |].
apply (update_opposes_gradient NewAdagradOptimizer (NewDense 1 1)
         (mkDense 1 1 [2]) s' u); try reflexivity; try exact H; simpl; try lra; lia.
Defined.

End baseRules.


(** ** SGDOptimizer as an optimize.Method *)

Module optimizeMethodFacts.
Import mat base matFacts baseFacts baseRules optimizeMethod.

Section Method.

Variable FuncEvaluation GradEvaluation MajorIteration : Z.

Local Abbreviation Init := (Init FuncEvaluation GradEvaluation).
Local Abbreviation Iterate := (Iterate FuncEvaluation GradEvaluation MajorIteration).
Local Abbreviation iterates := (iterates FuncEvaluation GradEvaluation MajorIteration).
Local Abbreviation evaluate := (Z.lor FuncEvaluation GradEvaluation).

(** X10.  [Init] on an optimizer whose NOutputs is 0, as every
    constructor leaves it until [SetTheta] is called: however many times it
    is called, it returns no operation and no error, stores the length
    of [loc.X] as NFeatures, leaves NOutputs at 0 and does not allocate the
    Update buffer. *)
Theorem Init_without_shape (s : SGDOptimizer) (locs : list Location)
  (loc : Location) :
  NOutputs s = 0%nat ->
  let s' := fold_left (fun st l => fst (fst (Init st l))) locs s in
  Init s' loc = (set_shape s' (len (loc_X loc)) 0, NoOperation, false) /\
  Update s' = Update s /\ NOutputs s' = 0%nat.
Proof.
intros H0. cbv zeta. revert s H0.
assert (Hone : forall s l, NOutputs s = 0%nat ->
          Init s l = (set_shape s (len (loc_X l)) 0, NoOperation, false)).
{ intros s l H. unfold optimizeMethod.Init. rewrite H.
  rewrite Bool.orb_true_r. reflexivity. }
induction locs as [| l locs IH]; intros s H0.
- simpl. split; [apply Hone; exact H0 |]. split; [reflexivity | exact H0].
- cbn [fold_left]. rewrite (Hone s l H0). cbn [fst].
  destruct (IH (set_shape s (len (loc_X l)) 0) eq_refl) as (E1 & E2 & E3).
  split; [exact E1 |]. split; [exact E2 | exact E3].
Qed.

(** X11.  [Init] on an optimizer with a non-zero shape: when [loc.X] has
    NFeatures or NFeatures*NOutputs values it returns the evaluation request
    FuncEvaluation|GradEvaluation without error, with NOutputs reset to 1 in
    the first case, and a zero Update buffer of the stored shape, whose
    size is the length of [loc.X]; on any other length it returns an
    error and no operation and leaves the optimizer as it was. *)
Theorem Init_with_shape (s : SGDOptimizer) (loc : Location) :
  NFeatures s <> 0%nat -> NOutputs s <> 0%nat ->
  let n := len (loc_X loc) in
  let '(s', op, err) := Init s loc in
  if Nat.eqb n (NFeatures s) || Nat.eqb n (NFeatures s * NOutputs s)
  then err = false /\ op = evaluate /\
       NFeatures s' = NFeatures s /\
       NOutputs s' = (if Nat.eqb n (NFeatures s) then 1%nat else NOutputs s) /\
       (NFeatures s' * NOutputs s')%nat = n /\
       Update s' = Some (NewDense (NFeatures s') (NOutputs s'))
  else err = true /\ op = NoOperation /\ s' = s.
Proof.
intros HF HO. cbv zeta. unfold optimizeMethod.Init.
apply Nat.eqb_neq in HF, HO. rewrite HF, HO. cbn [orb].
destruct (Nat.eqb (len (loc_X loc)) (NFeatures s)) eqn:E1.
- cbn [orb NFeatures NOutputs set_shape]. rewrite Nat.mul_1_r, E1. cbn [negb].
  apply Nat.eqb_eq in E1.
  cbn [NFeatures NOutputs Update set_Update set_shape].
  repeat split; try reflexivity. rewrite Nat.mul_1_r. symmetry. exact E1.
- cbn [orb].
  destruct (Nat.eqb (len (loc_X loc)) (NFeatures s * NOutputs s)) eqn:E2;
    cbn [negb].
  + apply Nat.eqb_eq in E2.
    cbn [NFeatures NOutputs Update set_Update set_shape].
    repeat split; try reflexivity. symmetry. exact E2.
  + repeat split; reflexivity.
Qed.

(** A slice of the location that a matrix of shape r x c can view: nil, or
    of r*c values. *)
Definition fits (r c : nat) (d : option (list R)) : Prop :=
  match d with
  | None => True
  | Some l => List.length l = (r * c)%nat
  end.

Lemma denseOver_fits r c d :
  fits r c d ->
  exists m, denseOver r c d = Some m /\ rows m = r /\ cols m = c /\
            forall l, d = Some l -> data m = l.
Proof.
destruct d as [l|]; simpl; intros H.
- unfold NewDenseOf. rewrite H, Nat.eqb_refl. eexists.
  split; [reflexivity |]. repeat split. intros l' E. injection E as <-. reflexivity.
- eexists. split; [reflexivity |]. repeat split. discriminate.
Qed.

(** The operation that a call returns: a major iteration after an
    evaluation request, an evaluation request otherwise. *)
Definition nextOp (s : SGDOptimizer) : Z :=
  if Z.eqb (lastOp s) evaluate then MajorIteration else evaluate.

Lemma Iterate_spec (r c : nat) (s : SGDOptimizer) (loc : Location) :
  NFeatures s = r -> NOutputs s = c ->
  fits r c (loc_X loc) -> fits r c (loc_Gradient loc) ->
  hasShape r c (Update s) -> (TimeStep s = 0 \/ allocated r c s) ->
  exists theta grad u0 s1 u,
    denseOver r c (loc_X loc) = Some theta /\
    denseOver r c (loc_Gradient loc) = Some grad /\
    rows theta = r /\ cols theta = c /\ rows grad = r /\ cols grad = c /\
    Update s = Some u0 /\ GetUpdate s u0 grad = Some (s1, u) /\
    rows u = r /\ cols u = c /\ allocated r c s1 /\
    Iterate s loc
    = Some (set_lastOp (set_Update s1 (Some u)) (nextOp s),
            mkLocation (match loc_X loc with
                        | Some _ => Some (data (Add theta u))
                        | None => None
                        end) (loc_F loc) (loc_Gradient loc),
            nextOp s).
Proof.
intros HF HO HX HG HU Hal.
destruct (denseOver_fits _ _ _ HX) as (theta & Eth & Hthr & Hthc & _).
destruct (denseOver_fits _ _ _ HG) as (grad & Egr & Hgr & Hgc & _).
destruct HU as (u0 & Eu0 & Hur & Huc).
destruct (GetUpdate_total s u0 grad) as (s1 & u & EG & Hal1 & Hr1 & Hc1).
{ rewrite Hgr, Hgc. exact Hal. }
{ congruence. }
{ congruence. }
exists theta, grad, u0, s1, u.
rewrite Hgr, Hgc in *.
repeat (split; [first [assumption | reflexivity] |]).
unfold optimizeMethod.Iterate. rewrite HF, HO, Eth, Egr. cbn [bind].
rewrite Eu0, EG. cbn [bind].
assert (Ed : sameDims theta u = true).
{ apply sameDims_true. split; congruence. }
rewrite Ed. cbn [assert bind].
destruct (GetUpdate_keeps _ _ _ _ _ EG) as [Hp _]. params_of Hp.
unfold nextOp. cbn [lastOp set_Update]. rewrite HlO. reflexivity.
Qed.

(** X12.  [Iterate] on an initialised optimizer and a location of the
    stored shape returns: it adds the update of [GetUpdate] on
    [loc.Gradient] to [loc.X] in place, entry by entry in row-major order,
    counts one step, and leaves Theta, the gradient and the shape as they
    were. *)
Theorem Iterate_steps (r c : nat) (s : SGDOptimizer) (loc : Location)
  (x : list R) :
  NFeatures s = r -> NOutputs s = c ->
  loc_X loc = Some x -> List.length x = (r * c)%nat ->
  fits r c (loc_Gradient loc) ->
  hasShape r c (Update s) -> (TimeStep s = 0 \/ allocated r c s) ->
  exists s' loc' op u x',
    Iterate s loc = Some (s', loc', op) /\
    Update s' = Some u /\ rows u = r /\ cols u = c /\
    loc_X loc' = Some x' /\ List.length x' = List.length x /\
    (forall k, (k < r * c)%nat ->
       nth k x' 0 = nth k x 0 + At u (k / c) (k mod c)) /\
    loc_Gradient loc' = loc_Gradient loc /\
    TimeStep s' = TimeStep s + 1 /\ Theta s' = Theta s /\
    NFeatures s' = r /\ NOutputs s' = c.
Proof.
intros HF HO HX Hlen HG HU Hal.
assert (HfX : fits r c (loc_X loc)) by (rewrite HX; exact Hlen).
destruct (Iterate_spec r c s loc HF HO HfX HG HU Hal)
  as (theta & grad & u0 & s1 & u & Eth & Egr & Hthr & Hthc & Hgr & Hgc & Eu0 &
      EG & Hur & Huc & Hal1 & EI).
destruct (denseOver_fits _ _ _ HfX) as (theta' & Eth' & _ & _ & Hdata).
rewrite Eth in Eth'. injection Eth' as <-.
specialize (Hdata x HX).
destruct (GetUpdate_keeps _ _ _ _ _ EG) as [Hp Ht]. params_of Hp.
rewrite HX in EI.
eexists _, _, _, u, _. split; [exact EI |].
cbn [Update set_lastOp set_Update loc_X loc_Gradient TimeStep Theta NFeatures
     NOutputs].
split; [reflexivity |]. split; [exact Hur |]. split; [exact Huc |].
split; [reflexivity |].
unfold Add, tabulate. cbn [data]. rewrite Hthr, Hthc.
split; [rewrite length_map, length_seq; symmetry; exact Hlen |].
split.
- intros k Hk.
  rewrite (nth_indep _ 0 ((fun k => At theta (k / c) (k mod c)
                                      + At u (k / c) (k mod c)) 0%nat))
    by (rewrite length_map, length_seq; exact Hk).
  rewrite (map_nth (fun k => At theta (k / c) (k mod c) + At u (k / c) (k mod c))).
  rewrite seq_nth by exact Hk. cbn [Nat.add].
  f_equal. unfold At. rewrite Hthc, Hdata. f_equal.
  assert (c <> 0%nat) by (intros ->; lia).
  rewrite (Nat.div_mod_eq k c) at 3. lia.
- repeat split; congruence.
Qed.

(** The operations of a run of calls: an evaluation request and a major
    iteration in turn, [b] telling whether the run opens on the major
    iteration. *)
Fixpoint alternate (b : bool) (n : nat) : list Z :=
  match n with
  | O => []
  | S n' => (if b then MajorIteration else evaluate) :: alternate (negb b) n'
  end.

Lemma iterates_spec (r c : nat) (grads : list (option (list R))) :
  MajorIteration <> evaluate ->
  Forall (fits r c) grads ->
  forall (s : SGDOptimizer) (loc : Location),
  NFeatures s = r -> NOutputs s = c ->
  fits r c (loc_X loc) -> hasShape r c (Update s) ->
  (TimeStep s = 0 \/ allocated r c s) ->
  exists s' loc',
    iterates s loc grads
    = Some (s', loc', alternate (Z.eqb (lastOp s) evaluate) (List.length grads)) /\
    TimeStep s' = TimeStep s + INR (List.length grads) /\
    Theta s' = Theta s /\ fits r c (loc_X loc').
Proof.
intros HM HG. induction HG as [| g grads Hg HG IH]; intros s loc HF HO HX HU Hal.
- exists s, loc. cbn [optimizeMethod.iterates List.length alternate INR].
  split; [reflexivity |]. split; [lra |]. split; [reflexivity | exact HX].
- set (loc1 := mkLocation (loc_X loc) (loc_F loc) g).
  destruct (Iterate_spec r c s loc1 HF HO HX Hg HU Hal)
    as (theta & grad & u0 & s1 & u & Eth & Egr & Hthr & Hthc & Hgr & Hgc & Eu0 &
        EG & Hur & Huc & Hal1 & EI).
  destruct (GetUpdate_keeps _ _ _ _ _ EG) as [Hp Ht]. params_of Hp.
  set (s2 := set_lastOp (set_Update s1 (Some u)) (nextOp s)) in *.
  set (loc2 := mkLocation _ _ _) in EI.
  destruct (IH s2 loc2) as (s' & loc' & EI' & Ht' & HTh' & HX').
  { unfold s2. cbn. congruence. }
  { unfold s2. cbn. congruence. }
  { unfold loc2, loc1. cbn [loc_X]. destruct (loc_X loc); [| exact I].
    unfold fits, Add, tabulate. cbn [data].
    rewrite length_map, length_seq. congruence. }
  { unfold s2. cbn [Update set_lastOp set_Update]. apply hasShape_Some; assumption. }
  { right. unfold s2. destruct Hal1 as (A1 & A2 & A3 & A4 & A5).
    unfold allocated. cbn. repeat split; try assumption; tauto. }
  exists s', loc'.
  cbn [optimizeMethod.iterates List.length alternate].
  fold loc1. rewrite EI. cbn [bind]. rewrite EI'. cbn [bind].
  split.
  + unfold ret. do 3 f_equal. unfold s2. cbn [lastOp set_lastOp]. unfold nextOp.
    destruct (Z.eqb (lastOp s) evaluate) eqn:E; cbn [negb].
    * f_equal. apply Z.eqb_neq in HM. rewrite HM. reflexivity.
    * f_equal. rewrite Z.eqb_refl. reflexivity.
  + split; [| split; [| exact HX']].
    * rewrite Ht'. unfold s2. cbn [TimeStep set_lastOp set_Update].
      rewrite Ht, S_INR. ring.
    * rewrite HTh'. unfold s2. cbn [Theta set_lastOp set_Update]. exact HTh.
Qed.

Lemma Init_ready (s0 : SGDOptimizer) (loc : Location) :
  NFeatures s0 <> 0%nat -> NOutputs s0 <> 0%nat ->
  len (loc_X loc) = (NFeatures s0 * NOutputs s0)%nat ->
  exists s,
    Init s0 loc = (s, evaluate, false) /\
    NFeatures s = NFeatures s0 /\ NOutputs s = NOutputs s0 /\
    hasShape (NFeatures s0) (NOutputs s0) (Update s) /\
    TimeStep s = TimeStep s0 /\ lastOp s = lastOp s0 /\ Theta s = Theta s0.
Proof.
intros HF HO Hlen. unfold optimizeMethod.Init.
pose proof HF as HF'. pose proof HO as HO'.
apply Nat.eqb_neq in HF', HO'. rewrite HF', HO'. cbn [orb].
destruct (Nat.eqb (len (loc_X loc)) (NFeatures s0)) eqn:E1.
- apply Nat.eqb_eq in E1.
  assert (H1 : NOutputs s0 = 1%nat) by nia.
  cbn [NFeatures NOutputs set_shape]. rewrite Nat.mul_1_r.
  rewrite E1, Nat.eqb_refl. cbn [negb].
  eexists. split; [reflexivity |].
  cbn [NFeatures NOutputs Update TimeStep lastOp Theta set_Update set_shape].
  rewrite H1. repeat split; try reflexivity.
  apply hasShape_Some; reflexivity.
- rewrite Hlen, Nat.eqb_refl. cbn [negb].
  eexists. split; [reflexivity |].
  cbn [NFeatures NOutputs Update TimeStep lastOp Theta set_Update set_shape].
  repeat split; try reflexivity.
  apply hasShape_Some; reflexivity.
Qed.

(** X13.  After an [Init] that succeeds on a fresh optimizer, a run
    of n [Iterate] calls returns, for gradients of the stored shape, the
    operations FuncEvaluation|GradEvaluation, MajorIteration,
    FuncEvaluation|GradEvaluation, ... in turn: the first call repeats the
    evaluation request of [Init], a major iteration is signalled on every
    second call, and every call, of either kind, takes an update step, so
    that the step count is n; Theta is never written. *)
Theorem Init_then_iterates (s0 : SGDOptimizer) (loc : Location)
  (grads : list (option (list R))) :
  MajorIteration <> evaluate -> evaluate <> NoOperation ->
  NFeatures s0 <> 0%nat -> NOutputs s0 <> 0%nat ->
  len (loc_X loc) = (NFeatures s0 * NOutputs s0)%nat ->
  Forall (fits (NFeatures s0) (NOutputs s0)) grads ->
  TimeStep s0 = 0 -> lastOp s0 = NoOperation ->
  exists s s' loc',
    Init s0 loc = (s, evaluate, false) /\
    iterates s loc grads
    = Some (s', loc', alternate false (List.length grads)) /\
    TimeStep s' = INR (List.length grads) /\ Theta s' = Theta s0.
Proof.
intros HM HE HF HO Hlen HG Ht Hl.
destruct (Init_ready s0 loc HF HO Hlen) as (s & EI & HFs & HOs & HU & Hts & Hls & HTs).
assert (HX : fits (NFeatures s0) (NOutputs s0) (loc_X loc)).
{ unfold fits. destruct (loc_X loc) as [x|]; [exact Hlen | exact I]. }
destruct (iterates_spec _ _ grads HM HG s loc HFs HOs HX HU)
  as (s' & loc' & EIt & Ht' & HTh' & _).
{ left. congruence. }
exists s, s', loc'. split; [exact EI |].
replace (Z.eqb (lastOp s) evaluate) with false in EIt.
2:{ symmetry. apply Z.eqb_neq. rewrite Hls, Hl. congruence. }
split; [exact EIt |]. split; [rewrite Ht', Hts, Ht; ring | congruence].
Qed.

End Method.


Lemma Init_without_shape_witness :
  Init 16 32 (fold_left (fun st l => fst (fst (Init 16 32 st l)))
          [mkLocation (Some [1; 2]) 0 None] NewAdamOptimizer)
       (mkLocation (Some [1; 2]) 0 None)
  = (set_shape (fold_left (fun st l => fst (fst (Init 16 32 st l)))
                  [mkLocation (Some [1; 2]) 0 None] NewAdamOptimizer) 2 0,
     NoOperation, false).
Proof.
exact (proj1 (Init_without_shape 16 32 NewAdamOptimizer
                [mkLocation (Some [1; 2]) 0 None]
                (mkLocation (Some [1; 2]) 0 None) eq_refl)).
Defined.

Lemma Init_with_shape_witness :
  let '(s', op, err) :=
    Init 16 32 (SetTheta NewSGDOptimizer (NewDense 2 1))
      (mkLocation (Some [1; 2]) 0 None) in
  err = false /\ op = 48%Z /\ NFeatures s' = 2%nat /\ NOutputs s' = 1%nat /\
  Update s' = Some (NewDense 2 1).
Proof.
pose proof (Init_with_shape 16 32 (SetTheta NewSGDOptimizer (NewDense 2 1))
              (mkLocation (Some [1; 2]) 0 None)) as H.
cbv zeta in H.
destruct (Init 16 32 (SetTheta NewSGDOptimizer (NewDense 2 1))
            (mkLocation (Some [1; 2]) 0 None)) as [[s' op] err].
cbn in H. destruct H as (H1 & H2 & H3 & H4 & H5 & H6); [lia | lia |].
rewrite H3, H4 in H6. repeat split; assumption.
Defined.

Lemma Iterate_steps_witness :
  exists s' loc' op u x',
    Iterate 16 32 4
      (set_Update (SetTheta NewSGDOptimizer (NewDense 2 1)) (Some (NewDense 2 1)))
      (mkLocation (Some [1; 2]) 0 (Some [3; 4])) = Some (s', loc', op) /\
    Update s' = Some u /\ loc_X loc' = Some x' /\
    nth 1 x' 0 = 2 + At u 1 0 /\ TimeStep s' = 0 + 1.
Proof.
destruct (Iterate_steps 16 32 4 2 1
            (set_Update (SetTheta NewSGDOptimizer (NewDense 2 1))
               (Some (NewDense 2 1)))
            (mkLocation (Some [1; 2]) 0 (Some [3; 4])) [1; 2])
  as (s' & loc' & op & u & x' & H1 & H2 & _ & _ & H3 & _ & H4 & _ & H5 & _);
  try reflexivity.
- apply hasShape_Some; reflexivity.
- left. reflexivity.
- exists s', loc', op, u, x'. split; [exact H1 |]. split; [exact H2 |].
  split; [exact H3 |]. split; [| exact H5].
  exact (H4 1%nat ltac:(simpl; lia)).
Defined.

Lemma Init_then_iterates_witness :
  exists s s' loc',
    Init 16 32 (SetTheta NewSGDOptimizer (NewDense 2 1))
      (mkLocation (Some [1; 2]) 0 None) = (s, 48%Z, false) /\
    iterates 16 32 4 s (mkLocation (Some [1; 2]) 0 None)
      [Some [3; 4]; Some [5; 6]; None]
    = Some (s', loc', [48; 4; 48]%Z) /\
    TimeStep s' = INR 3 /\ Theta s' = Some (NewDense 2 1).
Proof.
apply (Init_then_iterates 16 32 4 (SetTheta NewSGDOptimizer (NewDense 2 1))
         (mkLocation (Some [1; 2]) 0 None) [Some [3; 4]; Some [5; 6]; None]);
  try reflexivity; try discriminate; try (simpl; lia).
repeat constructor.
Defined.

End optimizeMethodFacts.


(** ** The fits, continued *)

From Stdlib Require Import Permutation.

Module linearModelRuns.
Import mat matFacts linearModel linearModelFacts.

Section Runs.

Variable E : Collaborators.
Variable g : Rand E.
Variable X Ytrue : Dense.
Variable opts : LinFitOptions E.

(** X14.  With the epochs unset and more than 1,000,000 samples the
    budget 1e6 / nSamples is 0: the training loop runs no epoch, and [LinFit]
    returns at once, not converged, with RMSE and J at +Inf, Epoch 1 and the
    zero matrix for Theta, whatever the initial Theta was. *)
Theorem LinFit_no_epoch (s : Optimizer E) (order : list nat) :
  GOMethodCreator E opts = None -> Solver E opts = Some s ->
  (Epochs E opts <= 0)%Z -> (1000000 < Z.of_nat (rows X))%Z ->
  LinFit E g order X Ytrue opts
  = Some (mkLinFitResult false PosInf PosInf 1 (NewDense (cols X) (cols Ytrue))).
Proof.
intros Hg Hs He Hn.
assert (HB : epochsOf (Epochs E opts) (rows X) = Some 0%Z).
{ unfold epochsOf. apply Z.leb_le in He. rewrite He.
  destruct (Nat.eqb_spec (rows X) 0) as [E0 | E0]; [lia |].
  unfold ret. f_equal. apply Z.quot_small. lia. }
destruct (LinFit_run E g X Ytrue opts s order 0 Hg Hs HB
            (ex_intro _ _ eq_refl)) as (m & Hm & Hrun & _).
assert (m = 0%nat) by lia. subst m. rewrite Hrun.
rewrite stateAt_0.
pose proof (startState_spec E g X Ytrue opts s) as H0. cbv zeta in H0.
destruct H0 as (-> & -> & -> & -> & _). reflexivity.
Qed.

(** X15.  On a dataset without rows [LinFit] panics when the epochs are
    unset, on the training loop and through the minimizer alike: the default
    budget divides by nSamples. *)
Theorem LinFit_empty_dataset (order : list nat) :
  rows X = 0%nat -> (Epochs E opts <= 0)%Z ->
  LinFit E g order X Ytrue opts = None.
Proof.
intros Hn He. apply Z.leb_le in He.
assert (HG : forall o, GOMethodCreator E o <> None -> Epochs E o = Epochs E opts ->
                       LinFitGOM E g order X Ytrue o = None).
{ intros o Ho Hep. unfold LinFitGOM.
  destruct (GOMethodCreator E o); [| congruence].
  rewrite Hep, He, Hn. reflexivity. }
unfold LinFit.
destruct (GOMethodCreator E opts) as [c |] eqn:Hg.
- cbv beta iota zeta. rewrite Hg. apply HG; [cbn; congruence | reflexivity].
- destruct (Solver E opts) as [s |] eqn:Hs.
  + cbv beta iota zeta. rewrite Hg, Hs. unfold epochsOf. rewrite He, Hn. reflexivity.
  + cbv beta iota zeta. cbn [GOMethodCreator]. apply HG; [cbn; congruence | reflexivity].
Qed.

End Runs.

Lemma LinFit_no_epoch_witness :
  LinFit (sample (fun _ => Finite 1)) tt []
    (mkDense (Z.to_nat 1000001) 1 (repeat 0 (Z.to_nat 1000001 * 1))) (NewDense 1 1)
    (sampleOptions (fun _ => Finite 1) 0)
  = Some (mkLinFitResult false PosInf PosInf 1 (NewDense 1 1)).
Proof.
apply (LinFit_no_epoch (sample (fun _ => Finite 1)) tt
         (mkDense (Z.to_nat 1000001) 1 (repeat 0 (Z.to_nat 1000001 * 1)))
         (NewDense 1 1) (sampleOptions (fun _ => Finite 1) 0) tt []).
- reflexivity.
- reflexivity.
- simpl. lia.
- cbn [rows]. lia.
Defined.

Lemma LinFit_empty_dataset_witness :
  LinFit (sample (fun _ => Finite 1)) tt [] (NewDense 0 1) (NewDense 0 1)
    (sampleOptions (fun _ => Finite 1) 0) = None.
Proof.
apply (LinFit_empty_dataset (sample (fun _ => Finite 1)) tt (NewDense 0 1)
         (NewDense 0 1) (sampleOptions (fun _ => Finite 1) 0) []).
- reflexivity.
- simpl. lia.
Defined.


(** *** The fit through the minimizer: the columns *)

Lemma Dense_ext (a b : Dense) :
  rows a = rows b -> cols a = cols b ->
  List.length (data a) = (rows a * cols a)%nat ->
  List.length (data b) = (rows b * cols b)%nat ->
  (forall i j, (i < rows a)%nat -> (j < cols a)%nat -> At a i j = At b i j) ->
  a = b.
Proof.
destruct a as [ra ca da], b as [rb cb db]. cbn [rows cols data].
intros <- <- Ha Hb H. f_equal.
apply (nth_ext _ _ 0 0); [congruence |].
intros k Hk. rewrite Ha in Hk.
assert (Hc : ca <> 0%nat) by (intros ->; lia).
specialize (H (k / ca)%nat (k mod ca)%nat).
unfold At in H. cbn [cols data] in H.
replace (k / ca * ca + k mod ca)%nat with k in H
  by (rewrite (Nat.div_mod_eq k ca) at 1; lia).
apply H.
- apply Nat.Div0.div_lt_upper_bound. lia.
- apply Nat.mod_upper_bound. exact Hc.
Qed.

Lemma At_SetCol m j src i j' :
  (i < rows m)%nat -> (j' < cols m)%nat ->
  At (SetCol m j src) i j' = if Nat.eqb j j' then nth i src 0 else At m i j'.
Proof. intros Hi Hj. unfold SetCol. now rewrite At_tabulate. Qed.

Lemma sum_Permutation (h : nat -> Z) (l1 l2 : list nat) :
  Permutation l1 l2 ->
  fold_right Z.add 0%Z (map h l1) = fold_right Z.add 0%Z (map h l2).
Proof.
induction 1 as [| x l1 l2 _ IH | x y l | l1 l2 l3 _ IH1 _ IH2]; cbn.
- reflexivity.
- now rewrite IH.
- lia.
- congruence.
Qed.

Section Columns.

Variable E : Collaborators.
Variable opts : LinFitOptions E.
Variable X Ytrue thetaM0 : Dense.
Variable epochs : Z.
Variable create : unit -> Method E.

(** What the minimizer of column [o] returns. *)
Definition columnResult (o : nat) : option Result :=
  fst (fst (snd (fitOutput E opts X Ytrue thetaM0 epochs create o))).

(** The function evaluations that the minimizer of column [o] counts. *)
Definition columnEvaluations (o : nat) : Z :=
  match columnResult o with
  | Some r => res_FuncEvaluations r
  | None => 0%Z
  end.

Lemma receive_run (order : list nat) :
  forall m r e c m' r' e' c',
  fold_left receive (map (fitOutput E opts X Ytrue thetaM0 epochs create) order)
    (Some (m, r, e, c)) = Some (m', r', e', c') ->
  List.length (data m) = (rows m * cols m)%nat ->
  rows m' = rows m /\ cols m' = cols m /\
  List.length (data m') = (rows m * cols m)%nat /\
  (forall o, In o order -> exists res, columnResult o = Some res) /\
  (forall i j res, (i < rows m)%nat -> (j < cols m)%nat -> In j order ->
     columnResult j = Some res -> At m' i j = nth i (res_X res) 0) /\
  (forall i j, (i < rows m)%nat -> (j < cols m)%nat -> ~ In j order ->
     At m' i j = At m i j) /\
  e' = (e + fold_right Z.add 0%Z (map columnEvaluations order))%Z.
Proof.
induction order as [| o order IH]; intros m r e c m' r' e' c' H Hlen.
- cbn in H. injection H as <- _ <- _. cbn.
  repeat split; try reflexivity; try assumption; try lia;
    intros; contradiction.
- cbn [map fold_left] in H. unfold receive at 2 in H. cbn [bind] in H.
  cbn [fst] in H. fold (columnResult o) in H.
  destruct (columnResult o) as [res |] eqn:Ho;
    [| rewrite receive_None in H; discriminate].
  unfold ret in H.
  change (fst (fitOutput E opts X Ytrue thetaM0 epochs create o)) with o in H.
  apply IH in H.
  2:{ unfold SetCol, tabulate. cbn [rows cols data].
      now rewrite length_map, length_seq. }
  unfold SetCol in H at 1 2 3 4 5 6 7 8.
  rewrite rows_tabulate, cols_tabulate in H.
  destruct H as (Hr & Hc & Hl & Hall & Hin & Hout & He).
  split; [exact Hr |]. split; [exact Hc |]. split; [exact Hl |].
  split; [| split; [| split]].
  + intros o' [<- | Hi]; [eauto | auto].
  + intros i j res' Hi Hj Hj' Hres.
    destruct (in_dec Nat.eq_dec j order) as [Hjo | Hjo].
    * apply Hin; assumption.
    * rewrite Hout by assumption.
      destruct Hj' as [<- | Hj']; [| contradiction].
      rewrite At_SetCol by assumption. rewrite Nat.eqb_refl.
      congruence.
  + intros i j Hi Hj Hj'.
    rewrite Hout by (try assumption; intros Hx; apply Hj'; right; exact Hx).
    rewrite At_SetCol by assumption.
    destruct (Nat.eqb_spec o j) as [-> | Hne]; [| reflexivity].
    exfalso. apply Hj'. left. reflexivity.
  + rewrite He. cbn [map fold_right]. unfold columnEvaluations at 2.
    rewrite Ho. lia.
Qed.

Lemma receive_total (order : list nat) :
  (forall o, In o order -> exists res, columnResult o = Some res) ->
  forall acc, exists acc',
    fold_left receive (map (fitOutput E opts X Ytrue thetaM0 epochs create) order)
      (Some acc) = Some acc'.
Proof.
induction order as [| o order IH]; intros Hall acc.
- exists acc. reflexivity.
- cbn [map fold_left]. unfold receive at 2. cbn [bind].
  destruct acc as [[[m r] e] c]. cbn [fst]. fold (columnResult o).
  destruct (Hall o (or_introl eq_refl)) as [res ->].
  apply IH. intros o' Ho'. apply Hall. right. exact Ho'.
Qed.

End Columns.

Section PerOutput.

Variable E : Collaborators.
Variable g : Rand E.
Variable X Ytrue : Dense.
Variable opts : LinFitOptions E.
Variable create : unit -> Method E.

(** The budget of function evaluations of [LinFitGOM]. *)
Definition budgetGOM : Z :=
  if (Epochs E opts <=? 0)%Z then Z.quot 4000000 (Z.of_nat (rows X))
  else Epochs E opts.

(** The Theta that [LinFitGOM] starts from: 0.01 times normal draws. *)
Definition initialTheta : Dense :=
  mkDense (cols X) (cols Ytrue)
    (map (fun x => 1 / 100 * x)
       (fst (draws E (NormFloat64 E) (cols X * cols Ytrue) g))).

Lemma LinFitGOM_eq (order : list nat) :
  GOMethodCreator E opts = Some create -> PerOutputFit E opts = true ->
  ((0 < Epochs E opts)%Z \/ rows X <> 0%nat) ->
  LinFitGOM E g order X Ytrue opts
  = ('(thetaM, rmse, epoch, converged) <-
       fold_left receive
         (map (fitOutput E opts X Ytrue initialTheta budgetGOM create) order)
         (ret (initialTheta, 0, 0%Z, true)) ;;
     ret (mkLinFitResult true (Finite (sqrt rmse / INR (cols Ytrue))) (Finite 0)
            epoch thetaM)).
Proof.
intros Hc HP Hn. unfold LinFitGOM, budgetGOM, initialTheta. rewrite Hc, HP.
destruct (Epochs E opts <=? 0)%Z eqn:He.
- destruct (Nat.eqb_spec (rows X) 0) as [E0 | E0];
    [apply Z.leb_le in He; destruct Hn; [lia | contradiction] |].
  cbn [bind ret].
  destruct (draws E (NormFloat64 E) (cols X * cols Ytrue) g) as [theta g'].
  cbn [fst]. reflexivity.
- cbn [bind ret].
  destruct (draws E (NormFloat64 E) (cols X * cols Ytrue) g) as [theta g'].
  cbn [fst]. reflexivity.
Qed.

Lemma LinFitGOM_None (order : list nat) :
  GOMethodCreator E opts = Some create ->
  (Epochs E opts <= 0)%Z -> rows X = 0%nat ->
  LinFitGOM E g order X Ytrue opts = None.
Proof.
intros Hc He Hn. unfold LinFitGOM. rewrite Hc. apply Z.leb_le in He.
rewrite He, Hn. reflexivity.
Qed.

Lemma length_initialTheta :
  List.length (data initialTheta) = (rows initialTheta * cols initialTheta)%nat.
Proof.
unfold initialTheta. cbn [data rows cols]. rewrite length_map.
apply length_draws.
Qed.

(** X16.  The per-output fit, whatever the order in which the results
    arrive: Theta has the shape nFeatures x nOutputs; the column of every
    output that reported holds the X of the result of its own minimizer, run
    from that column of the initial Theta; a column that did not report
    keeps its initial values; and Epoch is the sum of the function
    evaluations of the minimizers. *)
Theorem LinFitGOM_columns (order : list nat) (res : LinFitResult) :
  GOMethodCreator E opts = Some create -> PerOutputFit E opts = true ->
  LinFitGOM E g order X Ytrue opts = Some res ->
  rows (Theta res) = cols X /\ cols (Theta res) = cols Ytrue /\
  (forall o, In o order ->
     exists r, columnResult E opts X Ytrue initialTheta budgetGOM create o = Some r /\
       ((o < cols Ytrue)%nat ->
        forall i, (i < cols X)%nat -> At (Theta res) i o = nth i (res_X r) 0)) /\
  (forall o, ~ In o order -> (o < cols Ytrue)%nat ->
     forall i, (i < cols X)%nat -> At (Theta res) i o = At initialTheta i o) /\
  Epoch res
  = fold_right Z.add 0%Z
      (map (columnEvaluations E opts X Ytrue initialTheta budgetGOM create) order).
Proof.
intros Hc HP H.
assert (Hn : (0 < Epochs E opts)%Z \/ rows X <> 0%nat).
{ destruct (Z_lt_le_dec 0 (Epochs E opts)) as [Hl | Hl]; [left; exact Hl |].
  right. intros Hr. rewrite (LinFitGOM_None order Hc Hl Hr) in H. discriminate. }
rewrite (LinFitGOM_eq order Hc HP Hn) in H.
inv_bind H. destruct a as [[[m r] e] c]. unfold ret in H. injection H as <-.
unfold ret in Ha.
apply receive_run in Ha; [| apply length_initialTheta].
destruct Ha as (Hr & Hcl & _ & Hall & Hin & Hout & He).
cbn [Theta Epoch]. change (rows initialTheta) with (cols X) in *.
change (cols initialTheta) with (cols Ytrue) in *.
split; [exact Hr |]. split; [exact Hcl |]. split; [| split].
- intros o Ho. destruct (Hall o Ho) as [r0 Hr0]. exists r0.
  split; [exact Hr0 |]. intros Ho' i Hi. apply Hin; assumption.
- intros o Ho Ho' i Hi. apply Hout; assumption.
- rewrite He. lia.
Qed.

End PerOutput.

Section Order.

Variable E : Collaborators.
Variable g : Rand E.
Variable X Ytrue : Dense.
Variable opts : LinFitOptions E.

Lemma LinFitGOM_joint (order1 order2 : list nat) :
  PerOutputFit E opts = false ->
  LinFitGOM E g order1 X Ytrue opts = LinFitGOM E g order2 X Ytrue opts.
Proof. intros HP. unfold LinFitGOM. rewrite HP. reflexivity. Qed.

Definition sameFit (a b : M LinFitResult) : Prop :=
  match a, b with
  | Some r1, Some r2 =>
      Theta r1 = Theta r2 /\ Epoch r1 = Epoch r2 /\ Converged r1 = Converged r2
  | None, None => True
  | _, _ => False
  end.

Lemma LinFitGOM_order_run (create : unit -> Method E) (order1 order2 : list nat) :
  Permutation order1 order2 ->
  GOMethodCreator E opts = Some create -> PerOutputFit E opts = true ->
  ((0 < Epochs E opts)%Z \/ rows X <> 0%nat) ->
  sameFit (LinFitGOM E g order1 X Ytrue opts) (LinFitGOM E g order2 X Ytrue opts).
Proof.
intros HPerm Hc HP Hn. unfold sameFit.
rewrite !(LinFitGOM_eq E g X Ytrue opts create _ Hc HP Hn).
set (f := fitOutput E opts X Ytrue (initialTheta E g X Ytrue)
            (budgetGOM E X opts) create).
set (init := ret (initialTheta E g X Ytrue, 0, 0%Z, true)).
destruct (fold_left receive (map f order1) init)
  as [[[[m1 r1] e1] c1] |] eqn:E1;
destruct (fold_left receive (map f order2) init)
  as [[[[m2 r2] e2] c2] |] eqn:E2; cbn [bind ret].
+ apply receive_run in E1; [| apply length_initialTheta].
  apply receive_run in E2; [| apply length_initialTheta].
  destruct E1 as (Hr1 & Hc1 & Hl1 & Hall1 & Hin1 & Hout1 & He1).
  destruct E2 as (Hr2 & Hc2 & Hl2 & Hall2 & Hin2 & Hout2 & He2).
  cbn [Theta Epoch Converged].
  split; [| split; [| reflexivity]].
  * apply Dense_ext; try congruence.
    intros i j Hi Hj. rewrite Hr1 in Hi. rewrite Hc1 in Hj.
    destruct (in_dec Nat.eq_dec j order1) as [Hj1 | Hj1].
    -- destruct (Hall1 j Hj1) as [res Hres].
       rewrite (Hin1 i j res Hi Hj Hj1 Hres).
       symmetry. apply Hin2; try assumption.
       apply (Permutation_in _ HPerm). exact Hj1.
    -- rewrite (Hout1 i j Hi Hj Hj1). symmetry. apply Hout2; try assumption.
       intros Hj2. apply Hj1.
       apply (Permutation_in _ (Permutation_sym HPerm)). exact Hj2.
  * rewrite He1, He2. f_equal. apply sum_Permutation. exact HPerm.
+ apply receive_run in E1; [| apply length_initialTheta].
  destruct E1 as (_ & _ & _ & Hall1 & _).
  destruct (receive_total E opts X Ytrue (initialTheta E g X Ytrue)
              (budgetGOM E X opts) create order2) with
    (acc := (initialTheta E g X Ytrue, 0, 0%Z, true)) as [acc' Hacc].
  { intros o Ho. apply Hall1.
    apply (Permutation_in _ (Permutation_sym HPerm)). exact Ho. }
  fold f in Hacc. unfold init, ret in E2. congruence.
+ apply receive_run in E2; [| apply length_initialTheta].
  destruct E2 as (_ & _ & _ & Hall2 & _).
  destruct (receive_total E opts X Ytrue (initialTheta E g X Ytrue)
              (budgetGOM E X opts) create order1) with
    (acc := (initialTheta E g X Ytrue, 0, 0%Z, true)) as [acc' Hacc].
  { intros o Ho. apply Hall2. apply (Permutation_in _ HPerm). exact Ho. }
  fold f in Hacc. unfold init, ret in E1. congruence.
+ exact I.
Qed.

(** X17.  The per-output fit does not depend on the scheduler: for two
    arrival orders that are permutations of one another, either both runs
    panic or both return, with the same Theta, Epoch and Converged.  (The
    RMSE is a floating-point sum taken in arrival order.) *)
Theorem LinFitGOM_order (order1 order2 : list nat) :
  Permutation order1 order2 ->
  match LinFitGOM E g order1 X Ytrue opts, LinFitGOM E g order2 X Ytrue opts with
  | Some r1, Some r2 =>
      Theta r1 = Theta r2 /\ Epoch r1 = Epoch r2 /\ Converged r1 = Converged r2
  | None, None => True
  | _, _ => False
  end.
Proof.
intros HPerm.
destruct (PerOutputFit E opts) eqn:HP.
2:{ rewrite (LinFitGOM_joint order1 order2 HP).
    destruct (LinFitGOM E g order2 X Ytrue opts); auto. }
destruct (GOMethodCreator E opts) as [create |] eqn:Hc.
2:{ unfold LinFitGOM. rewrite Hc. exact I. }
destruct (Z_lt_le_dec 0 (Epochs E opts)) as [Hl | Hl].
- apply (LinFitGOM_order_run create); auto.
- destruct (Nat.eq_dec (rows X) 0) as [Hr | Hr].
  + rewrite !(LinFitGOM_None E g X Ytrue opts create _ Hc Hl Hr). exact I.
  + apply (LinFitGOM_order_run create); auto.
Qed.

End Order.

(** Two columns whose minimizers return their start. *)
Definition twoColumns : LinFitOptions (sample (fun _ => Finite 0)) :=
  mkLinFitOptions (sample (fun _ => Finite 0)) 1 1 (Finite 0) None 0 0 None None
    (Some (fun _ => Success)) None true.

Lemma LinFitGOM_columns_witness :
  exists res,
    LinFitGOM (sample (fun _ => Finite 0)) tt [1%nat; 0%nat] (NewDense 1 1)
      (NewDense 1 2) twoColumns = Some res /\
    rows (Theta res) = 1%nat /\ cols (Theta res) = 2%nat /\ Epoch res = 2%Z.
Proof.
eexists. split; [reflexivity |].
destruct (LinFitGOM_columns (sample (fun _ => Finite 0)) tt (NewDense 1 1)
            (NewDense 1 2) twoColumns (fun _ => Success) [1%nat; 0%nat] _
            eq_refl eq_refl eq_refl) as (H1 & H2 & _ & _ & H3).
split; [exact H1 |]. split; [exact H2 |]. exact H3.
Defined.

Lemma LinFitGOM_order_witness :
  match LinFitGOM (sample (fun _ => Finite 0)) tt [1%nat; 0%nat] (NewDense 1 1)
          (NewDense 1 2) twoColumns,
        LinFitGOM (sample (fun _ => Finite 0)) tt [0%nat; 1%nat] (NewDense 1 1)
          (NewDense 1 2) twoColumns with
  | Some r1, Some r2 =>
      Theta r1 = Theta r2 /\ Epoch r1 = Epoch r2 /\ Converged r1 = Converged r2
  | None, None => True
  | _, _ => False
  end.
Proof.
apply (LinFitGOM_order (sample (fun _ => Finite 0)) tt (NewDense 1 1)
         (NewDense 1 2) twoColumns [1%nat; 0%nat] [0%nat; 1%nat]).
apply perm_swap.
Defined.

(** *** The mini-batches of an epoch *)

Section MiniBatches.

Variable E : Collaborators.
Variable opts : LinFitOptions E.
Variable nSamples nFeatures nOutputs : nat.

(** The number of mini-batches: nSamples / miniBatchSize, rounded up. *)
Definition miniBatchCount (miniBatchSize : Z) : nat :=
  Z.to_nat ((Z.of_nat nSamples + miniBatchSize - 1) / miniBatchSize).

(** What a mini-batch does to the state, in the words of the description:
    the loss on the rows [lo, hi) of Ytrue and X, then the update of the
    solver. *)
Definition batchUpdate (miniBatchSize : Z) (st : loopState E) (i : nat)
  : loopState E :=
  let '(lo, hi) := miniBatchRows nSamples miniBatchSize (Z.of_nat i) in
  let out :=
    lossOf E opts
      (Slice (st_Ytrue E st) (Z.to_nat lo) (Z.to_nat hi) 0 nOutputs)
      (Slice (st_X E st) (Z.to_nat lo) (Z.to_nat hi) 0 nFeatures)
      (st_Theta E st) true (Alpha E opts) (L1Ratio E opts) nSamples
      (activationOf E opts) in
  mkLoopState E (st_rand E st) (st_X E st) (st_Ytrue E st)
    (fst (UpdateParams E (st_solver E st) (st_Theta E st) (lossGrad out)))
    (snd (UpdateParams E (st_solver E st) (st_Theta E st) (lossGrad out)))
    (thetaSliceBest E st) (lossGrad out) (lossJ out) (st_JBest E st)
    (st_rmse E st) (st_converged E st).

Lemma miniBatch_test (miniBatchSize : Z) (j : nat) :
  (1 <= miniBatchSize)%Z ->
  (Z.of_nat j * miniBatchSize <? Z.of_nat nSamples)%Z
  = Nat.ltb j (miniBatchCount miniBatchSize).
Proof.
intros Hm. unfold miniBatchCount.
pose proof (Z.div_mod (Z.of_nat nSamples + miniBatchSize - 1) miniBatchSize
              ltac:(lia)) as Hd.
pose proof (Z.mod_pos_bound (Z.of_nat nSamples + miniBatchSize - 1) miniBatchSize
              ltac:(lia)) as Hr.
set (q := ((Z.of_nat nSamples + miniBatchSize - 1) / miniBatchSize)%Z) in *.
set (r := ((Z.of_nat nSamples + miniBatchSize - 1) mod miniBatchSize)%Z) in *.
assert (Hq : (0 <= q)%Z) by (unfold q; apply Z.div_pos; lia).
destruct (Z.ltb_spec (Z.of_nat j * miniBatchSize) (Z.of_nat nSamples)) as [H | H];
  destruct (Nat.ltb_spec j (Z.to_nat q)) as [H' | H']; try reflexivity;
  exfalso.
- assert ((q <= Z.of_nat j)%Z) by lia. nia.
- assert ((Z.of_nat j + 1 <= q)%Z) by lia. nia.
Qed.

Lemma miniBatchCount_le (miniBatchSize : Z) :
  (1 <= miniBatchSize)%Z -> (miniBatchCount miniBatchSize <= nSamples)%nat.
Proof.
intros Hm. unfold miniBatchCount.
pose proof (Z.div_mod (Z.of_nat nSamples + miniBatchSize - 1) miniBatchSize
              ltac:(lia)) as Hd.
pose proof (Z.mod_pos_bound (Z.of_nat nSamples + miniBatchSize - 1) miniBatchSize
              ltac:(lia)) as Hr.
set (q := ((Z.of_nat nSamples + miniBatchSize - 1) / miniBatchSize)%Z) in *.
assert ((q <= Z.of_nat nSamples)%Z); [| lia].
destruct (Z_le_gt_dec q (Z.of_nat nSamples)) as [Hle | Hgt]; [exact Hle |].
exfalso. assert ((Z.of_nat nSamples + 1 <= q)%Z) by lia. nia.
Qed.

Lemma miniBatchCount_pos (miniBatchSize : Z) :
  (1 <= miniBatchSize)%Z -> (0 < nSamples)%nat ->
  (0 < miniBatchCount miniBatchSize)%nat.
Proof.
intros Hm Hn. pose proof (miniBatch_test miniBatchSize 0 Hm) as H.
destruct (Nat.ltb_spec 0 (miniBatchCount miniBatchSize)) as [H' | H'];
  [exact H' |].
apply Z.ltb_ge in H. lia.
Qed.

(** The rows of the batches, one after the other. *)
Lemma miniBatchRows_partition (miniBatchSize : Z) (i : nat) :
  (1 <= miniBatchSize)%Z -> (i < miniBatchCount miniBatchSize)%nat ->
  let '(lo, hi) := miniBatchRows nSamples miniBatchSize (Z.of_nat i) in
  lo = (Z.of_nat i * miniBatchSize)%Z /\
  hi = Z.min (lo + miniBatchSize) (Z.of_nat nSamples) /\
  (0 <= lo < hi)%Z /\ (hi <= Z.of_nat nSamples)%Z /\
  (hi - lo <= miniBatchSize)%Z /\
  ((S i < miniBatchCount miniBatchSize)%nat ->
   hi = fst (miniBatchRows nSamples miniBatchSize (Z.of_nat (S i)))) /\
  (S i = miniBatchCount miniBatchSize -> hi = Z.of_nat nSamples).
Proof.
intros Hm Hi. unfold miniBatchRows. cbv zeta. cbn [fst].
pose proof (miniBatch_test miniBatchSize i Hm) as Hi'.
destruct (Nat.ltb_spec i (miniBatchCount miniBatchSize)) as [_ | Hge]; [| lia].
apply Z.ltb_lt in Hi'.
pose proof (miniBatch_test miniBatchSize (S i) Hm) as HS.
destruct (Z.ltb_spec (Z.of_nat nSamples)
            (Z.of_nat i * miniBatchSize + miniBatchSize)) as [Hlt | Hge].
- repeat split; try lia.
  intros HSi. apply Nat.ltb_lt in HSi. rewrite HSi in HS.
  apply Z.ltb_lt in HS. lia.
- repeat split; try lia.
  intros HSi. rewrite <- HSi, Nat.ltb_irrefl in HS.
  apply Z.ltb_ge in HS. lia.
Qed.

(** A mini-batch whose windows fit is the update of the description. *)
Lemma miniBatchStep_fit (miniBatchSize : Z) (st : loopState E) (i : nat) :
  shaped E nSamples nFeatures nOutputs st ->
  windowsFit E nSamples nFeatures nOutputs st ->
  (1 <= miniBatchSize)%Z -> (i < miniBatchCount miniBatchSize)%nat ->
  miniBatchStep E opts nSamples nFeatures nOutputs miniBatchSize st (Z.of_nat i)
  = Some (batchUpdate miniBatchSize st i).
Proof.
intros HS HW Hm Hi.
pose proof (miniBatch_test miniBatchSize i Hm) as Ht.
apply Nat.ltb_lt in Hi. rewrite Hi in Ht. apply Z.ltb_lt in Ht.
destruct (miniBatchStep_total E opts nSamples nFeatures nOutputs miniBatchSize
            st (Z.of_nat i) HS HW Hm ltac:(lia) Ht) as [st' H].
rewrite H. f_equal.
unfold miniBatchStep in H. unfold batchUpdate, miniBatchRows. cbv zeta in *.
inv_bind H. apply slice_Some in Ha. destruct Ha as (_ & _ & _ & _ & ->).
inv_bind H. apply slice_Some in Ha. destruct Ha as (_ & _ & _ & _ & ->).
inv_bind H. inv_bind H.
rewrite !Nat2Z.id in H. change (Z.to_nat 0) with 0%nat in H.
destruct (UpdateParams E (st_solver E st) (st_Theta E st) _) as [s1 theta1].
unfold ret in H. injection H as <-. reflexivity.
Qed.

Lemma batchUpdate_keeps (miniBatchSize : Z) (st : loopState E) (i : nat) :
  st_X E (batchUpdate miniBatchSize st i) = st_X E st /\
  st_Ytrue E (batchUpdate miniBatchSize st i) = st_Ytrue E st.
Proof.
unfold batchUpdate. destruct (miniBatchRows _ _ _). cbv zeta. cbn. auto.
Qed.

(** The loop over the mini-batches whose windows fit: the updates of the
    batches j, j + 1, ... up to the last. *)
Lemma miniBatches_fit (miniBatchSize : Z) (fuel : nat) :
  (1 <= miniBatchSize)%Z ->
  forall j st,
  shaped E nSamples nFeatures nOutputs st ->
  windowsFit E nSamples nFeatures nOutputs st ->
  (miniBatchCount miniBatchSize - j <= fuel)%nat ->
  miniBatches E opts nSamples nFeatures nOutputs miniBatchSize fuel (Z.of_nat j) st
  = Some (fold_left (batchUpdate miniBatchSize)
            (seq j (miniBatchCount miniBatchSize - j)) st).
Proof.
intros Hm. induction fuel as [| fuel IH]; intros j st HS HW Hf.
- replace (miniBatchCount miniBatchSize - j)%nat with 0%nat by lia. reflexivity.
- cbn [miniBatches]. rewrite (miniBatch_test _ _ Hm).
  destruct (Nat.ltb_spec j (miniBatchCount miniBatchSize)) as [H | H].
  + rewrite (miniBatchStep_fit miniBatchSize st j HS HW Hm H). cbn [bind].
    replace (Z.of_nat j + 1)%Z with (Z.of_nat (S j)) by lia.
    destruct (batchUpdate_keeps miniBatchSize st j) as [KX KY].
    rewrite IH.
    * replace (miniBatchCount miniBatchSize - j)%nat
        with (S (miniBatchCount miniBatchSize - S j)) by lia.
      reflexivity.
    * unfold shaped in *. rewrite KX, KY. exact HS.
    * unfold windowsFit in *. rewrite KY. exact HW.
    * lia.
  + replace (miniBatchCount miniBatchSize - j)%nat with 0%nat by lia. reflexivity.
Qed.

(** X18.  The mini-batches of an epoch, with the mini-batch size that
    [LinFit] computes, on data of the shape that the loop has read off X.
    There are ceil(nSamples / miniBatchSize) batches; batch i is the rows
    [lo, hi) with lo = i*miniBatchSize and hi = min(lo + miniBatchSize,
    nSamples); the batches are not empty, have at most miniBatchSize rows,
    follow one another without a gap, and the last one ends at nSamples.
    When the windows fit (no sample, or a row of Ytrue for every sample and
    at least one feature and one output) the loop returns, and has made the
    updates of the batches 0, 1, ... in order, each on the loss of its rows
    of Ytrue and X.  When they do not, the loop panics in [Slice]. *)
Theorem miniBatches_partition (st : loopState E) :
  shaped E nSamples nFeatures nOutputs st ->
  let miniBatchSize := miniBatchSizeOf (MiniBatchSize E opts) nSamples in
  let k := miniBatchCount miniBatchSize in
  (forall i, (i < k)%nat ->
     let '(lo, hi) := miniBatchRows nSamples miniBatchSize (Z.of_nat i) in
     lo = (Z.of_nat i * miniBatchSize)%Z /\
     hi = Z.min (lo + miniBatchSize) (Z.of_nat nSamples) /\
     (0 <= lo < hi)%Z /\ (hi <= Z.of_nat nSamples)%Z /\
     (hi - lo <= miniBatchSize)%Z /\
     ((S i < k)%nat ->
      hi = fst (miniBatchRows nSamples miniBatchSize (Z.of_nat (S i)))) /\
     (S i = k -> hi = Z.of_nat nSamples)) /\
  (windowsFit E nSamples nFeatures nOutputs st ->
   miniBatches E opts nSamples nFeatures nOutputs miniBatchSize nSamples 0%Z st
   = Some (fold_left (batchUpdate miniBatchSize) (seq 0 k) st)) /\
  (~ windowsFit E nSamples nFeatures nOutputs st ->
   miniBatches E opts nSamples nFeatures nOutputs miniBatchSize nSamples 0%Z st
   = None).
Proof.
intros HS miniBatchSize k.
pose proof (miniBatchSizeOf_pos (MiniBatchSize E opts) nSamples) as Hm.
fold miniBatchSize in Hm.
pose proof (miniBatchCount_le miniBatchSize Hm) as Hle. fold k in Hle.
split; [| split].
- intros i Hi. apply (miniBatchRows_partition miniBatchSize i Hm Hi).
- intros HW. change 0%Z with (Z.of_nat 0).
  rewrite (miniBatches_fit miniBatchSize nSamples Hm 0 st HS HW) by (fold k; lia).
  rewrite Nat.sub_0_r. reflexivity.
- intros HW.
  destruct (miniBatches E opts nSamples nFeatures nOutputs miniBatchSize
              nSamples 0%Z st) as [st' |] eqn:Hrun; [| reflexivity].
  exfalso. apply HW.
  destruct (Nat.eq_dec nSamples 0) as [H0 | H0]; [left; exact H0 |].
  apply (miniBatches_Some_fit E opts nSamples nFeatures nOutputs miniBatchSize
           nSamples 0%Z st st' Hrun HS Hm); nia.
Qed.

End MiniBatches.

(** Three samples in batches of two: the batches are the rows [0, 2) and
    [2, 3), and the loop returns; on a Ytrue of two rows it panics. *)
Definition threeSamples (Ytrue : Dense) : loopState (sample (fun _ => Finite 1)) :=
  startState (sample (fun _ => Finite 1)) tt (NewDense 3 1) Ytrue
    (mkLinFitOptions (sample (fun _ => Finite 1)) 1 2 (Finite 0) (Some tt) 0 0
       None None None (Some (fun T => T)) false) tt.

Lemma miniBatches_partition_witness :
  (exists st',
     miniBatches (sample (fun _ => Finite 1))
       (mkLinFitOptions (sample (fun _ => Finite 1)) 1 2 (Finite 0) (Some tt) 0 0
          None None None (Some (fun T => T)) false) 3 1 1
       (miniBatchSizeOf 2 3) 3 0%Z (threeSamples (NewDense 3 1)) = Some st') /\
  miniBatches (sample (fun _ => Finite 1))
    (mkLinFitOptions (sample (fun _ => Finite 1)) 1 2 (Finite 0) (Some tt) 0 0
       None None None (Some (fun T => T)) false) 3 1 1
    (miniBatchSizeOf 2 3) 3 0%Z (threeSamples (NewDense 2 1)) = None.
Proof.
split.
- destruct (miniBatches_partition (sample (fun _ => Finite 1))
              (mkLinFitOptions (sample (fun _ => Finite 1)) 1 2 (Finite 0)
                 (Some tt) 0 0 None None None (Some (fun T => T)) false)
              3 1 1 (threeSamples (NewDense 3 1)))
    as (_ & H & _).
  + repeat split.
  + eexists. apply H. right. cbn. lia.
- destruct (miniBatches_partition (sample (fun _ => Finite 1))
              (mkLinFitOptions (sample (fun _ => Finite 1)) 1 2 (Finite 0)
                 (Some tt) 0 0 None None None (Some (fun T => T)) false)
              3 1 1 (threeSamples (NewDense 2 1)))
    as (_ & _ & H).
  + repeat split.
  + apply H. intros [H0 | (H1 & _)]; [discriminate | cbn in H1; lia].
Defined.

End linearModelRuns.


(** ** LinearModel: the intercept and the prediction *)

Module linearModelPredictFacts.
Import mat matFacts linearModelPredict.

(** The sum of [f] over 0, ..., k-1. *)
Definition sum (k : nat) (f : nat -> R) : R :=
  fold_right Rplus 0 (map f (seq 0 k)).

Lemma sum_ext k f f' :
  (forall l, (l < k)%nat -> f l = f' l) -> sum k f = sum k f'.
Proof.
intros H. unfold sum. f_equal. apply map_ext_in. intros l Hl.
apply in_seq in Hl. apply H. lia.
Qed.

Lemma sum_minus k f f' : sum k f - sum k f' = sum k (fun l => f l - f' l).
Proof.
unfold sum. generalize 0%nat. induction k as [| k IH]; intros s; cbn.
- ring.
- rewrite <- IH. ring.
Qed.

Lemma At_Mul_sum a b i j :
  (i < rows a)%nat -> (j < cols b)%nat ->
  At (Mul a b) i j = sum (cols a) (fun l => At a i l * At b l j).
Proof. intros Hi Hj. unfold Mul. now rewrite At_tabulate. Qed.

Definition arithmetic : list string := ["+"; "-"; "*"; "/"]%string.

(** X19.  [chkdims]: for the operators +, -, *, / it passes exactly when
    X, Y and the result R have one and the same shape; for "." exactly
    when X . Y is defined and R has the shape of the product; for any other
    operator string it checks nothing and never panics. *)
Theorem chkdims_spec (op : string) (R0 X Y : Dense) :
  (In op arithmetic ->
   (chkdims op R0 X Y = Some tt <->
    rows X = rows Y /\ cols X = cols Y /\ rows R0 = rows X /\ cols R0 = cols X)) /\
  (op = "."%string ->
   (chkdims op R0 X Y = Some tt <->
    cols X = rows Y /\ rows R0 = rows X /\ cols R0 = cols Y)) /\
  (~ In op arithmetic -> op <> "."%string -> chkdims op R0 X Y = Some tt).
Proof.
unfold chkdims, arithmetic. cbn [Dims].
assert (Ha : forall b, assert b = Some tt <-> b = true).
{ intros []; cbn; split; intros H; try reflexivity; discriminate. }
split; [| split].
- intros Hin.
  assert (Hop : (String.eqb op "+" || String.eqb op "-" || String.eqb op "*"
                 || String.eqb op "/")%bool = true).
  { destruct Hin as [<- | [<- | [<- | [<- | []]]]]; reflexivity. }
  rewrite Hop, Ha.
  destruct (Nat.eqb_spec (rows X) (rows Y)), (Nat.eqb_spec (cols X) (cols Y)),
    (Nat.eqb_spec (rows R0) (rows X)), (Nat.eqb_spec (cols R0) (cols X));
    cbn; intuition congruence.
- intros ->. cbn. rewrite Ha.
  destruct (Nat.eqb_spec (cols X) (rows Y)), (Nat.eqb_spec (rows R0) (rows X)),
    (Nat.eqb_spec (cols R0) (cols Y)); cbn; intuition congruence.
- intros Hn Hd.
  destruct (String.eqb_spec op "+") as [-> | H1]; [exfalso; apply Hn; cbn; tauto |].
  destruct (String.eqb_spec op "-") as [-> | H2]; [exfalso; apply Hn; cbn; tauto |].
  destruct (String.eqb_spec op "*") as [-> | H3]; [exfalso; apply Hn; cbn; tauto |].
  destruct (String.eqb_spec op "/") as [-> | H4]; [exfalso; apply Hn; cbn; tauto |].
  destruct (String.eqb_spec op ".") as [-> | H5]; [congruence |].
  reflexivity.
Qed.

Lemma DecisionFunction_run (regr : LinearModel) (X Y coef b : Dense) :
  Coef regr = Some coef -> Intercept regr = Some b ->
  (0 < rows b)%nat -> (cols coef <= cols b)%nat ->
  cols X = rows coef -> rows Y = rows X -> cols Y = cols coef ->
  exists Y',
    DecisionFunction regr X Y = Some Y' /\
    rows Y' = rows X /\ cols Y' = cols coef /\
    forall i o, (i < rows X)%nat -> (o < cols coef)%nat ->
      At Y' i o = sum (cols X) (fun j => At X i j * At coef j o) + At b 0 o.
Proof.
intros HC HI Hb Hcb H1 H2 H3. unfold DecisionFunction. rewrite HC, HI.
unfold chkdims. cbn [Dims String.eqb Ascii.eqb Bool.eqb orb].
rewrite H1, H2, H3, !Nat.eqb_refl. cbn [negb orb assert bind].
assert (Hok : (IsEmpty (Mul X coef)
               || (Nat.ltb 0 (rows b) && Nat.leb (cols (Mul X coef)) (cols b)))%bool
              = true).
{ apply orb_true_iff. right. apply andb_true_iff. split.
  - apply Nat.ltb_lt. exact Hb.
  - apply Nat.leb_le. unfold Mul. rewrite cols_tabulate. exact Hcb. }
rewrite Hok. cbn [assert bind]. eexists. split; [reflexivity |].
unfold Apply. rewrite rows_tabulate, cols_tabulate.
unfold Mul at 1 2. rewrite rows_tabulate, cols_tabulate.
split; [reflexivity |]. split; [reflexivity |].
intros i o Hi Ho. rewrite At_tabulate by assumption.
rewrite At_Mul_sum by assumption. rewrite H1. reflexivity.
Qed.

(** X20.  [DecisionFunction] on a model with coefficients and an intercept
    that has a row 0 at least as wide as the coefficients: when X has as
    many columns as Coef has rows and Y already has the shape of X . Coef,
    it returns and Y[i,o] is the product of row i of X and column o of Coef
    plus Intercept[0,o], whatever Y held before; when one of these shapes
    does not fit, it panics. *)
Theorem DecisionFunction_spec (regr : LinearModel) (X Y coef b : Dense) :
  Coef regr = Some coef -> Intercept regr = Some b ->
  (0 < rows b)%nat -> (cols coef <= cols b)%nat ->
  (cols X = rows coef /\ rows Y = rows X /\ cols Y = cols coef ->
   exists Y',
     DecisionFunction regr X Y = Some Y' /\
     rows Y' = rows X /\ cols Y' = cols coef /\
     forall i o, (i < rows X)%nat -> (o < cols coef)%nat ->
       At Y' i o = sum (cols X) (fun j => At X i j * At coef j o) + At b 0 o) /\
  (cols X <> rows coef \/ rows Y <> rows X \/ cols Y <> cols coef ->
   DecisionFunction regr X Y = None).
Proof.
intros HC HI Hb Hcb. split.
- intros (H1 & H2 & H3). apply (DecisionFunction_run regr X Y coef b); assumption.
- intros Hbad. unfold DecisionFunction. rewrite HC.
  unfold chkdims. cbn [Dims String.eqb Ascii.eqb Bool.eqb orb].
  destruct (Nat.eqb_spec (cols X) (rows coef)), (Nat.eqb_spec (rows Y) (rows X)),
    (Nat.eqb_spec (cols Y) (cols coef)); cbn; try reflexivity.
  exfalso. destruct Hbad as [H | [H | H]]; contradiction.
Qed.

(** The coefficients on the scale of the data: each row divided by the
    scale of its feature. *)
Definition rescaled (coef XScale0 : Dense) : Dense :=
  Apply (fun j o c => c / At XScale0 0 j) coef.

Lemma setIntercept_fit (regr : LinearModel) (coef XOffset0 YOffset XScale0 : Dense) :
  Coef regr = Some coef -> FitIntercept regr = true ->
  (Intercept regr = None \/
   exists b0, Intercept regr = Some b0 /\ rows b0 = 1%nat /\ cols b0 = cols coef) ->
  (0 < rows XScale0)%nat -> (rows coef <= cols XScale0)%nat ->
  rows XOffset0 = 1%nat -> cols XOffset0 = rows coef ->
  rows YOffset = 1%nat -> cols YOffset = cols coef ->
  setIntercept regr XOffset0 YOffset XScale0
  = Some (mkLinearModel true (Normalize regr) (XOffset regr) (XScale regr)
            (Some (rescaled coef XScale0))
            (Some (Sub YOffset (Mul XOffset0 (rescaled coef XScale0))))).
Proof.
intros HC HF HI Hs1 Hs2 Hx1 Hx2 Hy1 Hy2.
unfold setIntercept. rewrite HC, HF.
assert (H1 : (IsEmpty coef
              || (Nat.ltb 0 (rows XScale0) && Nat.leb (rows coef) (cols XScale0)))%bool
             = true).
{ apply orb_true_iff. right. apply andb_true_iff.
  split; [apply Nat.ltb_lt | apply Nat.leb_le]; assumption. }
rewrite H1. cbn [assert bind]. fold (rescaled coef XScale0).
assert (Hrr : rows (rescaled coef XScale0) = rows coef)
  by (unfold rescaled, Apply; apply rows_tabulate).
assert (Hrc : cols (rescaled coef XScale0) = cols coef)
  by (unfold rescaled, Apply; apply cols_tabulate).
rewrite Hrr, Hrc, Hx2, Nat.eqb_refl. cbn [assert bind].
assert (H2 : reuseAs (match Intercept regr with
                      | Some m => m
                      | None => NewDense 1 (cols coef)
                      end) (rows XOffset0) (cols coef) = Some tt).
{ unfold reuseAs. apply assert_true. apply orb_true_iff. right.
  destruct HI as [-> | (b0 & -> & Hb1 & Hb2)].
  - cbn [rows cols NewDense]. rewrite Hx1, !Nat.eqb_refl. reflexivity.
  - rewrite Hb1, Hb2, Hx1, !Nat.eqb_refl. reflexivity. }
rewrite H2. cbn [bind].
assert (H3 : sameDims YOffset (Mul XOffset0 (rescaled coef XScale0)) = true).
{ apply sameDims_true. unfold Mul. rewrite rows_tabulate, cols_tabulate.
  split; congruence. }
rewrite H3. reflexivity.
Qed.

(** X21.  [setIntercept] with FitIntercept, then [DecisionFunction]: the
    prediction undoes the normalisation of the fit,
    Y[i,o] = YOffset[o] + sum_j (X[i,j] - XOffset[j]) * Coef[j,o] / XScale[j],
    for Coef as it was before the call; at X = XOffset the prediction is
    YOffset. *)
Theorem setIntercept_predicts (regr : LinearModel)
  (coef XOffset0 YOffset XScale0 X Y : Dense) :
  Coef regr = Some coef -> FitIntercept regr = true ->
  (Intercept regr = None \/
   exists b0, Intercept regr = Some b0 /\ rows b0 = 1%nat /\ cols b0 = cols coef) ->
  (0 < rows coef)%nat -> (0 < cols coef)%nat -> (0 < rows X)%nat ->
  (0 < rows XScale0)%nat -> (rows coef <= cols XScale0)%nat ->
  rows XOffset0 = 1%nat -> cols XOffset0 = rows coef ->
  rows YOffset = 1%nat -> cols YOffset = cols coef ->
  cols X = rows coef -> rows Y = rows X -> cols Y = cols coef ->
  exists regr' Y',
    setIntercept regr XOffset0 YOffset XScale0 = Some regr' /\
    DecisionFunction regr' X Y = Some Y' /\
    rows Y' = rows X /\ cols Y' = cols coef /\
    forall i o, (i < rows X)%nat -> (o < cols coef)%nat ->
      At Y' i o
      = At YOffset 0 o
        + sum (rows coef)
            (fun j => (At X i j - At XOffset0 0 j) * (At coef j o / At XScale0 0 j)).
Proof.
intros HC HF HI Hnf Hno Hn Hs1 Hs2 Hx1 Hx2 Hy1 Hy2 HX HY1 HY2.
rewrite (setIntercept_fit regr coef XOffset0 YOffset XScale0) by assumption.
set (coef' := rescaled coef XScale0).
set (b := Sub YOffset (Mul XOffset0 coef')).
set (regr' := mkLinearModel _ _ _ _ _ _).
assert (Hrr : rows coef' = rows coef)
  by (unfold coef', rescaled, Apply; apply rows_tabulate).
assert (Hrc : cols coef' = cols coef)
  by (unfold coef', rescaled, Apply; apply cols_tabulate).
destruct (DecisionFunction_run regr' X Y coef' b eq_refl eq_refl)
  as (Y' & HY' & Hr' & Hc' & Hat); try congruence.
{ unfold b, Sub. rewrite rows_tabulate. lia. }
{ unfold b, Sub. rewrite cols_tabulate. lia. }
exists regr', Y'. split; [reflexivity |]. split; [exact HY' |].
split; [exact Hr' |]. split; [congruence |].
intros i o Hi Ho. rewrite Hat by (try assumption; lia).
unfold b, Sub. rewrite At_tabulate by lia.
rewrite At_Mul_sum by lia.
rewrite HX, Hx2.
replace (sum (rows coef) (fun j => At X i j * At coef' j o)
         + (At YOffset 0 o - sum (rows coef) (fun l => At XOffset0 0 l * At coef' l o)))
  with (At YOffset 0 o
        + (sum (rows coef) (fun j => At X i j * At coef' j o)
           - sum (rows coef) (fun l => At XOffset0 0 l * At coef' l o))) by ring.
rewrite sum_minus. f_equal. apply sum_ext. intros j Hj.
unfold coef', rescaled. rewrite At_Apply by lia. ring.
Qed.

(** X22.  [setIntercept] without FitIntercept, on a model whose intercept
    is nil: XOffset and YOffset are not read, whatever their shapes; the
    intercept is the zero row; the coefficients are divided by XScale all the
    same, so that the prediction is sum_j X[i,j] * Coef[j,o] / XScale[j]. *)
Theorem setIntercept_without_fit (regr : LinearModel)
  (coef XOffset0 YOffset XScale0 X Y : Dense) :
  Coef regr = Some coef -> FitIntercept regr = false -> Intercept regr = None ->
  (0 < rows coef)%nat -> (0 < cols coef)%nat -> (0 < rows X)%nat ->
  (0 < rows XScale0)%nat -> (rows coef <= cols XScale0)%nat ->
  cols X = rows coef -> rows Y = rows X -> cols Y = cols coef ->
  exists regr' Y',
    setIntercept regr XOffset0 YOffset XScale0 = Some regr' /\
    Coef regr' = Some (rescaled coef XScale0) /\
    Intercept regr' = Some (NewDense 1 (cols coef)) /\
    DecisionFunction regr' X Y = Some Y' /\
    forall i o, (i < rows X)%nat -> (o < cols coef)%nat ->
      At Y' i o
      = sum (rows coef) (fun j => At X i j * (At coef j o / At XScale0 0 j)).
Proof.
intros HC HF HI Hnf Hno Hn Hs1 Hs2 HX HY1 HY2.
unfold setIntercept. rewrite HC, HF, HI.
assert (H1 : (IsEmpty coef
              || (Nat.ltb 0 (rows XScale0) && Nat.leb (rows coef) (cols XScale0)))%bool
             = true).
{ apply orb_true_iff. right. apply andb_true_iff.
  split; [apply Nat.ltb_lt | apply Nat.leb_le]; assumption. }
rewrite H1. cbn [assert bind]. fold (rescaled coef XScale0).
set (coef' := rescaled coef XScale0).
set (regr' := mkLinearModel _ _ _ _ _ _).
assert (Hrr : rows coef' = rows coef)
  by (unfold coef', rescaled, Apply; apply rows_tabulate).
assert (Hrc : cols coef' = cols coef)
  by (unfold coef', rescaled, Apply; apply cols_tabulate).
destruct (DecisionFunction_run regr' X Y coef' (NewDense 1 (cols coef))
            eq_refl eq_refl)
  as (Y' & HY' & Hr' & Hc' & Hat); try congruence.
{ cbn. lia. }
{ cbn. lia. }
exists regr', Y'. split; [reflexivity |]. split; [reflexivity |].
split; [reflexivity |]. split; [exact HY' |].
intros i o Hi Ho. rewrite Hat by (try assumption; lia).
rewrite At_NewDense, HX, Rplus_0_r. apply sum_ext. intros j Hj.
unfold coef', rescaled. rewrite At_Apply by lia. reflexivity.
Qed.

(** A fitted model on one feature and one output. *)
Definition sampleModel (fit : bool) : LinearModel :=
  mkLinearModel fit false None None (Some (mkDense 1 1 [6])) None.

Lemma DecisionFunction_spec_witness :
  exists Y',
    DecisionFunction
      (mkLinearModel true false None None (Some (mkDense 1 1 [6]))
         (Some (mkDense 1 1 [1])))
      (mkDense 1 1 [2]) (NewDense 1 1) = Some Y' /\
    At Y' 0 0
    = sum 1 (fun j => At (mkDense 1 1 [2]) 0 j * At (mkDense 1 1 [6]) j 0)
      + At (mkDense 1 1 [1]) 0 0.
Proof.
destruct (DecisionFunction_spec
            (mkLinearModel true false None None (Some (mkDense 1 1 [6]))
               (Some (mkDense 1 1 [1])))
            (mkDense 1 1 [2]) (NewDense 1 1) (mkDense 1 1 [6]) (mkDense 1 1 [1])
            eq_refl eq_refl ltac:(simpl; lia) ltac:(simpl; lia)) as [H _].
destruct H as (Y' & H1 & _ & _ & H2); [repeat split |].
exists Y'. split; [exact H1 |]. apply H2; simpl; lia.
Defined.

Lemma setIntercept_predicts_witness :
  exists regr' Y',
    setIntercept (sampleModel true) (mkDense 1 1 [5]) (mkDense 1 1 [7])
      (mkDense 1 1 [3]) = Some regr' /\
    DecisionFunction regr' (mkDense 1 1 [5]) (NewDense 1 1) = Some Y' /\
    At Y' 0 0
    = At (mkDense 1 1 [7]) 0 0
      + sum 1 (fun j => (At (mkDense 1 1 [5]) 0 j - At (mkDense 1 1 [5]) 0 j)
                        * (At (mkDense 1 1 [6]) j 0 / At (mkDense 1 1 [3]) 0 j)).
Proof.
destruct (setIntercept_predicts (sampleModel true) (mkDense 1 1 [6])
            (mkDense 1 1 [5]) (mkDense 1 1 [7]) (mkDense 1 1 [3])
            (mkDense 1 1 [5]) (NewDense 1 1))
  as (regr' & Y' & H1 & H2 & _ & _ & H3);
  try reflexivity; try (simpl; lia); [left; reflexivity |].
exists regr', Y'. split; [exact H1 |]. split; [exact H2 |].
apply H3; simpl; lia.
Defined.

Lemma setIntercept_without_fit_witness :
  exists regr' Y',
    setIntercept (sampleModel false) (NewDense 4 4) (NewDense 3 3)
      (mkDense 1 1 [3]) = Some regr' /\
    DecisionFunction regr' (mkDense 1 1 [5]) (NewDense 1 1) = Some Y' /\
    At Y' 0 0
    = sum 1 (fun j => At (mkDense 1 1 [5]) 0 j
                      * (At (mkDense 1 1 [6]) j 0 / At (mkDense 1 1 [3]) 0 j)).
Proof.
destruct (setIntercept_without_fit (sampleModel false) (mkDense 1 1 [6])
            (NewDense 4 4) (NewDense 3 3) (mkDense 1 1 [3])
            (mkDense 1 1 [5]) (NewDense 1 1))
  as (regr' & Y' & H1 & _ & _ & H2 & H3);
  try reflexivity; try (simpl; lia).
exists regr', Y'. split; [exact H1 |]. split; [exact H2 |].
apply H3; simpl; lia.
Defined.

End linearModelPredictFacts.


(** ** The sample generator, continued *)

Module datasetsRuns.
Import mat matFacts datasets datasetsFacts.

Section MakeRegression.

Variable Rand : Type.
Variable NormFloat64 : Rand -> R * Rand.

Local Notation "'kwargs'" := (kwargs Rand) (only parsing).

(** [n] draws of the generator, in order, and the generator after them. *)
Fixpoint drawsFrom (n : nat) (g : Rand) : list R * Rand :=
  match n with
  | O => ([], g)
  | S n' =>
      let '(x, g1) := NormFloat64 g in
      let '(l, g2) := drawsFrom n' g1 in
      (x :: l, g2)
  end.

Lemma drawsFrom_add a b :
  forall g,
  drawsFrom (a + b) g
  = (fst (drawsFrom a g) ++ fst (drawsFrom b (snd (drawsFrom a g))),
     snd (drawsFrom b (snd (drawsFrom a g)))).
Proof.
induction a as [| a IH]; intros g; cbn [Nat.add drawsFrom].
- cbn. destruct (drawsFrom b g). reflexivity.
- destruct (NormFloat64 g) as [x g1]. rewrite IH.
  destruct (drawsFrom a g1) as [l g2]. cbn [fst snd]. reflexivity.
Qed.

Lemma fillRow_draws c :
  forall g, fillRow Rand (fun g => ret (NormFloat64 g)) c g = Some (drawsFrom c g).
Proof.
induction c as [| c IH]; intros g; cbn [fillRow drawsFrom]; [reflexivity |].
cbn [bind ret]. destruct (NormFloat64 g) as [x g1]. rewrite IH.
cbn [bind]. destruct (drawsFrom c g1). reflexivity.
Qed.

Lemma fillRows_draws r c :
  forall g,
  fillRows Rand (fun g => ret (NormFloat64 g)) r c g = Some (drawsFrom (r * c) g).
Proof.
induction r as [| r IH]; intros g; cbn [fillRows Nat.mul]; [reflexivity |].
rewrite fillRow_draws. cbn [bind]. rewrite drawsFrom_add.
destruct (drawsFrom c g) as [row g1]. rewrite IH. cbn [bind fst snd].
destruct (drawsFrom (r * c) g1). reflexivity.
Qed.

Lemma fillRows_panic r c g :
  (0 < r)%nat -> (0 < c)%nat ->
  fillRows Rand (fun _ => panic) r c g = None.
Proof.
intros Hr Hc. destruct r as [| r]; [lia |]. destruct c as [| c]; [lia |].
reflexivity.
Qed.

Lemma intArg_typed kw k d n :
  intArg Rand kw k d = Some n ->
  lookup Rand kw k = None \/ exists n, lookup Rand kw k = Some (VInt Rand n).
Proof.
unfold intArg. destruct (lookup Rand kw k) as [[]|]; intros H;
  try discriminate; eauto.
Qed.

Lemma biases_inv v n :
  forall start b,
  biases Rand v (seq start n) = Some b ->
  forall j, (start <= j < start + n)%nat -> exists x, biasAt Rand v j = Some x.
Proof.
induction n as [| n IH]; intros start b H j Hj; [lia |].
cbn [seq biases] in H. inv_bind H. inv_bind H.
destruct (Nat.eq_dec j start) as [-> | Hne]; [eauto |].
apply (IH (S start) a0 Ha0). lia.
Qed.

(** The generator that the call draws from. *)
Definition sourceOf (global : Rand) (kw : kwargs) : Rand :=
  match lookup Rand kw "random_state" with
  | Some (VRand _ r) => r
  | _ => global
  end.

(** The steps of a call that returns. *)
Lemma MakeRegression_inv (global : Rand) (kw : kwargs) (X y Coef : Dense) :
  MakeRegression Rand NormFloat64 global kw = Some (X, y, Coef) ->
  let nS := intOf Rand kw "n_samples" 100 in
  let nF := intOf Rand kw "n_features" 100 in
  let nI := intOf Rand kw "n_informative" 10 in
  let nT := intOf Rand kw "n_targets" 1 in
  let k := if (nF <? nI)%Z then nF else nI in
  (forall key, In key ["n_samples"; "n_features"; "n_informative"; "n_targets"]%string ->
     lookup Rand kw key = None \/ exists n, lookup Rand kw key = Some (VInt Rand n)) /\
  (0 < nS)%Z /\ (0 < k <= nF)%Z /\ (0 <= nT)%Z /\
  exists g1 g2,
    fill Rand (match lookup Rand kw "random_state" with
               | None => fun g => ret (NormFloat64 g)
               | Some (VRand _ _) => fun g => ret (NormFloat64 g)
               | Some _ => fun _ => panic
               end) (NewDense (Z.to_nat nS) (Z.to_nat nF)) (sourceOf global kw)
    = Some (X, g1) /\
    fill Rand (match lookup Rand kw "random_state" with
               | None => fun g => ret (NormFloat64 g)
               | Some (VRand _ _) => fun g => ret (NormFloat64 g)
               | Some _ => fun _ => panic
               end) (NewDense (Z.to_nat k) (Z.to_nat nT)) g1
    = Some (Coef, g2) /\
    match lookup Rand kw "bias" with
    | Some v => addBias Rand (Mul (Slice X 0 (Z.to_nat nS) 0 (Z.to_nat k)) Coef) v
    | None => ret (Mul (Slice X 0 (Z.to_nat nS) 0 (Z.to_nat k)) Coef)
    end = Some y.
Proof.
intros H. unfold MakeRegression in H. cbv zeta in H.
inv_bind H. pose proof (intArg_typed _ _ _ _ Ha) as T1.
apply intArg_Some in Ha. rename a into nS.
inv_bind H. pose proof (intArg_typed _ _ _ _ Ha0) as T2.
apply intArg_Some in Ha0. rename a into nF.
inv_bind H. pose proof (intArg_typed _ _ _ _ Ha1) as T3.
apply intArg_Some in Ha1. rename a into nI.
inv_bind H. pose proof (intArg_typed _ _ _ _ Ha2) as T4.
apply intArg_Some in Ha2. rename a into nT.
inv_bind H. apply newDense_Some in Ha3. destruct Ha3 as [HnS [HnF ->]].
cbn [negb] in H.
inv_bind H. apply newDense_Some in Ha3. destruct Ha3 as [_ [HnT ->]].
inv_bind H. apply newDense_Some in Ha3. destruct Ha3 as [HnI [_ ->]].
inv_bind H. destruct a as [X1 g1]. rename Ha3 into HfX.
pose proof (fill_Some _ _ _ _ _ _ HfX) as [HXr HXc].
inv_bind H. destruct a as [C1 g2]. rename Ha3 into HfC.
inv_bind H. apply slice0_Some in Ha3. destruct Ha3 as [[H1 H2] [[H3 H4] ->]].
inv_bind H. clear Ha3 a.
inv_bind H. rename a into y1. rename Ha3 into Hbias.
unfold ret in H. injection H as <- <- <-.
cbv zeta. rewrite <- Ha, <- Ha0, <- Ha1, <- Ha2.
cbn [rows cols NewDense] in HXr, HXc.
split.
{ intros key [<- | [<- | [<- | [<- | []]]]]; assumption. }
split; [lia |]. split; [lia |]. split; [lia |].
exists g1, g2. split; [exact HfX |]. split; [exact HfC |]. exact Hbias.
Qed.

(** X23.  For at least one target, [MakeRegression] returns exactly on
    well-formed arguments, and panics on all others: n_samples, n_features,
    n_informative and n_targets are absent or of type int; n_samples,
    n_features and n_informative are positive; random_state is absent or a
    generator; and a bias given as a matrix has a row 0 with an entry for
    every target, a bias given as a slice an entry for every target. *)
Theorem MakeRegression_returns_iff (global : Rand) (kw : kwargs) :
  (0 < intOf Rand kw "n_targets" 1)%Z ->
  ((exists X y Coef, MakeRegression Rand NormFloat64 global kw = Some (X, y, Coef))
   <-> wellFormed Rand kw).
Proof.
intros HT. split; [| apply MakeRegression_returns].
intros (X & y & Coef & H).
destruct (MakeRegression_inv _ _ _ _ _ H)
  as (Htyped & HnS & Hk & _ & g1 & g2 & HfX & HfC & Hbias).
set (nS := intOf Rand kw "n_samples" 100) in *.
set (nF := intOf Rand kw "n_features" 100) in *.
set (nI := intOf Rand kw "n_informative" 10) in *.
set (nT := intOf Rand kw "n_targets" 1) in *.
set (k := if (nF <? nI)%Z then nF else nI) in *.
assert (HF : (0 < nF)%Z) by lia.
assert (HI : (0 < nI)%Z) by (unfold k in Hk; destruct (Z.ltb_spec nF nI); lia).
assert (Hy : rows (Mul (Slice X 0 (Z.to_nat nS) 0 (Z.to_nat k)) Coef) = Z.to_nat nS /\
             cols (Mul (Slice X 0 (Z.to_nat nS) 0 (Z.to_nat k)) Coef) = Z.to_nat nT).
{ apply fill_Some in HfC. destruct HfC as [_ HCc]. cbn [cols NewDense] in HCc.
  cbn [rows cols Mul tabulate Slice]. rewrite Nat.sub_0_r. auto. }
destruct Hy as [Hyr Hyc].
unfold wellFormed. cbv zeta. fold nS nF nI nT.
split; [exact Htyped |]. split; [exact HnS |]. split; [exact HF |].
split; [exact HI |]. split; [lia |].
split.
{ destruct (lookup Rand kw "random_state") as [v |] eqn:Hr; [| left; reflexivity].
  destruct v; try (right; eexists; reflexivity); exfalso;
    unfold fill in HfX; cbn [rows cols NewDense] in HfX;
    rewrite fillRows_panic in HfX by lia; discriminate. }
assert (Hb : forall v, lookup Rand kw "bias" = Some v ->
             forall j, (j < Z.to_nat nT)%nat -> exists x, biasAt Rand v j = Some x).
{ intros v Hv j Hj. rewrite Hv in Hbias. unfold addBias in Hbias.
  unfold IsEmpty in Hbias. rewrite Hyr, Hyc in Hbias.
  destruct (Nat.eqb_spec (Z.to_nat nS) 0) as [E | _]; [lia |].
  destruct (Nat.eqb_spec (Z.to_nat nT) 0) as [E | _]; [lia |].
  cbn [orb] in Hbias. inv_bind Hbias.
  apply (biases_inv v _ _ _ Ha j). lia. }
split.
- intros vv Hv. destruct (Hb _ Hv (Z.to_nat nT - 1)%nat ltac:(lia)) as [x Hx].
  cbn [biasAt] in Hx. inv_bind Hx. apply assert_Some in Ha.
  apply andb_true_iff in Ha. destruct Ha as [A1 A2].
  apply Nat.ltb_lt in A1, A2. lia.
- intros vv Hv. destruct (Hb _ Hv (Z.to_nat nT - 1)%nat ltac:(lia)) as [x Hx].
  cbn [biasAt] in Hx. inv_bind Hx. apply assert_Some in Ha.
  apply Nat.ltb_lt in Ha. lia.
Qed.

(** X24.  The draws of [MakeRegression]: X holds, row by row, the first
    n_samples * n_features draws, and Coef the k * n_targets draws that
    follow, k = min(n_informative, n_features); they come from random_state
    when it is given and from the global source otherwise, so that a call
    with a random_state does not depend on the global source. *)
Theorem MakeRegression_draws (global : Rand) (kw : kwargs) (X y Coef : Dense) :
  MakeRegression Rand NormFloat64 global kw = Some (X, y, Coef) ->
  let nS := Z.to_nat (intOf Rand kw "n_samples" 100) in
  let nF := Z.to_nat (intOf Rand kw "n_features" 100) in
  let nT := Z.to_nat (intOf Rand kw "n_targets" 1) in
  let k := Z.to_nat (Z.min (intOf Rand kw "n_informative" 10)
                       (intOf Rand kw "n_features" 100)) in
  let source := sourceOf global kw in
  data X = fst (drawsFrom (nS * nF) source) /\
  data Coef = fst (drawsFrom (k * nT) (snd (drawsFrom (nS * nF) source))) /\
  forall r global',
    lookup Rand kw "random_state" = Some (VRand Rand r) ->
    MakeRegression Rand NormFloat64 global' kw = Some (X, y, Coef).
Proof.
intros H.
destruct (MakeRegression_inv _ _ _ _ _ H)
  as (Htyped & HnS & Hk & _ & g1 & g2 & HfX & HfC & Hbias).
cbv zeta.
set (nS := intOf Rand kw "n_samples" 100) in *.
set (nF := intOf Rand kw "n_features" 100) in *.
set (nI := intOf Rand kw "n_informative" 10) in *.
set (nT := intOf Rand kw "n_targets" 1) in *.
set (k := if (nF <? nI)%Z then nF else nI) in *.
replace (Z.min nI nF) with k by (unfold k; destruct (Z.ltb_spec nF nI); lia).
assert (Hrnd : (match lookup Rand kw "random_state" with
                | None => fun g => ret (NormFloat64 g)
                | Some (VRand _ _) => fun g => ret (NormFloat64 g)
                | Some _ => fun _ => panic
                end) = (fun g => ret (NormFloat64 g))).
{ destruct (lookup Rand kw "random_state") as [v |]; [| reflexivity].
  destruct v; try reflexivity; exfalso;
    unfold fill in HfX; cbn [rows cols NewDense] in HfX;
    rewrite fillRows_panic in HfX by lia; discriminate. }
rewrite Hrnd in HfX, HfC.
unfold fill in HfX, HfC. cbn [rows cols NewDense] in HfX, HfC.
rewrite fillRows_draws in HfX, HfC. cbn [bind] in HfX, HfC.
destruct (drawsFrom (Z.to_nat nS * Z.to_nat nF) (sourceOf global kw))
  as [lX gX] eqn:EX.
unfold ret in HfX. injection HfX as <- <-.
destruct (drawsFrom (Z.to_nat k * Z.to_nat nT) gX) as [lC gC] eqn:EC.
unfold ret in HfC. injection HfC as <- <-.
cbn [data fst snd]. rewrite EC. cbn [fst].
split; [reflexivity |]. split; [reflexivity |].
intros r global' Hr. rewrite <- H.
unfold MakeRegression. rewrite Hr. reflexivity.
Qed.

End MakeRegression.

Lemma MakeRegression_returns_iff_witness :
  (exists X y Coef,
     MakeRegression nat (fun g => (INR g, S g)) 0%nat sampleKwargs = Some (X, y, Coef))
  <-> wellFormed nat sampleKwargs.
Proof.
apply (MakeRegression_returns_iff nat (fun g => (INR g, S g)) 0%nat sampleKwargs).
reflexivity.
Defined.

Lemma MakeRegression_draws_witness :
  exists X y Coef,
    MakeRegression nat (fun g => (INR g, S g)) 0%nat sampleKwargs
    = Some (X, y, Coef) /\
    data X = fst (drawsFrom nat (fun g => (INR g, S g)) (2 * 3) 0%nat) /\
    data Coef
    = fst (drawsFrom nat (fun g => (INR g, S g)) (3 * 1)
             (snd (drawsFrom nat (fun g => (INR g, S g)) (2 * 3) 0%nat))).
Proof.
do 3 eexists. split; [reflexivity |].
destruct (MakeRegression_draws nat (fun g => (INR g, S g)) 0%nat sampleKwargs
            _ _ _ eq_refl) as (H1 & H2 & _).
split; [exact H1 | exact H2].
Defined.

End datasetsRuns.


(** ** SGDRegressor: the objective and its gradient *)

Module sgdRegressorFacts.
Import mat matFacts linearModelPredict linearModelPredictFacts sgdRegressor.

Lemma Sum_column n f : Sum (tabulate n 1 f) = sum n (fun i => f i 0%nat).
Proof.
unfold Sum, tabulate, sum. cbn [data]. rewrite Nat.mul_1_r. f_equal.
apply map_ext. intros k. rewrite Nat.div_1_r, Nat.mod_1_r. reflexivity.
Qed.

Lemma fold_pair (f h : nat -> R) (l : list nat) :
  forall a b,
  fold_left (fun '(L1, L2) j => (L1 + f j, L2 + h j)) l (a, b)
  = (a + fold_right Rplus 0 (map f l), b + fold_right Rplus 0 (map h l)).
Proof.
induction l as [| j l IH]; intros a b; cbn [fold_left map fold_right].
- f_equal; ring.
- rewrite IH. f_equal; ring.
Qed.

Lemma sum_nonneg k f : (forall j, (j < k)%nat -> 0 <= f j) -> 0 <= sum k f.
Proof.
unfold sum. intros H.
assert (G : forall l, (forall j, In j l -> 0 <= f j) ->
                      0 <= fold_right Rplus 0 (map f l)).
{ induction l as [| j l IH]; intros Hl; cbn; [lra |].
  pose proof (Hl j (or_introl eq_refl)).
  pose proof (IH (fun j' Hj' => Hl j' (or_intror Hj'))). lra. }
apply G. intros j Hj. apply in_seq in Hj. apply H. lia.
Qed.

(** The residual of sample [i] for output [o] at the coefficients [c]. *)
Definition residual (X Y : Dense) (c : list R) (o i : nat) : R :=
  sum (cols X) (fun l => At X i l * nth l c 0) - At Y i o.

Lemma residuals_run (regr : SGDRegressor) (X Y coef : Dense) (c : list R)
  (o : nat) :
  Coef (model regr) = Some coef -> (o < cols coef)%nat ->
  List.length c = rows coef -> cols X = rows coef ->
  (o < cols Y)%nat -> rows Y = rows X ->
  exists tmp,
    residuals regr X Y c o
    = Some (set_Coef regr (SetCol coef o c), SetCol coef o c, tmp) /\
    rows tmp = rows X /\ cols tmp = 1%nat /\
    forall i, (i < rows X)%nat -> At tmp i 0 = residual X Y c o i.
Proof.
intros HC Ho Hlen HX HoY HY. unfold residuals. rewrite HC.
rewrite (proj2 (Nat.ltb_lt _ _) Ho), Hlen, Nat.eqb_refl. cbn [andb assert bind].
unfold SetCol at 1. rewrite rows_tabulate, HX, Nat.eqb_refl. cbn [assert bind].
unfold Mul at 1. rewrite rows_tabulate.
rewrite (proj2 (Nat.ltb_lt _ _) HoY), HY, Nat.eqb_refl. cbn [andb assert bind].
eexists. split; [reflexivity |].
assert (Hr : rows (Mul X (ColView (SetCol coef o c) o)) = rows X)
  by (unfold Mul; apply rows_tabulate).
assert (Hc : cols (Mul X (ColView (SetCol coef o c) o)) = 1%nat)
  by (unfold Mul, ColView; rewrite !cols_tabulate; reflexivity).
unfold Sub at 1 2. rewrite rows_tabulate, cols_tabulate.
split; [exact Hr |]. split; [exact Hc |].
intros i Hi. unfold Sub. rewrite At_tabulate by lia.
unfold residual. f_equal.
- rewrite At_Mul_sum by (unfold ColView; rewrite ?cols_tabulate; lia).
  apply sum_ext. intros l Hl. f_equal.
  unfold ColView, SetCol. rewrite rows_tabulate.
  rewrite At_tabulate by lia. rewrite At_tabulate by lia.
  rewrite Nat.eqb_refl. reflexivity.
- unfold ColView. rewrite At_tabulate by lia. reflexivity.
Qed.

(** The regularisation term of the objective. *)
Definition penalty (regr : SGDRegressor) (X : Dense) (c : list R) : R :=
  if Rltb 0 (Alpha regr) then
    sum (cols X)
      (fun j => Alpha regr * L1Ratio regr / 2 / INR (rows X) * Rabs (nth j c 0))
    + sum (cols X)
        (fun j => Alpha regr * (1 - L1Ratio regr) / 2 / INR (rows X)
                  * nth j c 0 * nth j c 0)
  else 0.

Lemma loss_run (regr : SGDRegressor) (X Y coef : Dense) (c : list R)
  (o : nat) :
  Coef (model regr) = Some coef -> (o < cols coef)%nat ->
  List.length c = rows coef -> cols X = rows coef ->
  (o < cols Y)%nat -> rows Y = rows X ->
  loss regr X Y c o
  = Some (set_Coef regr (SetCol coef o c),
          sum (rows X) (fun i => residual X Y c o i * residual X Y c o i)
          / 2 / INR (rows X)
          + penalty regr X c).
Proof.
intros HC Ho Hlen HX HoY HY.
destruct (residuals_run regr X Y coef c o HC Ho Hlen HX HoY HY)
  as (tmp & Hres & Hr & Hc & Hat).
unfold loss. rewrite Hres. cbn [bind].
unfold MulElem. rewrite Hr, Hc, Sum_column.
rewrite (sum_ext (rows X) (fun i => At tmp i 0 * At tmp i 0)
           (fun i => residual X Y c o i * residual X Y c o i))
  by (intros i Hi; rewrite Hat by exact Hi; reflexivity).
assert (HA : Alpha (set_Coef regr (SetCol coef o c)) = Alpha regr) by reflexivity.
assert (HL : L1Ratio (set_Coef regr (SetCol coef o c)) = L1Ratio regr) by reflexivity.
rewrite HA, HL. unfold penalty.
destruct (Rltb 0 (Alpha regr)) eqn:EA.
- rewrite fold_pair. fold (sum (cols X)
    (fun j => Alpha regr * L1Ratio regr / 2 / INR (rows X)
              * Rabs (At (SetCol coef o c) j o))).
  fold (sum (cols X)
    (fun j => Alpha regr * (1 - L1Ratio regr) / 2 / INR (rows X)
              * At (SetCol coef o c) j o * At (SetCol coef o c) j o)).
  assert (Hcj : forall j, (j < cols X)%nat -> At (SetCol coef o c) j o = nth j c 0).
  { intros j Hj. unfold SetCol. rewrite At_tabulate by lia.
    rewrite Nat.eqb_refl. reflexivity. }
  rewrite (sum_ext (cols X) _
             (fun j => Alpha regr * L1Ratio regr / 2 / INR (rows X)
                       * Rabs (nth j c 0)))
    by (intros j Hj; rewrite Hcj by exact Hj; reflexivity).
  rewrite (sum_ext (cols X)
             (fun j => Alpha regr * (1 - L1Ratio regr) / 2 / INR (rows X)
                       * At (SetCol coef o c) j o * At (SetCol coef o c) j o)
             (fun j => Alpha regr * (1 - L1Ratio regr) / 2 / INR (rows X)
                       * nth j c 0 * nth j c 0))
    by (intros j Hj; rewrite Hcj by exact Hj; reflexivity).
  unfold ret. do 2 f_equal. ring.
- unfold ret. do 2 f_equal. ring.
Qed.

(** X25.  The closure [loss] of [SGDRegressor.Fit], on coefficients of
    the right length: it stores them in column o of Coef and returns the
    elastic-net objective, the sum over the samples of the squared residuals
    divided by 2*nSamples, plus, when Alpha is positive,
    Alpha*L1Ratio/(2*nSamples) times the sum of |c_j| and
    Alpha*(1-L1Ratio)/(2*nSamples) times the sum of c_j^2; for L1Ratio in
    [0, 1] the value is not negative. *)
Theorem loss_spec (regr : SGDRegressor) (X Y coef : Dense) (c : list R)
  (o : nat) :
  Coef (model regr) = Some coef -> (o < cols coef)%nat ->
  List.length c = rows coef -> cols X = rows coef ->
  (o < cols Y)%nat -> rows Y = rows X -> (0 < rows X)%nat ->
  exists v,
    loss regr X Y c o = Some (set_Coef regr (SetCol coef o c), v) /\
    v = sum (rows X) (fun i => residual X Y c o i * residual X Y c o i)
        / 2 / INR (rows X)
        + penalty regr X c /\
    (0 <= L1Ratio regr <= 1 -> 0 <= v).
Proof.
intros HC Ho Hlen HX HoY HY Hn.
eexists. split; [apply (loss_run regr X Y coef c o); assumption |].
split; [reflexivity |]. intros HL1.
assert (Hn' : 0 < INR (rows X)) by (apply lt_0_INR; exact Hn).
assert (Hi : 0 < / INR (rows X)) by (apply Rinv_0_lt_compat; exact Hn').
assert (He : 0 <= sum (rows X) (fun i => residual X Y c o i * residual X Y c o i)
                  / 2 / INR (rows X)).
{ apply Rmult_le_pos; [| lra].
  apply Rmult_le_pos; [| lra]. apply sum_nonneg. intros j _. nra. }
unfold penalty. destruct (Rltb 0 (Alpha regr)) eqn:EA; [| lra].
apply Rltb_spec in EA.
assert (H1 : 0 <= Alpha regr * L1Ratio regr / 2 / INR (rows X)).
{ unfold Rdiv. apply Rmult_le_pos; [| lra]. apply Rmult_le_pos; [| lra]. nra. }
assert (H2 : 0 <= Alpha regr * (1 - L1Ratio regr) / 2 / INR (rows X)).
{ unfold Rdiv. apply Rmult_le_pos; [| lra]. apply Rmult_le_pos; [| lra]. nra. }
assert (0 <= sum (cols X)
               (fun j => Alpha regr * L1Ratio regr / 2 / INR (rows X)
                         * Rabs (nth j c 0))).
{ apply sum_nonneg. intros j _. apply Rmult_le_pos; [exact H1 | apply Rabs_pos]. }
assert (0 <= sum (cols X)
               (fun j => Alpha regr * (1 - L1Ratio regr) / 2 / INR (rows X)
                         * nth j c 0 * nth j c 0)).
{ apply sum_nonneg. intros j _. rewrite Rmult_assoc.
  apply Rmult_le_pos; [exact H2 | nra]. }
lra.
Qed.

Lemma nth_map_seq (f : nat -> R) (n j : nat) :
  (j < n)%nat -> nth j (map f (seq 0 n)) 0 = f j.
Proof.
intros Hj. rewrite (nth_indep _ 0 (f 0%nat)) by (rewrite length_map, length_seq; exact Hj).
rewrite (map_nth f). rewrite seq_nth by exact Hj. reflexivity.
Qed.

(** The gradient of the sum of squares, without the factor 1/nSamples of
    the objective: entry [j] of X^T . residuals. *)
Definition dataGradient (X Y : Dense) (c : list R) (o j : nat) : R :=
  sum (rows X) (fun i => At X i j * residual X Y c o i).

Lemma sgn_term (g al1 al2 : R) :
  0 <= al1 -> 0 <= al2 ->
  (g + al1 * sgn g + al2 * g = 0 <-> g = 0) /\
  0 <= (g + al1 * sgn g + al2 * g) * g.
Proof.
intros H1 H2. unfold sgn.
destruct (Rltb g 0) eqn:E1.
- apply Rltb_spec in E1. split; [split; intros H; nra | nra].
- apply Rltb_spec_false in E1. destruct (Rltb 0 g) eqn:E2.
  + apply Rltb_spec in E2. split; [split; intros H; nra | nra].
  + apply Rltb_spec_false in E2. assert (g = 0) by lra. subst g.
    split; [split; intros _; ring | lra].
Qed.

(** X26.  The closure [p.Grad] of [SGDRegressor.Fit]: it writes, for
    every feature j, g_j + al1*sgn(g_j) + al2*g_j with g = X^T . residuals,
    al1 = Alpha*L1Ratio/nSamples and al2 = Alpha*(1-L1Ratio)/nSamples: the
    regularisation terms are taken on the gradient g_j, not on the
    coefficient c_j.  For Alpha >= 0 and L1Ratio in [0, 1] the entry
    vanishes exactly when g_j does and has its sign: the regularisation
    does not move the points where the gradient is zero. *)
Theorem Grad_spec (regr : SGDRegressor) (X Y coef : Dense) (grad c : list R)
  (o : nat) :
  Coef (model regr) = Some coef -> (o < cols coef)%nat ->
  List.length c = rows coef -> cols X = rows coef ->
  (o < cols Y)%nat -> rows Y = rows X -> (0 < rows X)%nat ->
  (cols X <= List.length grad)%nat ->
  exists grad',
    Grad regr X Y grad c o = Some (set_Coef regr (SetCol coef o c), grad') /\
    List.length grad' = List.length grad /\
    forall j, (j < cols X)%nat ->
      let g := dataGradient X Y c o j in
      nth j grad' 0
      = g + Alpha regr * L1Ratio regr / INR (rows X) * sgn g
        + Alpha regr * (1 - L1Ratio regr) / INR (rows X) * g /\
      (0 <= Alpha regr -> 0 <= L1Ratio regr <= 1 ->
       (nth j grad' 0 = 0 <-> g = 0) /\ 0 <= nth j grad' 0 * g).
Proof.
intros HC Ho Hlen HX HoY HY Hn Hg.
destruct (residuals_run regr X Y coef c o HC Ho Hlen HX HoY HY)
  as (tmp & Hres & Hr & Hc & Hat).
unfold Grad. rewrite Hres. cbn [bind].
assert (Hchk : chkdims "." (NewDense (cols X) 1) (T X) tmp = Some tt).
{ unfold chkdims. cbn [Dims String.eqb Ascii.eqb Bool.eqb orb].
  unfold T. rewrite rows_tabulate, cols_tabulate. cbn [rows cols NewDense].
  rewrite Hr, Hc, !Nat.eqb_refl. reflexivity. }
rewrite Hchk. cbn [bind].
assert (HGr : rows (Mul (T X) tmp) = cols X)
  by (unfold Mul, T; rewrite !rows_tabulate; reflexivity).
rewrite HGr. rewrite (proj2 (Nat.leb_le _ _) Hg). cbn [assert bind].
assert (HA : Alpha (set_Coef regr (SetCol coef o c)) = Alpha regr) by reflexivity.
assert (HL : L1Ratio (set_Coef regr (SetCol coef o c)) = L1Ratio regr) by reflexivity.
rewrite HA, HL.
eexists. split; [reflexivity |].
split.
{ rewrite length_app, length_map, length_seq, length_skipn. lia. }
intros j Hj. cbv zeta.
assert (HG : At (Mul (T X) tmp) j 0 = dataGradient X Y c o j).
{ rewrite At_Mul_sum by (unfold T; rewrite ?rows_tabulate; lia).
  unfold dataGradient, T. rewrite cols_tabulate. apply sum_ext. intros i Hi.
  rewrite At_tabulate by lia. rewrite Hat by exact Hi. reflexivity. }
assert (Hnth : nth j
                 (map (fun j0 =>
                         At (Mul (T X) tmp) j0 0
                         + Alpha regr * L1Ratio regr / INR (rows X)
                           * sgn (At (Mul (T X) tmp) j0 0)
                         + Alpha regr * (1 - L1Ratio regr) / INR (rows X)
                           * At (Mul (T X) tmp) j0 0) (seq 0 (cols X))
                  ++ skipn (cols X) grad) 0
               = dataGradient X Y c o j
                 + Alpha regr * L1Ratio regr / INR (rows X)
                   * sgn (dataGradient X Y c o j)
                 + Alpha regr * (1 - L1Ratio regr) / INR (rows X)
                   * dataGradient X Y c o j).
{ rewrite app_nth1 by (rewrite length_map, length_seq; exact Hj).
  rewrite nth_map_seq by exact Hj. rewrite HG. reflexivity. }
rewrite Hnth. split; [reflexivity |].
intros HAl HL1.
assert (Hn' : 0 < / INR (rows X))
  by (apply Rinv_0_lt_compat; apply lt_0_INR; exact Hn).
apply sgn_term.
- unfold Rdiv. apply Rmult_le_pos; [nra | lra].
- unfold Rdiv. apply Rmult_le_pos; [nra | lra].
Qed.

(** A regressor with coefficients for two features and one output. *)
Definition sampleRegressor : SGDRegressor :=
  set_Coef NewSGDRegressor (NewDense 2 1).

Lemma loss_spec_witness :
  exists v,
    loss sampleRegressor (mkDense 1 2 [1; 2]) (mkDense 1 1 [3]) [4; 5] 0
    = Some (set_Coef sampleRegressor (SetCol (NewDense 2 1) 0 [4; 5]), v) /\
    0 <= v.
Proof.
destruct (loss_spec sampleRegressor (mkDense 1 2 [1; 2]) (mkDense 1 1 [3])
            (NewDense 2 1) [4; 5] 0)
  as (v & H1 & _ & H2); try reflexivity; try (simpl; lia).
exists v. split; [exact H1 |]. apply H2. simpl. lra.
Defined.

Lemma Grad_spec_witness :
  exists grad',
    Grad sampleRegressor (mkDense 1 2 [1; 2]) (mkDense 1 1 [3]) [0; 0] [4; 5] 0
    = Some (set_Coef sampleRegressor (SetCol (NewDense 2 1) 0 [4; 5]), grad') /\
    (nth 0 grad' 0 = 0
     <-> dataGradient (mkDense 1 2 [1; 2]) (mkDense 1 1 [3]) [4; 5] 0 0 = 0).
Proof.
destruct (Grad_spec sampleRegressor (mkDense 1 2 [1; 2]) (mkDense 1 1 [3])
            (NewDense 2 1) [0; 0] [4; 5] 0)
  as (grad' & H1 & _ & H2); try reflexivity; try (simpl; lia).
exists grad'. split; [exact H1 |].
destruct (H2 0%nat ltac:(simpl; lia)) as [_ H3].
apply H3; simpl; lra.
Defined.

(** *** The objective along one coefficient *)

Lemma fold_right_plus (l : list R) (a : R) :
  fold_right Rplus a l = fold_right Rplus 0 l + a.
Proof. induction l as [| x l IH]; cbn; [ring | rewrite IH; ring]. Qed.

Lemma sum_S k f : sum (S k) f = sum k f + f k.
Proof.
unfold sum. rewrite seq_S, map_app, fold_right_app. cbn [map fold_right Nat.add].
rewrite fold_right_plus. ring.
Qed.

Lemma sum_plus k f h : sum k (fun l => f l + h l) = sum k f + sum k h.
Proof.
induction k as [| k IH]; [unfold sum; cbn; ring |].
rewrite !sum_S, IH. ring.
Qed.

Lemma sum_scale k t f : sum k (fun l => t * f l) = t * sum k f.
Proof.
induction k as [| k IH]; [unfold sum; cbn; ring |].
rewrite !sum_S, IH. ring.
Qed.

Lemma sum_delta k (f : nat -> R) (j : nat) (t : R) :
  (j < k)%nat ->
  sum k (fun l => f l * (if Nat.eqb l j then t else 0)) = f j * t.
Proof.
induction k as [| k IH]; intros Hj; [lia |].
rewrite sum_S. destruct (Nat.eq_dec j k) as [-> | Hne].
- rewrite Nat.eqb_refl.
  rewrite (sum_ext k _ (fun _ => 0)).
  + assert (Hz : forall n, sum n (fun _ => 0) = 0).
    { induction n as [| n IHn]; [reflexivity | rewrite sum_S, IHn; ring]. }
    rewrite Hz. ring.
  + intros l Hl. destruct (Nat.eqb_spec l k); [lia | ring].
- rewrite IH by lia. destruct (Nat.eqb_spec k j); [lia | ring].
Qed.

(** The coefficients [c] with [t] added to entry [j]. *)
Definition bump (c : list R) (j : nat) (t : R) : list R :=
  map (fun l => nth l c 0 + (if Nat.eqb l j then t else 0))
    (seq 0 (List.length c)).

Lemma residual_bump (X Y : Dense) (c : list R) (o j : nat) (t : R) (i : nat) :
  (j < cols X)%nat -> List.length c = cols X ->
  residual X Y (bump c j t) o i = residual X Y c o i + t * At X i j.
Proof.
intros Hj Hlen. unfold residual.
rewrite (sum_ext (cols X) (fun l => At X i l * nth l (bump c j t) 0)
           (fun l => At X i l * nth l c 0
                     + At X i l * (if Nat.eqb l j then t else 0))).
- rewrite sum_plus, sum_delta by exact Hj. ring.
- intros l Hl. unfold bump. rewrite nth_map_seq by lia. ring.
Qed.

(** X27.  The objective along one coefficient: adding t to c_j changes the
    data term of [loss] by t*g_j/nSamples + t^2 * sum_i X[i,j]^2 /
    (2*nSamples), with g = X^T . residuals.  The slope of the data term is
    g_j/nSamples, where [p.Grad] returns g_j: the gradient is nSamples times
    the derivative of the objective. *)
Theorem loss_along_coefficient (regr : SGDRegressor) (X Y coef : Dense)
  (c : list R) (o j : nat) (t : R) :
  Coef (model regr) = Some coef -> (o < cols coef)%nat ->
  List.length c = rows coef -> cols X = rows coef ->
  (o < cols Y)%nat -> rows Y = rows X -> (0 < rows X)%nat ->
  (j < cols X)%nat ->
  exists s v s' v',
    loss regr X Y c o = Some (s, v) /\
    loss regr X Y (bump c j t) o = Some (s', v') /\
    v' - penalty regr X (bump c j t)
    = v - penalty regr X c
      + t * (dataGradient X Y c o j / INR (rows X))
      + t * t * (sum (rows X) (fun i => At X i j * At X i j) / 2 / INR (rows X)).
Proof.
intros HC Ho Hlen HX HoY HY Hn Hj.
pose proof (loss_run regr X Y coef c o HC Ho Hlen HX HoY HY) as H1.
assert (Hlen' : List.length (bump c j t) = rows coef)
  by (unfold bump; rewrite length_map, length_seq; exact Hlen).
pose proof (loss_run regr X Y coef (bump c j t) o HC Ho Hlen' HX HoY HY) as H2.
eexists _, _, _, _. split; [exact H1 |]. split; [exact H2 |].
rewrite (sum_ext (rows X)
           (fun i => residual X Y (bump c j t) o i * residual X Y (bump c j t) o i)
           (fun i => residual X Y c o i * residual X Y c o i
                     + (2 * t * (At X i j * residual X Y c o i)
                        + t * t * (At X i j * At X i j)))).
2:{ intros i _. rewrite residual_bump by congruence. ring. }
rewrite !sum_plus.
rewrite (sum_scale (rows X) (2 * t) (fun i => At X i j * residual X Y c o i)).
rewrite (sum_scale (rows X) (t * t) (fun i => At X i j * At X i j)).
unfold dataGradient.
assert (Hn' : INR (rows X) <> 0) by (apply not_0_INR; lia).
field. exact Hn'.
Qed.

Lemma loss_along_coefficient_witness :
  exists s v s' v',
    loss sampleRegressor (mkDense 1 2 [1; 2]) (mkDense 1 1 [3]) [4; 5] 0
    = Some (s, v) /\
    loss sampleRegressor (mkDense 1 2 [1; 2]) (mkDense 1 1 [3]) (bump [4; 5] 1 7) 0
    = Some (s', v') /\
    v' - penalty sampleRegressor (mkDense 1 2 [1; 2]) (bump [4; 5] 1 7)
    = v - penalty sampleRegressor (mkDense 1 2 [1; 2]) [4; 5]
      + 7 * (dataGradient (mkDense 1 2 [1; 2]) (mkDense 1 1 [3]) [4; 5] 0 1
             / INR (rows (mkDense 1 2 [1; 2])))
      + 7 * 7 * (sum (rows (mkDense 1 2 [1; 2]))
                   (fun i => At (mkDense 1 2 [1; 2]) i 1 * At (mkDense 1 2 [1; 2]) i 1)
                 / 2 / INR (rows (mkDense 1 2 [1; 2]))).
Proof.
apply (loss_along_coefficient sampleRegressor (mkDense 1 2 [1; 2])
         (mkDense 1 1 [3]) (NewDense 2 1) [4; 5] 0 1 7);
  try reflexivity; simpl; lia.
Defined.

End sgdRegressorFacts.
